(** * QIOToolkit documentation pipeline: doxygen2docfx and generate_xrefmap

    A shallow embedding of the two documentation converters
    ([doc/doxygen2docfx.py], Stage A, and [doc/generate_xrefmap.py],
    Stage B) together with the properties the design document states
    about them, and of the quality gate of the static analysis
    ([ci/static_code_analysis/count_cppcheck_analysis.py]), followed by
    further properties of the three programs.

    Conventions of the embedding.
    - A Python [str] is a [string]; a character is a code point below 256.
    - A Python exception aborts the run; a function that may raise returns
      an [option], [None] standing for the abort.
    - The handler stack of [DocFxHandler] is a [list Node] whose head is the
      top of the stack.  Every handler is created with the then top of the
      stack as its [parent] and lives until it is popped, so the parent chain
      of the node at the head is the tail of the list: a mutation of an
      ancestor through [self.parent] is a mutation of the list element.
    - XML attribute names are taken not to shadow the methods of
      [TagHandler] ([enter], [leave], [characters], [add_content], ...).
    - The item mapping [items] is a [Dict]: its entries in the order of
      insertion, as in a Python dictionary.
    - A YAML file stands for the record it holds: a file that Stage A
      writes is the list of its items, and Stage B reads back what was
      written.  Messages on the standard error and the creation of
      directories are left out.
    - A path names its file: two different paths name two different
      files.  The record files are the files that hold [items]; a path
      without a record is a file that is missing or that holds no
      [items], and reading either aborts.
    - The report that the quality gate reads is the tree of
      [xml.etree.ElementTree]; what the gate prints is the list of its
      lines. *)

From Stdlib Require Import Ascii String.
From stdpp Require Import base option list functions gmap strings sorting
  pretty.

(** ** Strings *)

Module Str.

Definition nl : string := String "010"%char "".

Fixpoint take (n : nat) (s : string) : string :=
  match n, s with
  | S n', String c s' => String c (take n' s')
  | _, _ => ""
  end.

Fixpoint drop (n : nat) (s : string) : string :=
  match n, s with
  | S n', String _ s' => drop n' s'
  | _, _ => s
  end.

(** [s.startswith(p)] *)
Fixpoint startswith (p s : string) : bool :=
  match p, s with
  | "", _ => true
  | String a p', String c s' => Ascii.eqb a c && startswith p' s'
  | String _ _, "" => false
  end.

(** [s[:-1]] and [s[-1:]] *)
Definition but_last (s : string) : string := take (String.length s - 1) s.
Definition last (s : string) : string := drop (String.length s - 1) s.

Fixpoint rev (s : string) : string :=
  match s with
  | "" => ""
  | String c s' => rev s' +:+ String c ""
  end.

Fixpoint lstrip_by (p : ascii → bool) (s : string) : string :=
  match s with
  | String c s' => if p c then lstrip_by p s' else s
  | "" => ""
  end.

Definition strip_by (p : ascii → bool) (s : string) : string :=
  rev (lstrip_by p (rev (lstrip_by p s))).

Definition code (c : ascii) : nat := Ascii.nat_of_ascii c.

(** [str.isspace] on one character, which is also the class [\s] of [re]
    for [str] patterns. *)
Definition is_space (c : ascii) : bool :=
  let n := code c in
  ((9 <=? n) && (n <=? 13)) || ((28 <=? n) && (n <=? 32))
  || (n =? 133) || (n =? 160).

Definition is_upper (c : ascii) : bool :=
  let n := code c in (65 <=? n) && (n <=? 90).

Definition lower_char (c : ascii) : ascii :=
  if is_upper c then Ascii.ascii_of_nat (code c + 32) else c.

Fixpoint lower (s : string) : string :=
  match s with
  | String c s' => String (lower_char c) (lower s')
  | "" => ""
  end.

(** [s.strip()] and [s.strip('-')] *)
Definition strip (s : string) : string := strip_by is_space s.
Definition strip_dash (s : string) : string := strip_by (Ascii.eqb "-"%char) s.

(** The text [x] occurs in [s]. *)
Fixpoint contains (x s : string) : bool :=
  startswith x s ||
  match s with
  | String _ s' => contains x s'
  | "" => false
  end.

End Str.

(** ** Regular expressions

    The patterns of the two scripts use literals, character classes,
    greedy repetition of a character class, concatenation, ordered
    alternation, numbered groups and the anchors [^] and [$].  The matcher
    is the backtracking matcher of [re]: leftmost match, alternatives in
    order, repetitions greedy. *)

Module Re.

Inductive regex : Type :=
| Lit (l : string)
| Class (p : ascii → bool)
| Star (p : ascii → bool)
| Plus (p : ascii → bool)
| Seq (r1 r2 : regex)
| Alt (r1 r2 : regex)
| Group (n : nat) (r : regex)
| Bol
| Eol.

(** [.] matches everything but a newline; [\s] is [Str.is_space]. *)
Definition dot (c : ascii) : bool := negb (Ascii.eqb c "010"%char).
Definition chr (a : ascii) (c : ascii) : bool := Ascii.eqb a c.

Abbreviation groups := (gmap nat string).

Section matcher.
Context {R : Type}.

(** A continuation gets the position reached, the text left and the
    groups captured so far. *)
Definition cont : Type := nat → string → groups → option R.

Fixpoint lit_k (l : string) (k : cont) (pos : nat) (s : string)
    (caps : groups) : option R :=
  match l with
  | "" => k pos s caps
  | String a l' =>
      match s with
      | String c s' =>
          if Ascii.eqb a c then lit_k l' k (S pos) s' caps else None
      | "" => None
      end
  end.

Fixpoint star_k (p : ascii → bool) (k : cont) (pos : nat) (s : string)
    (caps : groups) : option R :=
  match s with
  | String c s' =>
      if p c then
        match star_k p k (S pos) s' caps with
        | Some r => Some r
        | None => k pos s caps
        end
      else k pos s caps
  | "" => k pos s caps
  end.

Fixpoint match_k (r : regex) (k : cont) (pos : nat) (s : string)
    (caps : groups) : option R :=
  match r with
  | Lit l => lit_k l k pos s caps
  | Class p =>
      match s with
      | String c s' => if p c then k (S pos) s' caps else None
      | "" => None
      end
  | Star p => star_k p k pos s caps
  | Plus p =>
      match s with
      | String c s' => if p c then star_k p k (S pos) s' caps else None
      | "" => None
      end
  | Seq r1 r2 => match_k r1 (match_k r2 k) pos s caps
  | Alt r1 r2 =>
      match match_k r1 k pos s caps with
      | Some x => Some x
      | None => match_k r2 k pos s caps
      end
  | Group n r' =>
      match_k r'
        (λ pos' s' caps', k pos' s' (<[n := Str.take (pos' - pos) s]> caps'))
        pos s caps
  | Bol => if pos =? 0 then k pos s caps else None
  | Eol =>
      match s with
      | "" => k pos s caps
      | String c "" => if Ascii.eqb c "010"%char then k pos s caps else None
      | _ => None
      end
  end.
End matcher.

(** A match starting at [pos] (the text from there on is [s]): its length
    and its groups. *)
Definition match_at (r : regex) (pos : nat) (s : string)
    : option (nat * groups) :=
  match_k r (λ pos' _ caps, Some (pos' - pos, caps)) pos s ∅.

(** [re.match(r, s)] *)
Definition rmatch (r : regex) (s : string) : option (nat * groups) :=
  match_at r 0 s.

(** [re.search(r, s)] *)
Fixpoint search_from (r : regex) (pos : nat) (s : string)
    : option (nat * groups) :=
  match match_at r pos s with
  | Some m => Some m
  | None =>
      match s with
      | String _ s' => search_from r (S pos) s'
      | "" => None
      end
  end.
Definition search (r : regex) (s : string) : option (nat * groups) :=
  search_from r 0 s.

(** [re.sub]: the non-overlapping matches are replaced from left to
    right; [repl] gets the matched text and the groups.  [budget] is the
    [count] argument ([None]: no limit); [skip] counts the characters of
    the match in progress that are still to be dropped. *)
Fixpoint sub_loop (r : regex) (repl : string → groups → string)
    (budget : option nat) (skip pos : nat) (s : string) : string :=
  match skip with
  | S k =>
      match s with
      | String _ s' => sub_loop r repl budget k (S pos) s'
      | "" => ""
      end
  | 0 =>
      match (if budget is Some 0 then None else match_at r pos s) with
      | Some (len, caps) =>
          let out := repl (Str.take len s) caps in
          let budget' := Nat.pred <$> budget in
          match s with
          | String c s' =>
              match len with
              | 0 => out +:+ String c (sub_loop r repl budget' 0 (S pos) s')
              | S l => out +:+ sub_loop r repl budget' l (S pos) s'
              end
          | "" => out
          end
      | None =>
          match s with
          | String c s' => String c (sub_loop r repl budget 0 (S pos) s')
          | "" => ""
          end
      end
  end.

Definition sub (r : regex) (repl : string → groups → string) (s : string)
    : string :=
  sub_loop r repl None 0 0 s.

Definition sub_count (r : regex) (repl : string → groups → string)
    (s : string) (count : nat) : string :=
  sub_loop r repl (Some count) 0 0 s.

(** Concatenation of a list of patterns and alternation of literals. *)
Definition cat (rs : list regex) : regex := foldr Seq (Lit "") rs.

Fixpoint alts (l : string) (ls : list string) : regex :=
  match ls with
  | [] => Lit l
  | l' :: ls' => Alt (Lit l) (alts l' ls')
  end.

(** A group of the match; a group that took no part reads as empty. *)
Definition group (caps : groups) (n : nat) : string := default "" (caps !! n).

End Re.

Import Re.

(** ** Module-level functions of [doxygen2docfx.py] *)

(** [translate]: the dictionary has the two keys ["C++"] and ["variable"]. *)
Definition translate (doxy : string) : string :=
  if decide (doxy = "C++") then "cpp"
  else if decide (doxy = "variable") then "field"
  else doxy.

(** [camel2dashed]: [[A-Z]+] is replaced by a dash and the lowered match,
    then [_-] by [_], then dashes are stripped at both ends. *)
Definition re_upper_run : regex := Plus Str.is_upper.

Definition camel2dashed (name : string) : string :=
  let name := Re.sub re_upper_run (λ m _, "-" +:+ Str.lower m) name in
  let name := Re.sub (Lit "_-") (λ _ _, "_") name in
  Str.strip_dash name.

(** [id_sorting]: pattern [^(class|struct|namespace)] replaced by nothing. *)
Definition re_kind_prefix : regex :=
  cat [Bol; Group 1 (alts "class" ["struct"; "namespace"])].

Definition id_sorting (item_id : string) : string :=
  Re.sub re_kind_prefix (λ _ _, "") item_id.

(** ** [sorted(set(l), key=id_sorting)]

    [sorted] is a stable sort on the keys, compared as strings (by code
    point, a proper prefix first).  Any stable sort returns the same list;
    here each element is inserted before the elements of the sorted tail
    that do not have a smaller key. *)

Section Sorted.
Context {A : Type} (key : A → string).

Fixpoint insert_by (x : A) (l : list A) : list A :=
  match l with
  | [] => [x]
  | y :: l' =>
      if String.leb (key x) (key y) then x :: y :: l'
      else y :: insert_by x l'
  end.

Fixpoint sorted_by (l : list A) : list A :=
  match l with
  | [] => []
  | x :: l' => insert_by x (sorted_by l')
  end.

(** The order that [sorted] establishes. *)
Definition key_le (x y : A) : Prop := String.leb (key x) (key y) = true.
End Sorted.

(** ** Data model *)

(** The [source] entry of an item: [path], [startLine] and, unless the
    extractor gave [-1], [endLine]. *)
Record Source : Type := mkSource {
  path : string;
  startLine : Z;
  endLine : option Z;
}.

(** An item is the [OrderedDict] that [CompoundDef.enter] or
    [MemberDef.enter] creates and the other handlers fill in.  A key that
    the dictionary may lack is an [option]; [item_id] is the key ['id'] and
    [syntax] the ['content'] of the ['syntax'] dictionary. *)
Record Item : Type := mkItem {
  uid : string;
  item_id : string;
  parent : option string;
  type : string;
  summary : string;
  langs : option (list string);
  name : option string;
  fullName : option string;
  children : option (list string);
  inheritedMembers : option (list string);
  derivedClasses : option (list string);
  inheritance : option (list string);
  overrides : option (list string);
  syntax : option string;
  brief : option string;
  description : option string;
  source : option Source;
}.

Definition set_parent (v : option string) (it : Item) : Item :=
  {| uid := uid it; item_id := item_id it; parent := v; type := type it;
     summary := summary it; langs := langs it; name := name it;
     fullName := fullName it; children := children it;
     inheritedMembers := inheritedMembers it;
     derivedClasses := derivedClasses it; inheritance := inheritance it;
     overrides := overrides it; syntax := syntax it; brief := brief it;
     description := description it; source := source it |}.
Definition set_type (v : string) (it : Item) : Item :=
  {| uid := uid it; item_id := item_id it; parent := parent it; type := v;
     summary := summary it; langs := langs it; name := name it;
     fullName := fullName it; children := children it;
     inheritedMembers := inheritedMembers it;
     derivedClasses := derivedClasses it; inheritance := inheritance it;
     overrides := overrides it; syntax := syntax it; brief := brief it;
     description := description it; source := source it |}.
Definition set_summary (v : string) (it : Item) : Item :=
  {| uid := uid it; item_id := item_id it; parent := parent it;
     type := type it; summary := v; langs := langs it; name := name it;
     fullName := fullName it; children := children it;
     inheritedMembers := inheritedMembers it;
     derivedClasses := derivedClasses it; inheritance := inheritance it;
     overrides := overrides it; syntax := syntax it; brief := brief it;
     description := description it; source := source it |}.
Definition set_langs (v : option (list string)) (it : Item) : Item :=
  {| uid := uid it; item_id := item_id it; parent := parent it;
     type := type it; summary := summary it; langs := v; name := name it;
     fullName := fullName it; children := children it;
     inheritedMembers := inheritedMembers it;
     derivedClasses := derivedClasses it; inheritance := inheritance it;
     overrides := overrides it; syntax := syntax it; brief := brief it;
     description := description it; source := source it |}.
Definition set_name (v : option string) (it : Item) : Item :=
  {| uid := uid it; item_id := item_id it; parent := parent it;
     type := type it; summary := summary it; langs := langs it; name := v;
     fullName := fullName it; children := children it;
     inheritedMembers := inheritedMembers it;
     derivedClasses := derivedClasses it; inheritance := inheritance it;
     overrides := overrides it; syntax := syntax it; brief := brief it;
     description := description it; source := source it |}.
Definition set_fullName (v : option string) (it : Item) : Item :=
  {| uid := uid it; item_id := item_id it; parent := parent it;
     type := type it; summary := summary it; langs := langs it;
     name := name it; fullName := v; children := children it;
     inheritedMembers := inheritedMembers it;
     derivedClasses := derivedClasses it; inheritance := inheritance it;
     overrides := overrides it; syntax := syntax it; brief := brief it;
     description := description it; source := source it |}.
Definition set_children (v : option (list string)) (it : Item) : Item :=
  {| uid := uid it; item_id := item_id it; parent := parent it;
     type := type it; summary := summary it; langs := langs it;
     name := name it; fullName := fullName it; children := v;
     inheritedMembers := inheritedMembers it;
     derivedClasses := derivedClasses it; inheritance := inheritance it;
     overrides := overrides it; syntax := syntax it; brief := brief it;
     description := description it; source := source it |}.
Definition set_inheritedMembers (v : option (list string)) (it : Item) : Item :=
  {| uid := uid it; item_id := item_id it; parent := parent it;
     type := type it; summary := summary it; langs := langs it;
     name := name it; fullName := fullName it; children := children it;
     inheritedMembers := v; derivedClasses := derivedClasses it;
     inheritance := inheritance it; overrides := overrides it;
     syntax := syntax it; brief := brief it;
     description := description it; source := source it |}.
Definition set_derivedClasses (v : option (list string)) (it : Item) : Item :=
  {| uid := uid it; item_id := item_id it; parent := parent it;
     type := type it; summary := summary it; langs := langs it;
     name := name it; fullName := fullName it; children := children it;
     inheritedMembers := inheritedMembers it; derivedClasses := v;
     inheritance := inheritance it; overrides := overrides it;
     syntax := syntax it; brief := brief it;
     description := description it; source := source it |}.
Definition set_inheritance (v : option (list string)) (it : Item) : Item :=
  {| uid := uid it; item_id := item_id it; parent := parent it;
     type := type it; summary := summary it; langs := langs it;
     name := name it; fullName := fullName it; children := children it;
     inheritedMembers := inheritedMembers it;
     derivedClasses := derivedClasses it; inheritance := v;
     overrides := overrides it; syntax := syntax it; brief := brief it;
     description := description it; source := source it |}.
Definition set_overrides (v : option (list string)) (it : Item) : Item :=
  {| uid := uid it; item_id := item_id it; parent := parent it;
     type := type it; summary := summary it; langs := langs it;
     name := name it; fullName := fullName it; children := children it;
     inheritedMembers := inheritedMembers it;
     derivedClasses := derivedClasses it; inheritance := inheritance it;
     overrides := v; syntax := syntax it; brief := brief it;
     description := description it; source := source it |}.
Definition set_syntax (v : option string) (it : Item) : Item :=
  {| uid := uid it; item_id := item_id it; parent := parent it;
     type := type it; summary := summary it; langs := langs it;
     name := name it; fullName := fullName it; children := children it;
     inheritedMembers := inheritedMembers it;
     derivedClasses := derivedClasses it; inheritance := inheritance it;
     overrides := overrides it; syntax := v; brief := brief it;
     description := description it; source := source it |}.
Definition set_brief (v : option string) (it : Item) : Item :=
  {| uid := uid it; item_id := item_id it; parent := parent it;
     type := type it; summary := summary it; langs := langs it;
     name := name it; fullName := fullName it; children := children it;
     inheritedMembers := inheritedMembers it;
     derivedClasses := derivedClasses it; inheritance := inheritance it;
     overrides := overrides it; syntax := syntax it; brief := v;
     description := description it; source := source it |}.
Definition set_description (v : option string) (it : Item) : Item :=
  {| uid := uid it; item_id := item_id it; parent := parent it;
     type := type it; summary := summary it; langs := langs it;
     name := name it; fullName := fullName it; children := children it;
     inheritedMembers := inheritedMembers it;
     derivedClasses := derivedClasses it; inheritance := inheritance it;
     overrides := overrides it; syntax := syntax it; brief := brief it;
     description := v; source := source it |}.
Definition set_source (v : option Source) (it : Item) : Item :=
  {| uid := uid it; item_id := item_id it; parent := parent it;
     type := type it; summary := summary it; langs := langs it;
     name := name it; fullName := fullName it; children := children it;
     inheritedMembers := inheritedMembers it;
     derivedClasses := derivedClasses it; inheritance := inheritance it;
     overrides := overrides it; syntax := syntax it; brief := brief it;
     description := description it; source := v |}.

(** A handler node: the tag, the XML attributes, the text buffer ([None]
    while the node owns none) and the flag [is_closed] that
    [ComputerOutput.enter] creates. *)
Record Node : Type := mkNode {
  tag : string;
  attrs : gmap string string;
  text : option string;
  is_closed : bool;
}.

Definition set_text (v : option string) (n : Node) : Node :=
  {| tag := tag n; attrs := attrs n; text := v; is_closed := is_closed n |}.
Definition set_is_closed (v : bool) (n : Node) : Node :=
  {| tag := tag n; attrs := attrs n; text := text n; is_closed := v |}.
Definition set_attr (a v : string) (n : Node) : Node :=
  {| tag := tag n; attrs := <[a := v]> (attrs n); text := text n;
     is_closed := is_closed n |}.

(** [self.a] for an XML attribute [a]: [None] is the [AttributeError]. *)
Definition getattr (n : Node) (a : string) : option string := attrs n !! a.
Definition hasattr (n : option Node) (a : string) : bool :=
  match n with
  | Some n => bool_decide (is_Some (attrs n !! a))
  | None => false
  end.

Definition has_tag (entity : option Node) (t : string) : bool :=
  match entity with
  | None => false
  | Some n => bool_decide (tag n = t)
  end.

(** [int(s)] for a [str]: surrounding white space, an optional sign, and
    decimal digits that single underscores may separate; [None] is the
    [ValueError].  The white space of [int] is that of C (tab to carriage
    return, and the blank) and the white space above the ASCII range; the
    separators from 28 to 31, which [str.strip] removes, are not part of
    it. *)
Definition is_int_space (c : ascii) : bool :=
  let n := Str.code c in
  ((9 <=? n) && (n <=? 13)) || (n =? 32) || (n =? 133) || (n =? 160).

Definition is_digit (c : ascii) : bool :=
  let n := Str.code c in (48 <=? n) && (n <=? 57).

Fixpoint digits_val (acc : Z) (after_digit : bool) (s : string) : option Z :=
  match s with
  | "" => if after_digit then Some acc else None
  | String c s' =>
      if is_digit c then
        digits_val (10 * acc + Z.of_nat (Str.code c - 48)) true s'
      else if Ascii.eqb c "_"%char then
        if after_digit then digits_val acc false s' else None
      else None
  end.

Definition py_int (s : string) : option Z :=
  match Str.strip_by is_int_space s with
  | String c r =>
      if Ascii.eqb c "-"%char then Z.opp <$> digits_val 0 false r
      else if Ascii.eqb c "+"%char then digits_val 0 false r
      else digits_val 0 false (String c r)
  | "" => None
  end.

(** ** [TagHandler]: the node chain *)

(** A Python [dict] with [str] keys: its entries in the order of
    insertion.  Writing to a key that is present replaces the value where
    it stands; a new key goes to the end. *)
Record Dict (V : Type) : Type := mkDict { entries : list (string * V) }.
Arguments mkDict {V} _.
Arguments entries {V} _.

Fixpoint entries_get {V : Type} (l : list (string * V)) (k : string)
    : option V :=
  match l with
  | [] => None
  | (k', v) :: l' => if decide (k = k') then Some v else entries_get l' k
  end.

Fixpoint entries_set {V : Type} (k : string) (v : V) (l : list (string * V))
    : list (string * V) :=
  match l with
  | [] => [(k, v)]
  | (k', v') :: l' =>
      if decide (k = k') then (k, v) :: l' else (k', v') :: entries_set k v l'
  end.

#[global] Instance dict_empty {V : Type} : Empty (Dict V) := mkDict [].
#[global] Instance dict_lookup {V : Type} : Lookup string V (Dict V) :=
  λ k d, entries_get (entries d) k.
#[global] Instance dict_insert {V : Type} : Insert string V (Dict V) :=
  λ k v d, mkDict (entries_set k v (entries d)).

(** [d.values()] *)
Definition values {V : Type} (d : Dict V) : list V := (entries d).*2.

Abbreviation Items := (Dict Item).

(** [TagHandler.create]: the three assertions, then the call of the
    class with the attributes as keyword arguments, which raises a
    [TypeError] for an attribute named [self], then the node with its
    buffer unset. *)
Definition create (t : string) (attributes : gmap string string)
    : option Node :=
  if bool_decide (attributes !! "text" = None)
     && bool_decide (attributes !! "tag" = None)
     && bool_decide (attributes !! "parent" = None)
     && bool_decide (attributes !! "self" = None)
  then Some {| tag := t; attrs := attributes; text := None;
               is_closed := false |}
  else None.

(** In the functions below [chain] is [self] followed by its ancestors,
    the parent first; [[]] stands for [None]. *)

(** [TagHandler.add_content] *)
Fixpoint add_content (chain : list Node) (content : string) : list Node :=
  match chain with
  | [] => []
  | self :: parent =>
      match text self with
      | Some t => set_text (Some (t +:+ content)) self :: parent
      | None => self :: add_content parent content
      end
  end.

(** [TagHandler.get_content] *)
Fixpoint get_content (chain : list Node) : option string :=
  match chain with
  | [] => None
  | self :: parent =>
      match text self with
      | Some t => Some t
      | None => get_content parent
      end
  end.

(** [TagHandler.ancestor] *)
Fixpoint ancestor (chain : list Node) (count : nat) : option Node :=
  match chain with
  | [] => None
  | self :: parent =>
      match count with
      | 0 => Some self
      | S count' => ancestor parent count'
      end
  end.

(** [items[k][field] = v], written as an update [f] of the item at [k];
    [None] is the [KeyError]. *)
Definition upd (k : string) (f : Item → Item) (items : Items)
    : option Items :=
  it ← items !! k; Some (<[k := f it]> items).

Definition new_item (i : string) (p : option string) (ty : string) : Item :=
  {| uid := i; item_id := i; parent := p; type := ty; summary := "";
     langs := None; name := None; fullName := None; children := None;
     inheritedMembers := None; derivedClasses := None; inheritance := None;
     overrides := None; syntax := None; brief := None; description := None;
     source := None |}.

(** ** Python sets

    [set_iter l] is the order in which a [set] that was filled with the
    elements of [l], in this order, is iterated.  The language leaves the
    order open (it depends on the hashes of the strings); it promises each
    element of [l] once and nothing else. *)
Class PySet : Type := mkPySet {
  set_iter : list string → list string;
  set_iter_NoDup : ∀ l, NoDup (set_iter l);
  set_iter_elem_of : ∀ l x, x ∈ set_iter l ↔ x ∈ l;
}.

(** ** The tag handlers

    A handler method takes the stack (with [self] at its head) and the item
    mapping and returns both. *)

Definition Result : Type := option (list Node * Items).

Record Handler : Type := mkHandler {
  enter : list Node → Items → Result;
  leave : list Node → Items → Result;
  characters : string → list Node → Items → Result;
}.

(** Patterns of the handlers. *)
(** [.*::] *)
Definition re_qualifier : regex := cat [Star dot; Lit "::"].
(** [^ *(NOTE|WARNING|TIP|IMPORTANT|CAUTION):] *)
Definition re_admonition : regex :=
  cat [Bol; Star (chr " "); 
       Group 1 (alts "NOTE" ["WARNING"; "TIP"; "IMPORTANT"; "CAUTION"]);
       Lit ":"].
(** The two patterns of [Formula.leave]: white space, the opening
    backslash-bracket, a group of any characters, the closing
    backslash-bracket, white space and the end of the text; and white
    space, a dollar, a group of any characters, a dollar and white space. *)
Definition re_display_math : regex :=
  cat [Bol; Star Str.is_space; Lit "\["; Group 1 (Star dot); Lit "\]";
       Star Str.is_space; Eol].
Definition re_inline_math : regex :=
  cat [Bol; Star Str.is_space; Lit "$"; Group 1 (Star dot); Lit "$";
       Star Str.is_space].

Definition INFERRED_CPP : string := " {c++}" +:+ Str.nl.

Section Handlers.

Context `{PySet}.

(** [sorted(set(l), key=id_sorting)] *)
Definition sorted_set (l : list string) : list string :=
  sorted_by id_sorting (set_iter l).

Definition TagHandler_enter (stack : list Node) (items : Items) : Result :=
  Some (stack, items).
Definition TagHandler_leave (stack : list Node) (items : Items) : Result :=
  Some (stack, items).
Definition TagHandler_characters (content : string) (stack : list Node)
    (items : Items) : Result :=
  Some (add_content stack content, items).

Definition Name_characters (content : string) (stack : list Node)
    (items : Items) : Result :=
  if has_tag (ancestor stack 2) "listofallmembers" then
    a3 ← ancestor stack 3;
    parent_id ← getattr a3 "id";
    p ← ancestor stack 1;
    member_id ← getattr p "refid";
    match items !! parent_id with
    | Some it =>
        if match children it with
           | None => true
           | Some ch => bool_decide (member_id ∉ ch)
           end
        then
          let inherited := default [] (inheritedMembers it) in
          let inherited := inherited ++ [member_id] in
          let inherited := sorted_set inherited in
          Some (stack,
                <[parent_id := set_inheritedMembers (Some inherited) it]> items)
        else Some (stack, items)
    | None => Some (stack, items)
    end
  else if hasattr (ancestor stack 3) "id" then
    a3 ← ancestor stack 3;
    parent_id ← getattr a3 "id";
    p ← ancestor stack 1;
    item_id ← getattr p "id";
    items ← upd parent_id
      (λ it, set_children (Some (default [] (children it) ++ [item_id])) it)
      items;
    if bool_decide (is_Some (items !! item_id)) then
      items ← upd item_id (set_name (Some content)) items;
      pit ← items !! parent_id;
      parent_fullName ← fullName pit;
      items ← upd item_id
        (set_fullName (Some (parent_fullName +:+ "::" +:+ content))) items;
      it ← items !! item_id;
      if decide (type it = "function") then
        pit ← items !! parent_id;
        parent_name ← name pit;
        let item_type :=
          if decide (content = Re.sub re_qualifier (λ _ _, "") parent_name)
          then "constructor" else "method" in
        items ← upd item_id (set_type (translate item_type)) items;
        Some (stack, items)
      else Some (stack, items)
    else Some (stack, items)
  else Some (stack, items).

(** [Definition.characters] and [ArgsString.characters] have the same
    body. *)
Definition Definition_characters (content : string) (stack : list Node)
    (items : Items) : Result :=
  p ← ancestor stack 1;
  item_id ← getattr p "id";
  match items !! item_id with
  | Some it =>
      Some (stack,
            <[item_id := set_syntax
                (Some (default "" (syntax it) +:+ Str.strip content)) it]>
              items)
  | None => Some (stack, items)
  end.

Definition ListItem_enter (stack : list Node) (items : Items) : Result :=
  Some (add_content stack "  * ", items).

Definition Para_characters (content : string) (stack : list Node)
    (items : Items) : Result :=
  let content :=
    Re.sub_count re_admonition
      (λ _ g, Str.nl +:+ "> [!" +:+ Re.group g 1 +:+ "]" +:+ Str.nl +:+ "> ")
      content 1 in
  Some (add_content stack content, items).

Definition CompoundDef_enter (stack : list Node) (items : Items) : Result :=
  self ← ancestor stack 0;
  kind ← getattr self "kind";
  if decide (kind ≠ "dir") then
    item_id ← getattr self "id";
    let it := new_item item_id None (translate kind) in
    let it :=
      match getattr self "language" with
      | Some language => set_langs (Some [translate language]) it
      | None => it
      end in
    Some (stack, <[item_id := it]> items)
  else Some (stack, items).

Definition CompountName_characters (content : string) (stack : list Node)
    (items : Items) : Result :=
  p ← ancestor stack 1;
  item_id ← getattr p "id";
  match items !! item_id with
  | Some it =>
      Some (stack,
            <[item_id := set_fullName (Some content)
                           (set_name (Some content) it)]> items)
  | None => Some (stack, items)
  end.

Definition BaseCompoundRef_enter (stack : list Node) (items : Items)
    : Result :=
  self ← ancestor stack 0;
  p ← ancestor stack 1;
  item_id ← getattr p "id";
  match getattr self "refid" with
  | Some refid =>
      items ← upd item_id
        (λ it, set_inheritance (Some (default [] (inheritance it) ++ [refid]))
                 it)
        items;
      Some (stack, items)
  | None => Some (stack, items)
  end.

Definition DerivedCompoundRef_enter (stack : list Node) (items : Items)
    : Result :=
  self ← ancestor stack 0;
  p ← ancestor stack 1;
  item_id ← getattr p "id";
  it ← items !! item_id;
  let derived := default [] (derivedClasses it) in
  refid ← getattr self "refid";
  let derived := derived ++ [refid] in
  Some (stack,
        <[item_id := set_derivedClasses (Some (sorted_set derived)) it]> items).

Definition excluded_kinds : list string :=
  ["friend"; "type"; "typedef"; "variable"].

Definition MemberDef_enter (stack : list Node) (items : Items) : Result :=
  self ← ancestor stack 0;
  kind ← getattr self "kind";
  if bool_decide (kind ∉ excluded_kinds) then
    a2 ← ancestor stack 2;
    parent_id ← getattr a2 "id";
    member_id ← getattr self "id";
    Some (stack,
          <[member_id := new_item member_id (Some parent_id) (translate kind)]>
            items)
  else Some (stack, items).

Definition ComputerOutput_enter (stack : list Node) (items : Items)
    : Result :=
  match stack with
  | self :: parent =>
      Some (add_content (set_is_closed false self :: parent) "`", items)
  | [] => None
  end.

Definition ComputerOutput_leave (stack : list Node) (items : Items)
    : Result :=
  self ← ancestor stack 0;
  if negb (is_closed self) then Some (add_content stack "`", items)
  else Some (stack, items).

(** [ProgramListing.enter], [BriefDescription.enter],
    [DetailedDescription.enter] and [Formula.enter]: [self.text = ''] *)
Definition own_buffer_enter (stack : list Node) (items : Items) : Result :=
  match stack with
  | self :: parent => Some (set_text (Some "") self :: parent, items)
  | [] => None
  end.

Definition get_filename (self : Node) : string :=
  default "" (getattr self "filename").

Definition ProgramListing_leave (stack : list Node) (items : Items)
    : Result :=
  match stack with
  | self :: parent =>
      t ← text self;
      let self :=
        if Str.startswith INFERRED_CPP t then
          set_attr "filename" "cpp"
            (set_text (Some (Str.drop (String.length INFERRED_CPP) t)) self)
        else self in
      let self :=
        if decide (get_filename self = "c++")
        then set_attr "filename" "cpp" self else self in
      t ← text self;
      match parent with
      | [] => None
      | _ :: _ =>
          let parent :=
            add_content parent
              (Str.nl +:+ "```" +:+ get_filename self +:+ Str.nl +:+ t
               +:+ "```" +:+ Str.nl) in
          Some (set_text None self :: parent, items)
      end
  | [] => None
  end.

Definition Sp_enter (stack : list Node) (items : Items) : Result :=
  Some (add_content stack " ", items).

Definition BriefDescription_leave (stack : list Node) (items : Items)
    : Result :=
  match stack with
  | self :: parent =>
      p ← ancestor stack 1;
      item_id ← getattr p "id";
      items ←
        match items !! item_id with
        | Some it =>
            t ← text self;
            Some (<[item_id := set_summary (Str.strip t)
                                 (set_brief (Some (Str.strip t)) it)]> items)
        | None => Some items
        end;
      Some (set_text None self :: parent, items)
  | [] => None
  end.

Definition DetailedDescription_leave (stack : list Node) (items : Items)
    : Result :=
  match stack with
  | self :: parent =>
      p ← ancestor stack 1;
      item_id ← getattr p "id";
      items ←
        match items !! item_id with
        | Some it =>
            t ← text self;
            Some (<[item_id :=
                      set_summary
                        (Str.strip (summary it +:+ Str.nl +:+ Str.nl
                                    +:+ Str.strip t))
                        (set_description (Some (Str.strip t)) it)]> items)
        | None => Some items
        end;
      Some (set_text None self :: parent, items)
  | [] => None
  end.

(** The loop of [Ref.enter]: the nearest node of the chain that owns a
    buffer gets an opening bracket before the last character of the
    buffer. *)
Fixpoint insert_bracket (chain : list Node) : list Node :=
  match chain with
  | [] => []
  | node :: parent =>
      match text node with
      | None => node :: insert_bracket parent
      | Some t =>
          set_text (Some (Str.but_last t +:+ "[" +:+ Str.last t)) node :: parent
      end
  end.

Definition Ref_enter (stack : list Node) (items : Items) : Result :=
  match stack with
  | self :: parent =>
      if has_tag (ancestor stack 1) "computeroutput" then
        Some (self :: insert_bracket parent, items)
      else Some (add_content stack "[", items)
  | [] => None
  end.

(** [self.parent.is_closed = True] *)
Definition close_parent (stack : list Node) : list Node :=
  match stack with
  | self :: p :: rest => self :: set_is_closed true p :: rest
  | _ => stack
  end.

Definition Ref_leave (stack : list Node) (items : Items) : Result :=
  self ← ancestor stack 0;
  let stack :=
    if has_tag (ancestor stack 1) "computeroutput" then
      close_parent (add_content stack "`")
    else stack in
  refid ← getattr self "refid";
  Some (add_content stack ("](xref:" +:+ refid +:+ ")"), items).

Definition Location_enter (stack : list Node) (items : Items) : Result :=
  self ← ancestor stack 0;
  p ← ancestor stack 1;
  item_id ← getattr p "id";
  match items !! item_id, getattr self "bodyfile" with
  | Some it, Some bodyfile =>
      bodystart ← getattr self "bodystart";
      start ← py_int bodystart;
      end_ ←
        match getattr self "bodyend" with
        | Some bodyend =>
            if decide (bodyend ≠ "-1") then Some <$> py_int bodyend
            else Some None
        | None => Some None
        end;
      Some (stack,
            <[item_id := set_source (Some (mkSource bodyfile start end_)) it]>
              items)
  | _, _ => Some (stack, items)
  end.

(** The loop of [Formula.leave] over the two patterns, in the order of
    the dictionary. *)
Definition formula_rewrite (content : string) : string :=
  if Re.rmatch re_display_math content is Some _ then
    Re.sub re_display_math (λ _ g, Re.group g 1) content
  else if Re.rmatch re_inline_math content is Some _ then
    Re.sub re_inline_math (λ _ g, Re.group g 1) content
  else content.

Definition Formula_leave (stack : list Node) (items : Items) : Result :=
  match stack with
  | self :: parent =>
      content ← get_content stack;
      let content := formula_rewrite content in
      match parent with
      | [] => None
      | _ :: _ =>
          let parent :=
            add_content parent
              (Str.nl +:+ "```math" +:+ Str.nl +:+ content +:+ Str.nl
               +:+ "```" +:+ Str.nl) in
          Some (set_text None self :: parent, items)
      end
  | [] => None
  end.

Definition ReimplementedBy_enter (stack : list Node) (items : Items)
    : Result :=
  self ← ancestor stack 0;
  p ← ancestor stack 1;
  item_id ← getattr p "id";
  match items !! item_id with
  | Some it =>
      refid ← getattr self "refid";
      Some (stack,
            <[item_id := set_overrides
                (Some (default [] (overrides it) ++ [refid])) it]> items)
  | None => Some (stack, items)
  end.

(** The classes, each with the methods it overrides. *)
Definition TagHandler : Handler :=
  mkHandler TagHandler_enter TagHandler_leave TagHandler_characters.
Definition Name : Handler :=
  mkHandler TagHandler_enter TagHandler_leave Name_characters.
Definition Definition_ : Handler :=
  mkHandler TagHandler_enter TagHandler_leave Definition_characters.
Definition ArgsString : Handler :=
  mkHandler TagHandler_enter TagHandler_leave Definition_characters.
Definition ListItem : Handler :=
  mkHandler ListItem_enter TagHandler_leave TagHandler_characters.
Definition Para : Handler :=
  mkHandler TagHandler_enter TagHandler_leave Para_characters.
Definition CompoundDef : Handler :=
  mkHandler CompoundDef_enter TagHandler_leave TagHandler_characters.
Definition CompountName : Handler :=
  mkHandler TagHandler_enter TagHandler_leave CompountName_characters.
Definition BaseCompoundRef : Handler :=
  mkHandler BaseCompoundRef_enter TagHandler_leave TagHandler_characters.
Definition DerivedCompoundRef : Handler :=
  mkHandler DerivedCompoundRef_enter TagHandler_leave TagHandler_characters.
Definition MemberDef : Handler :=
  mkHandler MemberDef_enter TagHandler_leave TagHandler_characters.
Definition ComputerOutput : Handler :=
  mkHandler ComputerOutput_enter ComputerOutput_leave TagHandler_characters.
Definition ProgramListing : Handler :=
  mkHandler own_buffer_enter ProgramListing_leave TagHandler_characters.
Definition Sp : Handler :=
  mkHandler Sp_enter TagHandler_leave TagHandler_characters.
Definition BriefDescription : Handler :=
  mkHandler own_buffer_enter BriefDescription_leave TagHandler_characters.
Definition DetailedDescription : Handler :=
  mkHandler own_buffer_enter DetailedDescription_leave TagHandler_characters.
Definition Ref : Handler :=
  mkHandler Ref_enter Ref_leave TagHandler_characters.
Definition Location : Handler :=
  mkHandler Location_enter TagHandler_leave TagHandler_characters.
Definition Formula : Handler :=
  mkHandler own_buffer_enter Formula_leave TagHandler_characters.
Definition ReimplementedBy : Handler :=
  mkHandler ReimplementedBy_enter TagHandler_leave TagHandler_characters.

(** [TagHandler.handlers], filled by the [@tag] decorators. *)
Definition handlers : list (string * Handler) :=
  [("name", Name); ("definition", Definition_); ("argsstring", ArgsString);
   ("listitem", ListItem); ("para", Para); ("compounddef", CompoundDef);
   ("compoundname", CompountName); ("basecompoundref", BaseCompoundRef);
   ("derivedcompoundref", DerivedCompoundRef); ("memberdef", MemberDef);
   ("computeroutput", ComputerOutput); ("programlisting", ProgramListing);
   ("sp", Sp); ("briefdescription", BriefDescription);
   ("detaileddescription", DetailedDescription); ("ref", Ref);
   ("location", Location); ("formula", Formula);
   ("reimplementedby", ReimplementedBy)].

Fixpoint assoc {V : Type} (k : string) (l : list (string * V)) : option V :=
  match l with
  | [] => None
  | (k', v) :: l' => if decide (k = k') then Some v else assoc k l'
  end.

(** The class of a node: the handler registered for its tag, or
    [TagHandler]. *)
Definition handler_of (t : string) : Handler :=
  default TagHandler (assoc t handlers).

(** ** [DocFxHandler] *)

Record DocFxHandler : Type := mkDocFx {
  stack : list Node;
  items : Items;
}.

Definition init : DocFxHandler := mkDocFx [] ∅.

Definition lift (r : Result) : option DocFxHandler :=
  '(st, it) ← r; Some (mkDocFx st it).

Definition startElement (t : string) (attributes : gmap string string)
    (h : DocFxHandler) : option DocFxHandler :=
  node ← create t attributes;
  lift (enter (handler_of t) (node :: stack h) (items h)).

Definition endElement (h : DocFxHandler) : option DocFxHandler :=
  self ← ancestor (stack h) 0;
  '(st, it) ← leave (handler_of (tag self)) (stack h) (items h);
  Some (mkDocFx (tail st) it).

Definition characters_event (content : string) (h : DocFxHandler)
    : option DocFxHandler :=
  self ← ancestor (stack h) 0;
  lift (characters (handler_of (tag self)) content (stack h) (items h)).

(** The events that the SAX parser sends. *)
Inductive Event : Type :=
| StartElement (t : string) (attributes : list (string * string))
| EndElement (t : string)
| Characters (content : string).

Definition step (h : DocFxHandler) (e : Event) : option DocFxHandler :=
  match e with
  | StartElement t attributes => startElement t (list_to_map attributes) h
  | EndElement _ => endElement h
  | Characters content => characters_event content h
  end.

Fixpoint run (h : DocFxHandler) (es : list Event) : option DocFxHandler :=
  match es with
  | [] => Some h
  | e :: es' => h' ← step h e; run h' es'
  end.

End Handlers.

(** ** [DocFxHandler.translate_path] and [convert] *)

(** The pattern of [translate_path]: [doxygen/xml/], a group with one of
    [struct], [class] and [namespace], a group of any characters, and
    [.xml] with a literal dot. *)
Definition re_doxygen_xml : regex :=
  cat [Lit "doxygen/xml/"; Group 1 (alts "struct" ["class"; "namespace"]);
       Group 2 (Star dot); Lit ".xml"].
(** [(qiotoolkit)_] *)
Definition re_project : regex := cat [Group 1 (Lit "qiotoolkit"); Lit "_"].

Definition translate_path (path : string) : string :=
  let path := Re.sub re_doxygen_xml (λ _ g, Re.group g 2 +:+ ".yml") path in
  let path := Re.sub (Lit "1_1") (λ _ _, "") path in
  let path :=
    if Re.rmatch re_project path is Some _
    then Re.sub (Lit "qiotoolkit_") (λ _ _, "") path else path in
  let path := camel2dashed path in
  let path := Re.sub (Lit "_") (λ _ _, "/") path in
  "api/" +:+ path.

(** [os.path.join(a, *ps)] *)
Definition endswith_slash (s : string) : bool :=
  bool_decide (Str.last s = "/").

Definition path_join (a : string) (ps : list string) : string :=
  foldl (λ path b,
           if Str.startswith "/" b then b
           else if bool_decide (path = "") || endswith_slash path
                then path +:+ b
                else path +:+ "/" +:+ b) a ps.

(** A file that [convert] writes: its name and the items of
    [getYaml]. *)
Definition File : Type := string * list Item.

(** The loop of [convert] over [namespace.items()], for a path of the
    namespace matcher: one file for each method. *)
Fixpoint namespace_files (l : list (string * Item))
    (namespace_name : option string) : option (list File) :=
  match l with
  | [] => Some []
  | (key, it) :: l' =>
      if decide (type it = "namespace") then
        namespace_files l'
          (Some (Str.drop (String.length "namespace") key))
      else if decide (type it = "method") then
        function_name ← name it;
        if decide (function_name = "&") then
          namespace_files l' namespace_name
        else
          ns ← namespace_name;
          let filename :=
            path_join "api" [ns; camel2dashed function_name +:+ ".yml"] in
          files ← namespace_files l' namespace_name;
          Some ((filename, [it]) :: files)
      else namespace_files l' namespace_name
  end.

Definition suppressed : list string :=
  ["api/std/optional.yml";
   "api/ValueSetter/3_01std_optional_3_01T_01_4_01_4.yml"].

Section Convert.
Context `{PySet}.

(** [convert(path)], where [events] is what the parser reads from the
    file at [path]: the files written, in order. *)
Definition convert (path : string) (events : list Event)
    : option (list File) :=
  doc_fx_handler ← run init events;
  if Re.search (Lit "/namespacematcher") path is Some _ then
    namespace_files (entries (items doc_fx_handler)) None
  else if Re.search (Lit "/namespace") path is Some _ then
    Some []
  else
    let filename := translate_path path in
    if bool_decide (filename ∈ suppressed) then Some []
    else Some [(filename, values (items doc_fx_handler))].
End Convert.

(** ** Stage B: [generate_xrefmap.py] *)

(** An entry of the reference map. *)
Record GlobalReference : Type := mkRef {
  ref_uid : string;
  ref_name : string;
  ref_href : string;
  ref_fullName : string;
}.

(** What a record file holds: its [items] and, once Stage B has rewritten
    it, its [references]. *)
Record Content : Type := mkContent {
  content_items : list Item;
  references : option (list GlobalReference);
}.

(** The record files that Stage B reads and rewrites, by path. *)
Abbreviation Files := (gmap string Content).

(** The file that Stage B writes between its two loops. *)
Definition xrefmap_yml : string := "xrefmap.yml".

(** The pattern that skips a table of contents: at the start, or after
    any characters and a slash, [toc.yml] and the end of the path. *)
Definition re_toc : regex :=
  cat [Group 1 (Alt Bol (cat [Star dot; Lit "/"])); Lit "toc.yml"; Eol].
(** [.yml], the dot being any character. *)
Definition re_yml : regex := cat [Class dot; Lit "yml"].

Definition is_toc (path : string) : bool :=
  if Re.rmatch re_toc path is Some _ then true else false.

(** The first loop: one reference for each item of each record. *)
Definition make_ref (path : string) (item : Item) : option GlobalReference :=
  n ← name item;
  fn ← fullName item;
  Some (mkRef (uid item) n ("/" +:+ Re.sub re_yml (λ _ _, ".html") path) fn).

Fixpoint collect_items (path : string) (l : list Item)
    (xreflist : list GlobalReference) (xrefmap : gmap string GlobalReference)
    : option (list GlobalReference * gmap string GlobalReference) :=
  match l with
  | [] => Some (xreflist, xrefmap)
  | item :: l' =>
      ref ← make_ref path item;
      collect_items path l' (xreflist ++ [ref]) (<[uid item := ref]> xrefmap)
  end.

Fixpoint collect (fs : Files) (paths : list string)
    (xreflist : list GlobalReference) (xrefmap : gmap string GlobalReference)
    : option (list GlobalReference * gmap string GlobalReference) :=
  match paths with
  | [] => Some (xreflist, xrefmap)
  | path :: paths' =>
      if is_toc path then collect fs paths' xreflist xrefmap
      else
        content ← fs !! path;
        '(xreflist, xrefmap) ←
          collect_items path (content_items content) xreflist xrefmap;
        collect fs paths' xreflist xrefmap
  end.

(** The body of the second loop for one item.  [referenced] lists the
    uids in the order in which [referenced.add] got them. *)
Definition rewrite_item (xrefmap : gmap string GlobalReference)
    (item : Item) (referenced : list string) : Item * list string :=
  let '(item, referenced) :=
    match parent item with
    | Some p =>
        if bool_decide (is_Some (xrefmap !! p)) then (item, referenced ++ [p])
        else (set_parent None item, referenced)
    | None => (item, referenced)
    end in
  let '(item, referenced) :=
    match children item with
    | Some ch =>
        let ch := filter (λ c, is_Some (xrefmap !! c)) ch in
        (set_children (Some ch) item, referenced ++ ch)
    | None => (item, referenced)
    end in
  match inheritedMembers item with
  | Some ms =>
      let ms := filter (λ c, is_Some (xrefmap !! c)) ms in
      (set_inheritedMembers (Some ms) item, referenced ++ ms)
  | None => (item, referenced)
  end.

Fixpoint rewrite_items (xrefmap : gmap string GlobalReference)
    (l : list Item) (referenced : list string) : list Item * list string :=
  match l with
  | [] => ([], referenced)
  | item :: l' =>
      let '(item, referenced) := rewrite_item xrefmap item referenced in
      let '(l', referenced) := rewrite_items xrefmap l' referenced in
      (item :: l', referenced)
  end.

Section StageB.
Context `{PySet}.

(** The second loop for one record: the items rewritten and the
    references of the uids in [referenced]. *)
Definition rewrite_content (xrefmap : gmap string GlobalReference)
    (content : Content) : option Content :=
  let '(l, referenced) := rewrite_items xrefmap (content_items content) [] in
  refs ← mapM (λ reference, xrefmap !! reference) (set_iter referenced);
  Some (mkContent l (Some refs)).

Fixpoint rewrite (xrefmap : gmap string GlobalReference) (fs : Files)
    (paths : list string) : option Files :=
  match paths with
  | [] => Some fs
  | path :: paths' =>
      if is_toc path then rewrite xrefmap fs paths'
      else
        content ← fs !! path;
        content ← rewrite_content xrefmap content;
        rewrite xrefmap (<[path := content]> fs) paths'
  end.

(** [generate_xrefmap(paths)]: the record files after the run and the
    list written to [xrefmap.yml].  The write between the two loops
    replaces what was at [xrefmap.yml] by the mapping with the one key
    [references]: a record that was there is gone, for the second loop
    too. *)
Definition generate_xrefmap (fs : Files) (paths : list string)
    : option (Files * list GlobalReference) :=
  '(xreflist, xrefmap) ← collect fs paths [] ∅;
  let fs := delete xrefmap_yml fs in
  fs ← rewrite xrefmap fs paths;
  Some (fs, xreflist).
End StageB.

(** ** The quality gate: [ci/static_code_analysis/count_cppcheck_analysis.py] *)

Module Cppcheck.

Inductive ErrorType : Type :=
| ERROR | WARNING | STYLE | PERFORMANCE | PORTABILITY | INFORMATION | UNKNOWN.

#[global] Instance ErrorType_eq_dec : EqDecision ErrorType.
Proof. solve_decision. Defined.

(** An [ET.Element]: its tag, its attributes and its children in the
    order of the document. *)
#[local] Unset Elimination Schemes.
Inductive Element : Type :=
| Elem (tag : string) (attrib : gmap string string) (children : list Element).
#[local] Set Elimination Schemes.

Definition tag_of (e : Element) : string :=
  match e with Elem t _ _ => t end.
Definition attrib_of (e : Element) : gmap string string :=
  match e with Elem _ a _ => a end.
Definition children_of (e : Element) : list Element :=
  match e with Elem _ _ c => c end.

(** [root.findall('errors/error')]: the children [error] of the children
    [errors] of the root. *)
Definition findall_errors (root : Element) : list Element :=
  errors ← filter (λ c, tag_of c = "errors") (children_of root);
  filter (λ e, tag_of e = "error") (children_of errors).

(** [classify_error]; [None] is the [KeyError] of an error without
    severity. *)
Definition classify_error (error : Element) : option ErrorType :=
  severity ← attrib_of error !! "severity";
  if decide (severity = "error") then Some ERROR
  else if decide (severity = "warning") then Some WARNING
  else if decide (severity = "style") then Some STYLE
  else if decide (severity = "performance") then Some PERFORMANCE
  else if decide (severity = "portability") then Some PORTABILITY
  else if decide (severity = "information") then Some INFORMATION
  else Some UNKNOWN.

(** The dictionary [error_types], which has all seven keys. *)
Abbreviation Counts := (ErrorType → nat).

Fixpoint count_loop (errors : list Element) (error_types : Counts)
    : option Counts :=
  match errors with
  | [] => Some error_types
  | error :: errors' =>
      classified_error ← classify_error error;
      count_loop errors'
        (<[classified_error := error_types classified_error + 1]> error_types)
  end.

Definition count_error_types (root : Element) : option Counts :=
  count_loop (findall_errors root) (λ _, 0).

(** The arguments that [parse_args] returns. *)
Record Args : Type := mkArgs {
  file : string;
  error_threshold : Z;
  warning_threshold : Z;
}.

(** What [main] finds at [args.file]: nothing, a file that [ET.parse]
    rejects, or a document. *)
Inductive Report : Type :=
| Missing
| Unparsable
| Parsed (root : Element).

(** [main]: the lines printed and the value returned, [None] being the
    [None] of Python. *)
Definition main (args : Args) (report : Report)
    : option (list string * option Z) :=
  match report with
  | Missing => Some (["File not found: " +:+ file args], None)
  | Unparsable => None
  | Parsed root =>
      error_types ← count_error_types root;
      let out := [] in
      let exit_code := 0%Z in
      let '(out, exit_code) :=
        if bool_decide (error_threshold args < Z.of_nat (error_types ERROR))%Z
        then (out ++ ["Too many errors: " +:+ pretty (error_types ERROR)], 1%Z)
        else (out, exit_code) in
      let '(out, exit_code) :=
        if bool_decide
             (warning_threshold args < Z.of_nat (error_types WARNING))%Z
        then (out ++ ["Too many warnings: " +:+ pretty (error_types WARNING)],
              1%Z)
        else (out, exit_code) in
      let out :=
        out ++ ["--------------------";
                "Errors: " +:+ pretty (error_types ERROR);
                "Warnings: " +:+ pretty (error_types WARNING);
                "Style: " +:+ pretty (error_types STYLE);
                "Performance: " +:+ pretty (error_types PERFORMANCE);
                "Portability: " +:+ pretty (error_types PORTABILITY);
                "Information: " +:+ pretty (error_types INFORMATION);
                "Unknown: " +:+ pretty (error_types UNKNOWN);
                "--------------------"] in
      let out :=
        if decide (exit_code = 0%Z) then out ++ ["Quality gate passed"]
        else out in
      Some (out, Some exit_code)
  end.

(** [exit(_exit_code)]: the status of the process; [exit(None)] is a
    success. *)
Definition exit_status (exit_code : option Z) : Z := default 0%Z exit_code.

End Cppcheck.

(** * Vocabulary of the properties and sample inputs *)

(** A set order, to show that the class has an instance: the first
    occurrences in the order of insertion. *)
Definition insertion_order : PySet :=
  mkPySet remove_dups (@NoDup_remove_dups _ _) (λ l x, elem_of_remove_dups l x).

Definition plain_node (t : string) : Node := mkNode t ∅ None false.
Definition buffer_node (t b : string) : Node := mkNode t ∅ (Some b) false.

(** The events of a description that opens a code span and, right in it,
    a link. *)
Definition code_span_link : list Event :=
  [StartElement "detaileddescription" [];
   Characters "see ";
   StartElement "computeroutput" [];
   StartElement "ref" [("refid", "classB")]].

Definition buffer_after `{PySet} (events : list Event) : option string :=
  h ← run init events; get_content (stack h).

(** All characters of [s] are in the class [p]. *)
Fixpoint all_in (p : ascii → bool) (s : string) : Prop :=
  match s with
  | "" => True
  | String c s' => p c = true ∧ all_in p s'
  end.

(** The block that [ProgramListing.leave] emits. *)
Definition code_block (language body : string) : string :=
  Str.nl +:+ "```" +:+ language +:+ Str.nl +:+ body +:+ "```" +:+ Str.nl.

(** The block that [Formula.leave] emits. *)
Definition math_block (content : string) : string :=
  Str.nl +:+ "```math" +:+ Str.nl +:+ content +:+ Str.nl +:+ "```" +:+ Str.nl.

(** A description that reads [see] and then holds a formula with the
    text [t], up to the end of the formula; and a display formula on
    three lines. *)
Definition formula_events (t : string) : list Event :=
  [StartElement "detaileddescription" [];
   Characters "see ";
   StartElement "formula" [("id", "0")];
   Characters t;
   EndElement "formula"].
Definition multiline_formula : string :=
  "\[" +:+ Str.nl +:+ "x^2" +:+ Str.nl +:+ "\]".

(** The simple name of a type: [re.sub(".*::", "", parent_name)]. *)
Definition simple_name (parent_name : string) : string :=
  Re.sub re_qualifier (λ _ _, "") parent_name.

Definition sorted_nodup (l : list string) : Prop :=
  Sorted (key_le id_sorting) l ∧ NoDup l.

Definition item_ok (it : Item) : Prop :=
  (∀ l, derivedClasses it = Some l → sorted_nodup l)
  ∧ (∀ l, inheritedMembers it = Some l → sorted_nodup l).

Definition items_ok (items : Items) : Prop :=
  ∀ k it, items !! k = Some it → item_ok it.

(** A class with an enumeration member and the name event of the member. *)
Definition enum_member : list Event :=
  [StartElement "compounddef" [("id", "classA"); ("kind", "class")];
   StartElement "compoundname" []; Characters "A"; EndElement "compoundname";
   StartElement "sectiondef" [];
   StartElement "memberdef" [("id", "e1"); ("kind", "enum")];
   StartElement "name" []; Characters "E"].

(** A uid that the second loop marks as referenced while it handles
    [item]: the parent, a child or an inherited member, if it is in the
    reference map. *)
Definition marks (xrefmap : gmap string GlobalReference) (item : Item)
    (u : string) : Prop :=
  is_Some (xrefmap !! u)
  ∧ (parent item = Some u
     ∨ u ∈ default [] (children item)
     ∨ u ∈ default [] (inheritedMembers item)).

(** [item'] is [item] with its links pruned: the parent is dropped if it
    is not in the reference map, the children and the inherited members
    are filtered to the uids of the map, and nothing else differs. *)
Definition pruned (xrefmap : gmap string GlobalReference)
    (item item' : Item) : Prop :=
  parent item'
  = (p ← parent item;
     if bool_decide (is_Some (xrefmap !! p)) then Some p else None)
  ∧ children item'
    = filter (λ c, is_Some (xrefmap !! c)) <$> children item
  ∧ inheritedMembers item'
    = filter (λ c, is_Some (xrefmap !! c)) <$> inheritedMembers item
  ∧ item'
    = set_inheritedMembers (inheritedMembers item')
        (set_children (children item') (set_parent (parent item') item)).

(** A corpus of two records: a class with a method, and a base class
    that is not in the corpus. *)
Definition class_item : Item :=
  set_inheritance (Some ["classBase"])
    (set_children (Some ["m1"; "m2"])
       (set_fullName (Some "A")
          (set_name (Some "A") (new_item "classA" (Some "nsX") "class")))).
Definition method_item : Item :=
  set_fullName (Some "A::f")
    (set_name (Some "f") (new_item "m1" (Some "classA") "method")).
Definition corpus : Files :=
  {["a.yml" := mkContent [class_item] None;
    "f.yml" := mkContent [method_item] None]}.
Definition corpus_paths : list string := ["a.yml"; "f.yml"].

Definition corpus_after : Files :=
  Eval vm_compute in
    default ∅ (fst <$> @generate_xrefmap insertion_order corpus corpus_paths).
Definition corpus_refs : list GlobalReference :=
  Eval vm_compute in
    default [] (snd <$> @generate_xrefmap insertion_order corpus corpus_paths).
Definition class_after : Content :=
  Eval vm_compute in default (mkContent [] None) (corpus_after !! "a.yml").

Definition starts_no_match (r : regex) : Prop :=
  ∀ c pos s, c ∈ ["a"; "p"; "i"; "/"]%char → match_at r pos (String c s) = None.

(** The type of the item [k] after a run. *)
Definition type_after `{PySet} (events : list Event) (k : string)
    : option string :=
  h ← run init events; it ← items h !! k; Some (type it).

(** A class with the derived class [classZ] named twice and [structB]
    once. *)
Definition derived_twice : list Event :=
  [StartElement "compounddef" [("id", "classA"); ("kind", "class")];
   StartElement "derivedcompoundref" [("refid", "classZ")];
   EndElement "derivedcompoundref";
   StartElement "derivedcompoundref" [("refid", "structB")];
   EndElement "derivedcompoundref";
   StartElement "derivedcompoundref" [("refid", "classZ")];
   EndElement "derivedcompoundref"].
Definition derived_twice_handler : DocFxHandler :=
  Eval vm_compute in default init (@run insertion_order init derived_twice).
Definition derived_twice_item : Item :=
  Eval vm_compute in
    default (new_item "" None "") (items derived_twice_handler !! "classA").

(** The stack at the name of a member of the class [classA], in a list of
    all members and in a section of definitions, and the items of a class
    [ns::A] with a function [f1]. *)
Definition member_stack : list Node :=
  [plain_node "name"; mkNode "member" {["refid" := "m1"]} None false;
   plain_node "listofallmembers";
   mkNode "compounddef" {["id" := "classA"]} None false].
Definition memberdef_stack : list Node :=
  [plain_node "name"; mkNode "memberdef" {["id" := "f1"]} None false;
   plain_node "sectiondef";
   mkNode "compounddef" {["id" := "classA"]} None false].
Definition class_items : Items :=
  mkDict
    [("classA",
      set_fullName (Some "ns::A")
        (set_name (Some "ns::A") (new_item "classA" None "class")));
     ("f1", new_item "f1" (Some "classA") "function")].

(** A namespace [std] with a function [optional], as the parser would
    read it from a file of the namespace matcher. *)
Definition matcher_path : string := "doxygen/xml/namespacematcher.xml".
Definition matcher_events : list Event :=
  [StartElement "compounddef" [("id", "namespacestd"); ("kind", "namespace")];
   StartElement "compoundname" []; Characters "std";
   EndElement "compoundname";
   StartElement "sectiondef" [];
   StartElement "memberdef" [("id", "f"); ("kind", "function")];
   StartElement "name" []; Characters "optional"; EndElement "name";
   EndElement "memberdef"; EndElement "sectiondef";
   EndElement "compounddef"].

(** ** Vocabulary of the further properties *)

(** The tags on the stack after an event. *)
Definition step_tags (tags : list string) (e : Event) : list string :=
  match e with
  | StartElement t _ => t :: tags
  | EndElement _ => tail tags
  | Characters _ => tags
  end.

(** The tags of the handlers that own a buffer while they are open. *)
Definition buffer_tags : list string :=
  ["programlisting"; "briefdescription"; "detaileddescription"; "formula"].

(** Two stacks with the same tags in which the same nodes own a buffer. *)
Definition same_owners (st st' : list Node) : Prop :=
  Forall2 (λ n n', tag n = tag n' ∧ (is_Some (text n) ↔ is_Some (text n')))
    st st'.

(** Every node of the stack owns a buffer if and only if its tag is one
    of [buffer_tags]. *)
Definition buffers_ok (st : list Node) : Prop :=
  Forall (λ n, is_Some (text n) ↔ tag n ∈ buffer_tags) st.

(** The keys of a dictionary, in the order of insertion. *)
Definition keys {V : Type} (d : Dict V) : list string := (entries d).*1.

(** A text without white space at its ends: [s.strip() == s]. *)
Definition trimmed (s : string) : Prop := Str.strip s = s.

(** What holds of every item [it] at the key [k] of the item mapping. *)
Definition item_inv (k : string) (it : Item) : Prop :=
  uid it = k ∧ item_id it = k
  ∧ type it ≠ "C++" ∧ type it ≠ "variable"
  ∧ trimmed (summary it)
  ∧ (∀ b, brief it = Some b → trimmed b)
  ∧ (∀ d, description it = Some d → trimmed d)
  ∧ (description it = None → summary it = default "" (brief it)).

(** The invariant of the item mapping. *)
Definition items_inv (items : Items) : Prop :=
  ∀ k it, items !! k = Some it → item_inv k it.

(** The texts of a list, one after the other. *)
Definition join (l : list string) : string := foldr String.append "" l.

(** The item mapping after the chunks [chunks] of a signature of the
    item [item_id]. *)
Definition with_syntax (item_id : string) (chunks : list string)
    (items : Items) : Items :=
  match items !! item_id, chunks with
  | Some it, _ :: _ =>
      <[item_id := set_syntax
          (Some (default "" (syntax it) +:+ join (Str.strip <$> chunks))) it]>
        items
  | _, _ => items
  end.

(** The markers that [Para.characters] turns into admonitions. *)
Definition admonitions : list string :=
  ["NOTE"; "WARNING"; "TIP"; "IMPORTANT"; "CAUTION"].

(** The text that replaces a marker and its colon. *)
Definition admonition_head (marker : string) : string :=
  Str.nl +:+ "> [!" +:+ marker +:+ "]" +:+ Str.nl +:+ "> ".

(** The characters of a documentation path: no capital letter from [A]
    to [Z], and, in [path_char], no underscore either. *)
Definition not_upper (c : ascii) : bool := negb (Str.is_upper c).
Definition path_char (c : ascii) : bool :=
  not_upper c && negb (Ascii.eqb c "_"%char).

(** The items that the branch of the namespace matcher publishes: the
    methods, but for the one named [&]. *)
Definition published (it : Item) : bool :=
  bool_decide (type it = "method") && bool_decide (name it ≠ Some "&").

(** The name of the file of the method [function_name] of the namespace
    [ns]. *)
Definition method_file (ns function_name : string) : string :=
  path_join "api" [ns; camel2dashed function_name +:+ ".yml"].

(** The namespace in force behind the items [l]: the name of the last
    namespace item of [l], or [namespace_name] if [l] has none. *)
Definition namespace_names (l : list (string * Item)) : list string :=
  omap (λ '(key, it),
          if decide (type it = "namespace")
          then Some (Str.drop (String.length "namespace") key) else None) l.
Definition namespace_in_force (l : list (string * Item))
    (namespace_name : option string) : option string :=
  match last (namespace_names l) with
  | Some n => Some n
  | None => namespace_name
  end.

(** The items of the records that Stage B reads, each with the path of
    its record, in the order of the first loop. *)
Definition listed (fs : Files) (paths : list string)
    : list (string * Item) :=
  path ← filter (λ path, is_toc path = false) paths;
  (λ item, (path, item)) <$> default [] (content_items <$> fs !! path).

(** The entry of the reference map for the uid [u], read off the list
    written to [xrefmap.yml]: the last entry of the list with this uid. *)
Definition xref_of (xreflist : list GlobalReference) (u : string)
    : option GlobalReference :=
  last (filter (λ r, ref_uid r = u) xreflist).

(** A uid that the item links to: its parent, a child or an inherited
    member. *)
Definition linked (item : Item) (u : string) : Prop :=
  parent item = Some u
  ∨ u ∈ default [] (children item)
  ∨ u ∈ default [] (inheritedMembers item).

(** The records of the paths that Stage B handles are there. *)
Definition readable (fs : Files) (paths : list string) : Prop :=
  ∀ path, path ∈ paths → is_toc path = false → is_Some (fs !! path).

(** A report of the analysis with three errors, and the default
    thresholds. *)
Definition sample_report : Cppcheck.Element :=
  Cppcheck.Elem "results" ∅
    [Cppcheck.Elem "cppcheck" ∅ [];
     Cppcheck.Elem "errors" ∅
       [Cppcheck.Elem "error" {["severity" := "error"]} [];
        Cppcheck.Elem "error" {["severity" := "style"]} [];
        Cppcheck.Elem "error" {["severity" := "warning"]} []]].
Definition sample_args : Cppcheck.Args :=
  Cppcheck.mkArgs "cppcheck.xml" 4 23.
Definition sample_counts : Cppcheck.Counts :=
  <[Cppcheck.WARNING := 1]>
    (<[Cppcheck.STYLE := 1]> (<[Cppcheck.ERROR := 1]> (λ _, 0))).

(** A class with a brief description, up to the end of the description,
    and the start of a member function after it. *)
Definition described : list Event :=
  [StartElement "compounddef" [("id", "classA"); ("kind", "class")];
   StartElement "briefdescription" [];
   StartElement "para" []; Characters " A class. "; EndElement "para";
   EndElement "briefdescription"].
Definition described_handler : DocFxHandler :=
  Eval vm_compute in default init (@run insertion_order init described).
Definition described_item : Item :=
  Eval vm_compute in
    default (new_item "" None "") (items described_handler !! "classA").
(** The handler in the paragraph of the brief description. *)
Definition brief_open : DocFxHandler :=
  Eval vm_compute in
    default init (@run insertion_order init (take 3 described)).
Definition member_start : list Event :=
  [StartElement "sectiondef" [];
   StartElement "memberdef" [("id", "f1"); ("kind", "function")]].
Definition member_started : DocFxHandler :=
  Eval vm_compute in
    default init (@run insertion_order described_handler member_start).

(** The file that [convert] writes for the class. *)
Definition described_path : string := "doxygen/xml/classA.xml".
Definition described_files : list File :=
  Eval vm_compute in
    default [] (@convert insertion_order described_path
                  (described ++ [EndElement "compounddef"])).

(** The items of a class without members. *)
Definition class_alone : Items :=
  mkDict [("classA", new_item "classA" None "class")].

(** The handler at the signature of the function [f1]. *)
Definition at_definition : DocFxHandler :=
  mkDocFx [plain_node "definition";
           mkNode "memberdef" {["id" := "f1"]} None false] class_items.

(** The handler in a description that reads [see ]. *)
Definition in_description : DocFxHandler :=
  mkDocFx [buffer_node "detaileddescription" "see "] ∅.

(** The item of the namespace [std]. *)
Definition std_namespace : Item := new_item "namespacestd" None "namespace".

(** The class of the corpus after Stage B. *)
Definition class_item_after : Item :=
  Eval vm_compute in
    default class_item (head (content_items class_after)).

(** * Properties *)

(** ** Dictionaries *)

Section DictFacts.
Context {V : Type}.
Implicit Types (d : Dict V) (k : string) (v : V).

Lemma entries_get_set (l : list (string * V)) k k' v :
  entries_get (entries_set k v l) k'
  = if decide (k = k') then Some v else entries_get l k'.
Proof.
  induction l as [|[k0 v0] l IH]; simpl.
  - destruct (decide (k' = k)), (decide (k = k')); congruence.
  - destruct (decide (k = k0)) as [->|Hne]; simpl.
    + destruct (decide (k' = k0)), (decide (k0 = k')); congruence.
    + rewrite IH.
      destruct (decide (k' = k0)), (decide (k = k')); congruence.
Qed.

Lemma dict_lookup_insert d k k' v :
  <[k := v]> d !! k' = if decide (k = k') then Some v else d !! k'.
Proof. apply entries_get_set. Qed.

Lemma dict_lookup_insert_eq d k v : <[k := v]> d !! k = Some v.
Proof. rewrite dict_lookup_insert. by destruct (decide (k = k)). Qed.

Lemma dict_lookup_insert_ne d k k' v :
  k ≠ k' → <[k := v]> d !! k' = d !! k'.
Proof. intros. rewrite dict_lookup_insert. by destruct (decide (k = k')). Qed.

Lemma dict_lookup_empty k : (∅ : Dict V) !! k = None.
Proof. reflexivity. Qed.
End DictFacts.

(** ** Strings *)

Section StrFacts.
Implicit Types (s t p : string).

Lemma append_cons a s t : String a s +:+ t = String a (s +:+ t).
Proof. reflexivity. Qed.

Lemma append_nil_l s : "" +:+ s = s.
Proof. reflexivity. Qed.

Lemma append_nil_r s : s +:+ "" = s.
Proof.
  induction s as [|a s IH]; [done|]. by rewrite append_cons, IH.
Qed.

Lemma append_assoc s t u : (s +:+ t) +:+ u = s +:+ t +:+ u.
Proof.
  induction s as [|a s IH]; [done|]. by rewrite !append_cons, IH.
Qed.

Lemma length_append s t :
  String.length (s +:+ t) = String.length s + String.length t.
Proof.
  induction s as [|a s IH]; [done|]. rewrite append_cons. simpl.
  by rewrite IH.
Qed.

Lemma startswith_append p s : Str.startswith p (p +:+ s) = true.
Proof.
  induction p as [|a p IH]; [done|]. rewrite append_cons. simpl.
  by rewrite Ascii.eqb_refl, IH.
Qed.

Lemma drop_append p s : Str.drop (String.length p) (p +:+ s) = s.
Proof.
  induction p as [|a p IH]; [by destruct s|]. by rewrite append_cons.
Qed.

Lemma take_append p s : Str.take (String.length p) (p +:+ s) = p.
Proof.
  induction p as [|a p IH]; [by destruct s|]. rewrite append_cons. simpl.
  by rewrite IH.
Qed.

(** A buffer that ends with a character [c]: [s[:-1]] and [s[-1:]]. *)
Lemma but_last_snoc s c : Str.but_last (s +:+ String c "") = s.
Proof.
  unfold Str.but_last. rewrite length_append. simpl.
  replace (String.length s + 1 - 1) with (String.length s) by lia.
  apply take_append.
Qed.

Lemma last_snoc s c : Str.last (s +:+ String c "") = String c "".
Proof.
  unfold Str.last. rewrite length_append. simpl.
  replace (String.length s + 1 - 1) with (String.length s) by lia.
  apply drop_append.
Qed.
End StrFacts.

(** ** Sorting by a key *)

Section SortedFacts.
Context {A : Type} (key : A → string).
Implicit Types (x : A) (l : list A).

Lemma insert_by_Permutation x l : insert_by key x l ≡ₚ x :: l.
Proof.
  induction l as [|y l IH]; simpl; [done|].
  destruct (String.leb (key x) (key y)); [done|].
  rewrite IH. apply Permutation_swap.
Qed.

Lemma sorted_by_Permutation l : sorted_by key l ≡ₚ l.
Proof.
  induction l as [|x l IH]; simpl; [done|].
  by rewrite insert_by_Permutation, IH.
Qed.

Lemma insert_by_HdRel x y l :
  key_le key y x → HdRel (key_le key) y l →
  HdRel (key_le key) y (insert_by key x l).
Proof.
  intros Hyx Hl. destruct l as [|z l]; simpl; [by constructor|].
  destruct (String.leb (key x) (key z)); constructor; [done|].
  by inversion Hl.
Qed.

Lemma insert_by_Sorted x l :
  Sorted (key_le key) l → Sorted (key_le key) (insert_by key x l).
Proof.
  induction 1 as [|y l Hl IH Hhd]; simpl; [by repeat constructor|].
  destruct (String.leb (key x) (key y)) eqn:Hxy.
  - repeat constructor; done.
  - constructor; [done|]. apply insert_by_HdRel; [|done].
    unfold key_le. destruct (String.leb_total (key x) (key y)); congruence.
Qed.

Lemma sorted_by_Sorted l : Sorted (key_le key) (sorted_by key l).
Proof.
  induction l; simpl; [constructor|]. by apply insert_by_Sorted.
Qed.

Lemma sorted_by_elem_of x l : x ∈ sorted_by key l ↔ x ∈ l.
Proof. by rewrite sorted_by_Permutation. Qed.

Lemma sorted_by_NoDup l : NoDup l → NoDup (sorted_by key l).
Proof. by rewrite sorted_by_Permutation. Qed.
End SortedFacts.

(** ** Content accumulation *)

Lemma add_content_unowned (chain : list Node) (content : string) :
  Forall (λ n, text n = None) chain → add_content chain content = chain.
Proof.
  induction 1 as [|n chain Hn _ IH]; simpl; [done|]. by rewrite Hn, IH.
Qed.

Lemma add_content_owner (pre rest : list Node) (owner : Node)
    (t content : string) :
  Forall (λ n, text n = None) pre → text owner = Some t →
  add_content (pre ++ owner :: rest) content
  = pre ++ set_text (Some (t +:+ content)) owner :: rest.
Proof.
  intros Hpre Ht. induction Hpre as [|n pre Hn _ IH]; simpl.
  - by rewrite Ht.
  - by rewrite Hn, IH.
Qed.

(** C1.  Appending content at a node: a node that owns a buffer gets the
    content appended in place; a node that owns none hands the call to
    its parent, so that the content lands in the buffer of the nearest
    ancestor that owns one, whatever lies in between; and when no node of
    the chain owns a buffer the chain is left as it is, the content being
    dropped. *)
Theorem add_content_nearest_owner (pre rest : list Node) (content : string) :
  Forall (λ n, text n = None) pre →
  (∀ self parent t, text self = Some t →
     add_content (self :: parent) content
     = set_text (Some (t +:+ content)) self :: parent)
  ∧ (∀ self parent, text self = None →
       add_content (self :: parent) content
       = self :: add_content parent content)
  ∧ (∀ owner t, text owner = Some t →
       add_content (pre ++ owner :: rest) content
       = pre ++ set_text (Some (t +:+ content)) owner :: rest)
  ∧ add_content pre content = pre.
Proof.
  intros Hpre. split; [|split; [|split]].
  - intros self parent t Ht. simpl. by rewrite Ht.
  - intros self parent Ht. simpl. by rewrite Ht.
  - intros owner t Ht. by apply add_content_owner.
  - by apply add_content_unowned.
Qed.

Lemma add_content_nearest_owner_witness :
  Forall (λ n, text n = None) [plain_node "bold"; plain_node "para"]
  ∧ add_content
      ([plain_node "bold"; plain_node "para"]
       ++ buffer_node "detaileddescription" "a " :: [buffer_node "x" "y"])
      "b"
    = [plain_node "bold"; plain_node "para"]
      ++ set_text (Some ("a " +:+ "b")) (buffer_node "detaileddescription" "a ")
         :: [buffer_node "x" "y"]
  ∧ add_content [plain_node "bold"; plain_node "para"] "b"
    = [plain_node "bold"; plain_node "para"].
Proof.
  assert (Forall (λ n, text n = None) [plain_node "bold"; plain_node "para"])
    as Hpre by (repeat constructor).
  destruct (add_content_nearest_owner
              [plain_node "bold"; plain_node "para"]
              [buffer_node "x" "y"] "b" Hpre) as (_ & _ & Hown & Hnone).
  split; [exact Hpre|]. split; [|exact Hnone].
  apply Hown. reflexivity.
Defined.

(** ** Cross-reference links in a code span *)

Lemma insert_bracket_owner (pre rest : list Node) (owner : Node) (t : string) :
  Forall (λ n, text n = None) pre → text owner = Some t →
  insert_bracket (pre ++ owner :: rest)
  = pre ++ set_text (Some (Str.but_last t +:+ "[" +:+ Str.last t)) owner :: rest.
Proof.
  intros Hpre Ht. induction Hpre as [|n pre Hn _ IH]; simpl.
  - by rewrite Ht.
  - by rewrite Hn, IH.
Qed.

Lemma insert_bracket_unowned (chain : list Node) :
  Forall (λ n, text n = None) chain → insert_bracket chain = chain.
Proof.
  induction 1 as [|n chain Hn _ IH]; simpl; [done|]. by rewrite Hn, IH.
Qed.

(** C5, as stated, fails: the bracket of a link in a code span does not
    come after the leading backtick of the span.  After [see], the opening
    of the span and the opening of the link the buffer reads [see] and then
    the bracket followed by the backtick. *)
Lemma bracket_not_after_backtick :
  @buffer_after insertion_order code_span_link = Some "see [`"
  ∧ @buffer_after insertion_order code_span_link ≠ Some "see `[".
Proof. split; [vm_compute; reflexivity|vm_compute; congruence]. Qed.

Section RefFacts.
Context `{PySet}.

(** C5, amended.  For a link whose parent is a code span, with [owner] the
    nearest ancestor that owns a buffer: when that buffer ends with the
    leading backtick of the span, the start of the link puts the opening
    bracket immediately before that backtick; the end of the link appends
    a closing backtick and then the [](xref:id)] suffix to that buffer
    and marks the span closed; and the end of a span that is marked
    closed appends nothing. *)
Theorem Ref_in_code_span (co owner : Node) (pre rest : list Node)
    (its : Items) :
  tag co = "computeroutput" → text co = None →
  Forall (λ n, text n = None) pre →
  (∀ t0 attributes,
     text owner = Some (t0 +:+ "`") →
     is_Some (create "ref" (list_to_map attributes)) →
     step (mkDocFx (co :: pre ++ owner :: rest) its)
       (StartElement "ref" attributes)
     = Some (mkDocFx
               (mkNode "ref" (list_to_map attributes) None false :: co :: pre
                ++ set_text (Some (t0 +:+ "[`")) owner :: rest) its))
  ∧ (∀ self t refid e,
       tag self = "ref" → text self = None → text owner = Some t →
       getattr self "refid" = Some refid →
       step (mkDocFx (self :: co :: pre ++ owner :: rest) its)
         (EndElement e)
       = Some (mkDocFx
                 (set_is_closed true co :: pre
                  ++ set_text
                       (Some ((t +:+ "`") +:+ "](xref:" +:+ refid +:+ ")"))
                       owner :: rest) its))
  ∧ (∀ e,
       step (mkDocFx (set_is_closed true co :: pre ++ owner :: rest) its)
         (EndElement e)
       = Some (mkDocFx (pre ++ owner :: rest) its)).
Proof.
  intros Hco Hcot Hpre. split; [|split].
  - intros t0 attributes Ht [n Hn]. cbn [step]. unfold startElement.
    rewrite Hn. cbn [mbind option_bind stack items].
    assert (n = mkNode "ref" (list_to_map attributes) None false) as ->.
    { unfold create in Hn. destruct (_ && _); [|done]. by injection Hn. }
    change (handler_of "ref") with Ref. cbn [enter Ref]. unfold Ref_enter.
    cbn [ancestor has_tag]. rewrite bool_decide_eq_true_2 by done.
    cbn [insert_bracket]. rewrite Hcot.
    rewrite (insert_bracket_owner _ _ _ (t0 +:+ "`")) by done.
    by rewrite but_last_snoc, last_snoc.
  - intros self t refid e Hself Hselft Ht Hrefid. cbn [step].
    unfold endElement. cbn [stack items ancestor mbind option_bind].
    rewrite Hself. change (handler_of "ref") with Ref. cbn [leave Ref].
    unfold Ref_leave. cbn [ancestor mbind option_bind has_tag].
    rewrite bool_decide_eq_true_2 by done. rewrite Hrefid.
    rewrite (add_content_owner (self :: co :: pre) rest owner t)
      by (repeat constructor; done).
    cbn [close_parent app mbind option_bind].
    rewrite (add_content_owner (self :: set_is_closed true co :: pre) rest
               (set_text (Some (t +:+ "`")) owner) (t +:+ "`"));
      [done|repeat constructor; done|done].
  - intros e. cbn [step]. unfold endElement.
    cbn [stack items ancestor mbind option_bind tag set_is_closed].
    rewrite Hco. change (handler_of "computeroutput") with ComputerOutput.
    reflexivity.
Qed.
End RefFacts.

Lemma Ref_in_code_span_witness :
  @step insertion_order
    (mkDocFx (plain_node "computeroutput" :: [plain_node "para"]
              ++ buffer_node "detaileddescription" ("see " +:+ "`") :: []) ∅)
    (StartElement "ref" [("refid", "classB")])
  = Some (mkDocFx
            (mkNode "ref" (list_to_map [("refid", "classB")]) None false
             :: plain_node "computeroutput" :: [plain_node "para"]
             ++ set_text (Some ("see " +:+ "[`"))
                  (buffer_node "detaileddescription" ("see " +:+ "`")) :: [])
            ∅).
Proof.
  assert (Forall (λ n, text n = None) [plain_node "para"]) as Hpre
    by (repeat constructor).
  apply (proj1 (@Ref_in_code_span insertion_order
                  (plain_node "computeroutput")
                  (buffer_node "detaileddescription" ("see " +:+ "`"))
                  [plain_node "para"] [] ∅ eq_refl eq_refl Hpre)).
  - reflexivity.
  - eexists. reflexivity.
Defined.

(** ** Regular expressions *)

Section ReFacts.
Context {R : Type}.
Implicit Types (k : @cont R) (p : ascii → bool) (s u : string).

(** A greedy repetition runs over a stretch of its class when the match
    can be completed behind it. *)
Lemma star_k_skip p k u s pos caps r :
  all_in p u →
  star_k p k (pos + String.length u) s caps = Some r →
  star_k p k pos (u +:+ s) caps = Some r.
Proof.
  revert pos. induction u as [|c u IH]; intros pos Hu Hr.
  - simpl in Hr. by rewrite Nat.add_0_r in Hr.
  - destruct Hu as [Hc Hu]. rewrite append_cons. simpl. rewrite Hc.
    rewrite (IH (S pos)); [done|done|].
    simpl in Hr. by rewrite Nat.add_succ_r in Hr.
Qed.

(** A repetition fails when the rest of the pattern fails wherever the
    repetition may stop. *)
Lemma star_k_None (P : string → Prop) p k :
  (∀ pos s caps, P s → k pos s caps = None) →
  (∀ c s, P (String c s) → p c = true → P s) →
  ∀ s pos caps, P s → star_k p k pos s caps = None.
Proof.
  intros Hk Htl. induction s as [|c s IH]; intros pos caps Hs; simpl.
  - by apply Hk.
  - destruct (p c) eqn:Hc; [|by apply Hk].
    rewrite IH by eauto. by apply Hk.
Qed.

Lemma lit_k_append l k s pos caps :
  lit_k l k pos (l +:+ s) caps = k (pos + String.length l) s caps.
Proof.
  revert pos. induction l as [|a l IH]; intros pos.
  - simpl. by rewrite Nat.add_0_r.
  - rewrite append_cons. simpl. rewrite Ascii.eqb_refl, IH.
    by rewrite Nat.add_succ_r.
Qed.
End ReFacts.

(** Once a match has taken the whole text, [re.sub] has nothing left to
    copy, provided the pattern does not match the empty rest. *)
Lemma sub_loop_skip_all r repl budget s pos :
  (∀ n, match_at r (S n) "" = None) →
  sub_loop r repl budget (String.length s) (S pos) s = "".
Proof.
  intros Hr. revert pos. induction s as [|c s IH]; intros pos; simpl.
  - rewrite Hr. by destruct budget as [[|?]|].
  - apply IH.
Qed.

Lemma sub_whole_match r repl s caps :
  (∀ n, match_at r (S n) "" = None) →
  s ≠ "" →
  match_at r 0 s = Some (String.length s, caps) →
  Re.sub r repl s = repl s caps.
Proof.
  intros Hr Hs Hm. unfold Re.sub. destruct s as [|c s]; [done|].
  simpl sub_loop. rewrite Hm. simpl String.length. cbv iota beta.
  rewrite sub_loop_skip_all by done.
  rewrite append_nil_r. f_equal. simpl. f_equal.
  rewrite <-(append_nil_r s) at 2. apply take_append.
Qed.

Lemma is_space_not_backslash c :
  Str.is_space c = true → Ascii.eqb "\"%char c = false.
Proof.
  intros Hc. destruct (Ascii.eqb_spec "\"%char c) as [<-|]; [|done].
  by vm_compute in Hc.
Qed.

Lemma is_space_not_dollar c :
  Str.is_space c = true → Ascii.eqb "$"%char c = false.
Proof.
  intros Hc. destruct (Ascii.eqb_spec "$"%char c) as [<-|]; [|done].
  by vm_compute in Hc.
Qed.

Lemma all_in_tail p c s : all_in p (String c s) → all_in p s.
Proof. by intros [_ ?]. Qed.

Section ReMoreFacts.
Context {R : Type}.
Implicit Types (k : @cont R) (p : ascii → bool) (s u : string).

Lemma star_k_stop p k c l s pos caps :
  p c = false →
  star_k p k pos (String c l +:+ s) caps = k pos (String c l +:+ s) caps.
Proof. intros Hc. rewrite append_cons. simpl. by rewrite Hc. Qed.

Lemma star_k_last p k c s pos caps :
  star_k p k (S pos) s caps = None →
  star_k p k pos (String c s) caps = k pos (String c s) caps.
Proof. intros Hs. simpl. rewrite Hs. by destruct (p c). Qed.

Lemma star_k_skip_end p k u pos caps r :
  all_in p u →
  k (pos + String.length u) "" caps = Some r →
  star_k p k pos u caps = Some r.
Proof.
  intros Hu Hr. rewrite <-(append_nil_r u). by apply star_k_skip.
Qed.
End ReMoreFacts.

(** The two patterns of [Formula.leave] on a wrapped formula. *)
Lemma display_math_match ws1 inner ws2 :
  all_in Str.is_space ws1 → all_in dot inner → all_in Str.is_space ws2 →
  Re.rmatch re_display_math (ws1 +:+ "\[" +:+ inner +:+ "\]" +:+ ws2)
  = Some (String.length (ws1 +:+ "\[" +:+ inner +:+ "\]" +:+ ws2),
          {[1 := inner]}).
Proof.
  intros Hws1 Hinner Hws2.
  unfold Re.rmatch, match_at, re_display_math, cat. cbn [foldr match_k Nat.eqb].
  apply star_k_skip; [done|].
  rewrite star_k_stop by reflexivity.
  rewrite lit_k_append.
  apply star_k_skip; [done|].
  change ("\]" +:+ ws2) with (String "\"%char (String "]"%char ws2)).
  rewrite star_k_last.
  2:{ apply (star_k_None
               (λ s, (∃ ws, s = String "]"%char ws ∧ all_in Str.is_space ws)
                     ∨ all_in Str.is_space s)).
      - intros pos s caps [(ws & -> & Hws)|Hs]; [done|].
        destruct s as [|c s]; [done|]. destruct Hs as [Hc _].
        cbn [lit_k]. by rewrite is_space_not_backslash.
      - intros c s [(ws & [= -> ->] & Hws)|[_ Hs]] _; by right.
      - left. eauto. }
  cbn [lit_k]. rewrite !Ascii.eqb_refl.
  apply star_k_skip_end; [done|]. cbn [lit_k].
  f_equal. f_equal.
  - rewrite !length_append. simpl. lia.
  - rewrite insert_empty. f_equal.
    replace (0 + String.length ws1 + String.length "\[" + String.length inner -
             (0 + String.length ws1 + String.length "\[")) with (String.length inner) by lia.
    apply take_append.
Qed.


Lemma display_math_no_match ws1 rest :
  all_in Str.is_space ws1 →
  Re.rmatch re_display_math (ws1 +:+ "$" +:+ rest) = None.
Proof.
  intros Hws1.
  unfold Re.rmatch, match_at, re_display_math, cat. cbn [foldr match_k Nat.eqb].
  apply (star_k_None
           (λ s, ∃ ws, s = ws +:+ "$" +:+ rest ∧ all_in Str.is_space ws)).
  - intros pos s caps (ws & -> & Hws). destruct ws as [|c ws]; [done|].
    destruct Hws as [Hc _]. rewrite append_cons. cbn [lit_k].
    by rewrite is_space_not_backslash.
  - intros c s (ws & Heq & Hws) Hc. destruct ws as [|c' ws].
    + injection Heq as -> _. by vm_compute in Hc.
    + rewrite append_cons in Heq. injection Heq as -> ->.
      destruct Hws. eauto.
  - eauto.
Qed.

Lemma inline_math_match ws1 inner ws2 :
  all_in Str.is_space ws1 → all_in dot inner → all_in Str.is_space ws2 →
  Re.rmatch re_inline_math (ws1 +:+ "$" +:+ inner +:+ "$" +:+ ws2)
  = Some (String.length (ws1 +:+ "$" +:+ inner +:+ "$" +:+ ws2),
          {[1 := inner]}).
Proof.
  intros Hws1 Hinner Hws2.
  unfold Re.rmatch, match_at, re_inline_math, cat. cbn [foldr match_k Nat.eqb].
  apply star_k_skip; [done|].
  rewrite star_k_stop by reflexivity.
  rewrite lit_k_append.
  apply star_k_skip; [done|].
  change ("$" +:+ ws2) with (String "$"%char ws2).
  rewrite star_k_last.
  2:{ apply (star_k_None (all_in Str.is_space)); [|by intros c s [_ ?] _|done].
      intros pos s caps Hs. destruct s as [|c s]; [done|].
      destruct Hs as [Hc _]. cbn [lit_k]. by rewrite is_space_not_dollar. }
  cbn [lit_k]. rewrite !Ascii.eqb_refl.
  apply star_k_skip_end; [done|]. cbn [lit_k].
  f_equal. f_equal.
  - rewrite !length_append. simpl. lia.
  - rewrite insert_empty. f_equal.
    replace (0 + String.length ws1 + String.length "$" + String.length inner -
             (0 + String.length ws1 + String.length "$"))
      with (String.length inner) by lia.
    apply take_append.
Qed.

Lemma formula_rewrite_display ws1 inner ws2 :
  all_in Str.is_space ws1 → all_in dot inner → all_in Str.is_space ws2 →
  formula_rewrite (ws1 +:+ "\[" +:+ inner +:+ "\]" +:+ ws2) = inner.
Proof.
  intros Hws1 Hinner Hws2. unfold formula_rewrite.
  rewrite display_math_match by done.
  rewrite (sub_whole_match _ _ _ {[1 := inner]}).
  - done.
  - done.
  - by destruct ws1.
  - by apply display_math_match.
Qed.

Lemma formula_rewrite_inline ws1 inner ws2 :
  all_in Str.is_space ws1 → all_in dot inner → all_in Str.is_space ws2 →
  formula_rewrite (ws1 +:+ "$" +:+ inner +:+ "$" +:+ ws2) = inner.
Proof.
  intros Hws1 Hinner Hws2. unfold formula_rewrite.
  rewrite display_math_no_match by done.
  rewrite inline_math_match by done.
  rewrite (sub_whole_match _ _ _ {[1 := inner]}).
  - done.
  - done.
  - by destruct ws1.
  - by apply inline_math_match.
Qed.

Lemma lit_k_None {R} l (k : @cont R) s pos caps :
  Str.startswith l s = false → lit_k l k pos s caps = None.
Proof.
  revert s pos. induction l as [|a l IH]; intros s pos Hs; [done|].
  destruct s as [|c s]; [done|]. simpl in *.
  destruct (Ascii.eqb a c); [|done]. by apply IH.
Qed.

Lemma sub_loop_skip r repl budget u s pos :
  sub_loop r repl budget (String.length u) pos (u +:+ s)
  = sub_loop r repl budget 0 (pos + String.length u) s.
Proof.
  revert pos. induction u as [|c u IH]; intros pos.
  - simpl String.length. by rewrite Nat.add_0_r.
  - rewrite append_cons. simpl. rewrite IH. by rewrite Nat.add_succ_r.
Qed.

Lemma sub_prefix_match r repl u s caps :
  u ≠ "" →
  match_at r 0 (u +:+ s) = Some (String.length u, caps) →
  Re.sub r repl (u +:+ s)
  = repl u caps +:+ sub_loop r repl None 0 (String.length u) s.
Proof.
  intros Hu Hm. unfold Re.sub. destruct u as [|c u]; [done|].
  rewrite append_cons in *. simpl sub_loop. rewrite Hm.
  simpl String.length. cbv iota beta. rewrite sub_loop_skip.
  f_equal. simpl. by rewrite take_append.
Qed.

Lemma contains_tail x c s :
  Str.contains x (String c s) = false → Str.contains x s = false.
Proof. simpl. by intros [_ ?]%orb_false_iff. Qed.

Lemma contains_startswith x s :
  Str.contains x s = false → Str.startswith x s = false.
Proof. destruct s; simpl; by intros [? _]%orb_false_iff. Qed.

Lemma qualifier_no_match s pos :
  Str.contains "::" s = false → match_at re_qualifier pos s = None.
Proof.
  intros Hs. unfold match_at, re_qualifier, cat. cbn [foldr match_k].
  apply (star_k_None (λ s, Str.contains "::" s = false)); [| |done].
  - intros pos' s' caps Hs'. apply lit_k_None. by apply contains_startswith.
  - intros c s' Hs' _. by eapply contains_tail.
Qed.

Lemma qualifier_match q n :
  all_in dot q → Str.contains "::" (":" +:+ n) = false →
  match_at re_qualifier 0 ((q +:+ "::") +:+ n)
  = Some (String.length (q +:+ "::"), ∅).
Proof.
  intros Hq Hn. rewrite append_assoc.
  unfold match_at, re_qualifier, cat. cbn [foldr match_k].
  apply star_k_skip; [done|].
  change ("::" +:+ n) with (String ":"%char (String ":"%char n)).
  rewrite star_k_last.
  2:{ apply (star_k_None (λ s, Str.contains "::" s = false)); [| |done].
      - intros pos' s' caps Hs'. apply lit_k_None.
        by apply contains_startswith.
      - intros c s' Hs' _. by eapply contains_tail. }
  cbn [lit_k]. rewrite !Ascii.eqb_refl.
  f_equal. f_equal. rewrite length_append. simpl. lia.
Qed.

Lemma unqualified_sub n pos :
  Str.contains "::" n = false →
  sub_loop re_qualifier (λ _ _, "") None 0 pos n = n.
Proof.
  revert pos. induction n as [|c n IH]; intros pos Hn.
  - cbn [sub_loop]. by rewrite qualifier_no_match.
  - cbn [sub_loop]. rewrite qualifier_no_match by done.
    rewrite IH; [done|]. by eapply contains_tail.
Qed.

(** The name behind the last [::] of a qualified name on one line. *)
Lemma simple_name_qualified q n :
  all_in dot q → Str.contains "::" (":" +:+ n) = false →
  Re.sub re_qualifier (λ _ _, "") (q +:+ "::" +:+ n) = n.
Proof.
  intros Hq Hn. rewrite <-append_assoc.
  rewrite (sub_prefix_match _ _ _ _ ∅).
  - rewrite append_nil_l. apply unqualified_sub.
    change (":" +:+ n) with (String ":"%char n) in Hn.
    by eapply contains_tail.
  - by destruct q.
  - by apply qualifier_match.
Qed.

Lemma simple_name_unqualified n :
  Str.contains "::" n = false →
  Re.sub re_qualifier (λ _ _, "") n = n.
Proof. apply unqualified_sub. Qed.

(** ** Code blocks *)

Section BlockFacts.
Context `{PySet}.

(** C8.  The start of a code block puts a node with an empty buffer on
    the stack.  At the end of a code block, whatever its buffer has
    gathered: a buffer that begins with the marker line of inferred C++
    gives a block tagged [cpp] whose body is the buffer without the
    marker line; otherwise a block whose declared language is [c++] gives
    the buffer tagged [cpp], and any other block gives the buffer tagged
    with the declared language (none if there is none).  The block is a
    newline, the fence with the language, a newline, the text, the
    closing fence and a newline; it is appended at the parent, and the
    node of the code block leaves the stack. *)
Theorem ProgramListing_leave_block (self p : Node) (rest : list Node)
    (its : Items) (t e : string) :
  tag self = "programlisting" → text self = Some t →
  (∀ h attributes,
     is_Some (create "programlisting" (list_to_map attributes)) →
     step h (StartElement "programlisting" attributes)
     = Some (mkDocFx
               (mkNode "programlisting" (list_to_map attributes) (Some "")
                  false :: stack h) (items h)))
  ∧ (∀ body, t = INFERRED_CPP +:+ body →
     step (mkDocFx (self :: p :: rest) its) (EndElement e)
     = Some (mkDocFx (add_content (p :: rest) (code_block "cpp" body)) its))
  ∧ (Str.startswith INFERRED_CPP t = false →
     getattr self "filename" = Some "c++" →
     step (mkDocFx (self :: p :: rest) its) (EndElement e)
     = Some (mkDocFx (add_content (p :: rest) (code_block "cpp" t)) its))
  ∧ (Str.startswith INFERRED_CPP t = false →
     getattr self "filename" ≠ Some "c++" →
     step (mkDocFx (self :: p :: rest) its) (EndElement e)
     = Some (mkDocFx
               (add_content (p :: rest)
                  (code_block (default "" (getattr self "filename")) t))
               its)).
Proof.
  intros Htag Ht. split.
  { intros h attributes [n Hn]. cbn [step]. unfold startElement.
    rewrite Hn. cbn [mbind option_bind].
    assert (n = mkNode "programlisting" (list_to_map attributes) None false)
      as ->.
    { unfold create in Hn. destruct (_ && _); [|done]. by injection Hn. }
    change (handler_of "programlisting") with ProgramListing.
    reflexivity. }
  cbn [step]. unfold endElement.
  cbn [stack items ancestor mbind option_bind]. rewrite Htag.
  change (handler_of "programlisting") with ProgramListing.
  cbn [leave ProgramListing]. unfold ProgramListing_leave, code_block.
  rewrite Ht. cbn [mbind option_bind]. split; [|split].
  - intros body ->. rewrite startswith_append, drop_append.
    set (self1 := set_attr "filename" "cpp" (set_text (Some body) self)).
    assert (get_filename self1 = "cpp") as Hf.
    { unfold get_filename, getattr, self1. cbn [attrs set_attr].
      by rewrite lookup_insert_eq. }
    rewrite Hf. destruct (decide ("cpp" = "c++")) as [[=]|_].
    rewrite Hf. subst self1. cbn [text set_attr set_text mbind option_bind].
    reflexivity.
  - intros -> Hf.
    assert (get_filename self = "c++") as Hf0
      by (unfold get_filename; by rewrite Hf).
    destruct (decide (get_filename self = "c++")) as [_|[]]; [|done].
    set (self1 := set_attr "filename" "cpp" self).
    assert (get_filename self1 = "cpp") as Hf1.
    { unfold get_filename, getattr, self1. cbn [attrs set_attr].
      by rewrite lookup_insert_eq. }
    rewrite Hf1. subst self1. cbn [text set_attr]. rewrite Ht.
    cbn [mbind option_bind]. reflexivity.
  - intros -> Hf.
    destruct (decide (get_filename self = "c++")) as [Heq|_].
    { unfold get_filename in Heq.
      destruct (getattr self "filename") as [f|]; simpl in Heq; by subst. }
    rewrite Ht. cbn [mbind option_bind]. reflexivity.
Qed.
End BlockFacts.

Lemma ProgramListing_leave_block_witness :
  @step insertion_order
    (mkDocFx
       (buffer_node "programlisting" (INFERRED_CPP +:+ "int x;")
        :: buffer_node "detaileddescription" "a" :: []) ∅)
    (EndElement "programlisting")
  = Some (mkDocFx
            (add_content (buffer_node "detaileddescription" "a" :: [])
               (code_block "cpp" "int x;")) ∅).
Proof.
  apply (proj1 (proj2 (@ProgramListing_leave_block insertion_order
                  (buffer_node "programlisting" (INFERRED_CPP +:+ "int x;"))
                  (buffer_node "detaileddescription" "a") [] ∅
                  (INFERRED_CPP +:+ "int x;") "programlisting"
                  eq_refl eq_refl))).
  reflexivity.
Defined.

(** ** Formulas *)

(** C9.  A display formula that runs over several lines keeps its
    wrapper: the pattern of the display wrapper lets white space, and so
    newlines, stand before and behind the wrapper but no newline between
    its two brackets, so that neither pattern matches and the block holds
    the text as it came.  The same formula on one line is stripped to its
    content. *)
Lemma Formula_multiline_wrapper_kept :
  @buffer_after insertion_order (formula_events multiline_formula)
  = Some ("see " +:+ math_block multiline_formula)
  ∧ formula_rewrite multiline_formula = multiline_formula
  ∧ @buffer_after insertion_order (formula_events "\[x^2\]")
    = Some ("see " +:+ math_block "x^2").
Proof. split; [|split]; vm_compute; reflexivity. Qed.

(** ** The item mapping *)

Section ItemFacts.
Context `{PySet}.

Lemma sorted_set_ok l : sorted_nodup (sorted_set l).
Proof.
  split; [apply sorted_by_Sorted|].
  apply sorted_by_NoDup, set_iter_NoDup.
Qed.

Lemma sorted_set_elem_of l x : x ∈ sorted_set l ↔ x ∈ l.
Proof. unfold sorted_set. by rewrite sorted_by_elem_of, set_iter_elem_of. Qed.

Lemma items_ok_empty : items_ok ∅.
Proof. intros k it. by rewrite dict_lookup_empty. Qed.

Lemma items_ok_insert items k it :
  items_ok items → item_ok it → items_ok (<[k := it]> items).
Proof.
  intros Hok Hit k' it'. rewrite dict_lookup_insert.
  destruct (decide (k = k')); [by intros [= <-]|apply Hok].
Qed.

Lemma items_ok_upd items items' k f :
  items_ok items → (∀ it, item_ok it → item_ok (f it)) →
  upd k f items = Some items' → items_ok items'.
Proof.
  unfold upd. intros Hok Hf Hupd.
  destruct (items !! k) as [it|] eqn:Hk; simplify_eq/=.
  apply items_ok_insert; eauto.
Qed.

Lemma item_ok_new i p ty : item_ok (new_item i p ty).
Proof. by split. Qed.

Ltac inv_result :=
  repeat match goal with
    | H : _ ≫= _ = Some _ |- _ => apply bind_Some in H as (? & ? & H)
    | H : Some _ = Some _ |- _ =>
        first [injection H as <- <-|injection H as <-|injection H as ->]
    | H : None = Some _ |- _ => discriminate H
    | H : (if ?b then _ else _) = Some _ |- _ => destruct b eqn:?
    | H : match ?x with _ => _ end = Some _ |- _ => destruct x eqn:?
    end.

Lemma item_ok_set_inheritedMembers it l :
  item_ok it → item_ok (set_inheritedMembers (Some (sorted_set l)) it).
Proof.
  intros [Hd Hi]. split; [done|]. intros l' [= <-]. apply sorted_set_ok.
Qed.

Lemma item_ok_set_derivedClasses it l :
  item_ok it → item_ok (set_derivedClasses (Some (sorted_set l)) it).
Proof.
  intros [Hd Hi]. split; [|done]. intros l' [= <-]. apply sorted_set_ok.
Qed.

Ltac item_ok_tac :=
  match goal with
  | |- item_ok (new_item _ _ _) => apply item_ok_new
  | |- item_ok (set_inheritedMembers (Some (sorted_set _)) _) =>
      apply item_ok_set_inheritedMembers; item_ok_tac
  | |- item_ok (set_derivedClasses (Some (sorted_set _)) _) =>
      apply item_ok_set_derivedClasses; item_ok_tac
  | Hok : items_ok ?i, Hk : ?i !! _ = Some ?it |- item_ok ?it =>
      exact (Hok _ _ Hk)
  | Hok : items_ok ?i, Hk : ?i !! _ = Some ?it |- item_ok _ =>
      let H1 := fresh in let H2 := fresh in
      destruct (Hok _ _ Hk) as [H1 H2]; split; assumption
  | |- item_ok (match ?x with _ => _ end) => destruct x; item_ok_tac
  | |- item_ok _ => by split
  end.

Ltac items_ok_tac :=
  match goal with
  | |- items_ok _ => assumption
  | |- items_ok (<[_ := _]> _) =>
      apply items_ok_insert; [items_ok_tac|item_ok_tac]
  | Hu : upd _ _ ?i = Some ?i' |- items_ok ?i' =>
      apply (λ H1 H2, items_ok_upd i i' _ _ H1 H2 Hu);
      [items_ok_tac|intros ? [? ?]; split; assumption]
  end.

Ltac handler_tac :=
  intros;
  match goal with Hr : _ = Some (_, _) |- _ => simpl in Hr end;
  unfold TagHandler_enter, TagHandler_leave, TagHandler_characters,
    Name_characters, Definition_characters, ListItem_enter,
    Para_characters, CompoundDef_enter, CompountName_characters,
    BaseCompoundRef_enter, DerivedCompoundRef_enter, MemberDef_enter,
    ComputerOutput_enter, ComputerOutput_leave, own_buffer_enter,
    ProgramListing_leave, Sp_enter, BriefDescription_leave,
    DetailedDescription_leave, Ref_enter, Ref_leave, Location_enter,
    Formula_leave, ReimplementedBy_enter in *;
  inv_result; items_ok_tac.

Lemma handler_of_ok t :
  (∀ stack items stack' items',
     items_ok items →
     enter (handler_of t) stack items = Some (stack', items') →
     items_ok items')
  ∧ (∀ stack items stack' items',
       items_ok items →
       leave (handler_of t) stack items = Some (stack', items') →
       items_ok items')
  ∧ (∀ content stack items stack' items',
       items_ok items →
       characters (handler_of t) content stack items = Some (stack', items') →
       items_ok items').
Proof.
  unfold handler_of, handlers. cbn [assoc].
  repeat case_decide; cbn [default];
    (split; [|split]); handler_tac.
Qed.

Lemma step_ok h e h' :
  items_ok (items h) → step h e = Some h' → items_ok (items h').
Proof.
  intros Hok Hstep. destruct e as [t attributes|t|content];
    unfold step, startElement, endElement, characters_event, lift in Hstep;
    inv_result.
  - destruct x0. inv_result. simpl.
    by eapply (proj1 (handler_of_ok t)).
  - simpl. by eapply (proj1 (proj2 (handler_of_ok _))).
  - destruct x0. inv_result. simpl.
    by eapply (proj2 (proj2 (handler_of_ok _))).
Qed.

Lemma run_ok es h h' :
  items_ok (items h) → run h es = Some h' → items_ok (items h').
Proof.
  revert h. induction es as [|e es IH]; intros h Hok Hrun; simpl in Hrun.
  - by injection Hrun as <-.
  - apply bind_Some in Hrun as (h1 & Hstep & Hrun).
    eapply IH; [|done]. by eapply step_ok.
Qed.

(** C4.  At every point of a run of Stage A, that is after any
    sequence of events, the [derivedClasses] and the [inheritedMembers]
    of every item are sorted by the key [id_sorting] and list no uid
    twice. *)
Theorem derived_and_inherited_sorted (es : list Event) (h : DocFxHandler) :
  run init es = Some h →
  ∀ k it, items h !! k = Some it →
    (∀ l, derivedClasses it = Some l →
       Sorted (key_le id_sorting) l ∧ NoDup l)
    ∧ (∀ l, inheritedMembers it = Some l →
         Sorted (key_le id_sorting) l ∧ NoDup l).
Proof.
  intros Hrun k it Hk.
  exact (run_ok es init h items_ok_empty Hrun k it Hk).
Qed.

(** C10.  A name event in a list of all members, for the compound
    [parent_id] and the member [member_id]: the event leaves the stack
    and every other item alone; when the compound is not in the item
    mapping, or the member is among its [children], nothing changes at
    all; otherwise the [inheritedMembers] of the compound become the
    old ones and the member, sorted and without duplicates.  So a uid
    that the event adds is not one of the [children] of the compound. *)
Theorem Name_characters_inherited (content : string) (stack : list Node)
    (items : Items) (a3 p : Node) (parent_id member_id : string) :
  has_tag (ancestor stack 2) "listofallmembers" = true →
  ancestor stack 3 = Some a3 → getattr a3 "id" = Some parent_id →
  ancestor stack 1 = Some p → getattr p "refid" = Some member_id →
  ∃ items',
    Name_characters content stack items = Some (stack, items')
    ∧ (∀ k, k ≠ parent_id → items' !! k = items !! k)
    ∧ match items !! parent_id with
      | None => items' = items
      | Some it =>
          if decide (member_id ∈ default [] (children it)) then
            items' = items
          else
            ∃ l, items' !! parent_id
                 = Some (set_inheritedMembers (Some l) it)
                 ∧ (∀ x, x ∈ l
                         ↔ x ∈ default [] (inheritedMembers it)
                           ∨ x = member_id)
                 ∧ Sorted (key_le id_sorting) l ∧ NoDup l
      end
    ∧ (∀ it it' x,
         items !! parent_id = Some it → items' !! parent_id = Some it' →
         x ∈ default [] (inheritedMembers it') →
         x ∉ default [] (inheritedMembers it) →
         x = member_id ∧ x ∉ default [] (children it)).
Proof.
  intros Htag Ha3 Hpid Hp Hmid. unfold Name_characters.
  rewrite Htag, Ha3. cbn [mbind option_bind]. rewrite Hpid.
  cbn [mbind option_bind]. rewrite Hp. cbn [mbind option_bind].
  rewrite Hmid. cbn [mbind option_bind].
  destruct (items !! parent_id) as [it|] eqn:Hit.
  2:{ eexists. split; [done|]. split; [done|]. split; [done|].
      intros ? ? ? [=]. }
  destruct (decide (member_id ∈ default [] (children it))) as [Hin|Hnin].
  - assert (match children it with
            | Some ch => bool_decide (member_id ∉ ch)
            | None => true
            end = false) as ->.
    { destruct (children it) as [ch|]; simpl in Hin.
      - by apply bool_decide_eq_false_2; intros [].
      - by apply elem_of_nil in Hin. }
    eexists. split; [done|]. split; [done|]. split; [done|].
    intros it1 it2 x [= <-]. rewrite Hit. by intros [= <-].
  - assert (match children it with
            | Some ch => bool_decide (member_id ∉ ch)
            | None => true
            end = true) as ->.
    { destruct (children it) as [ch|]; simpl in Hnin; [|done].
      by apply bool_decide_eq_true_2. }
    eexists. split; [done|]. split; [|split].
    + intros k Hk. by rewrite dict_lookup_insert_ne.
    + eexists. split; [apply dict_lookup_insert_eq|]. split.
      * intros x. rewrite sorted_set_elem_of, elem_of_app, list_elem_of_singleton.
        done.
      * apply sorted_set_ok.
    + intros it1 it2 x [= <-]. rewrite dict_lookup_insert_eq.
      intros [= <-]. cbn [inheritedMembers set_inheritedMembers default].
      unfold id.
      rewrite sorted_set_elem_of, elem_of_app, list_elem_of_singleton.
      intros [Hx|Hx] Hx'; [done|]. by subst x.
Qed.

(** C7, amended.  A name event under an ancestor that exposes an
    identifier, outside a list of all members, for the item [item_id] of
    the mapping and its enclosing compound [parent_id]: the item gets
    the name and the qualified name, and when its type is [function] it
    becomes [constructor] if the name is the simple name of the
    compound and [method] if not; an item of another type keeps its
    type.  The simple name of a name qualified on one line is what
    follows the last [::]. *)
Theorem Name_characters_reclassifies (content : string) (stack : list Node)
    (items : Items) (a3 p : Node) (parent_id item_id : string)
    (it pit : Item) (parent_fullName parent_name : string) :
  has_tag (ancestor stack 2) "listofallmembers" = false →
  ancestor stack 3 = Some a3 → getattr a3 "id" = Some parent_id →
  ancestor stack 1 = Some p → getattr p "id" = Some item_id →
  item_id ≠ parent_id →
  items !! parent_id = Some pit →
  fullName pit = Some parent_fullName → name pit = Some parent_name →
  items !! item_id = Some it →
  (∃ items' it',
     Name_characters content stack items = Some (stack, items')
     ∧ items' !! item_id = Some it'
     ∧ name it' = Some content
     ∧ fullName it' = Some (parent_fullName +:+ "::" +:+ content)
     ∧ type it'
       = if decide (type it = "function") then
           if decide (content = simple_name parent_name)
           then "constructor" else "method"
         else type it)
  ∧ (∀ q n, all_in dot q → Str.contains "::" (":" +:+ n) = false →
       simple_name (q +:+ "::" +:+ n) = n)
  ∧ (∀ n, Str.contains "::" n = false → simple_name n = n).
Proof.
  intros Htag Ha3 Hpid Hp Hiid Hne Hpit Hpfn Hpn Hit.
  split; [|split; [apply simple_name_qualified|apply simple_name_unqualified]].
  unfold Name_characters, upd.
  assert (hasattr (ancestor stack 3) "id" = true) as Hhas.
  { rewrite Ha3. simpl. apply bool_decide_eq_true_2.
    unfold getattr in Hpid. by rewrite Hpid. }
  rewrite Htag, Hhas, Ha3. cbn [mbind option_bind]. rewrite Hpid.
  cbn [mbind option_bind]. rewrite Hp. cbn [mbind option_bind].
  rewrite Hiid. cbn [mbind option_bind]. rewrite Hpit.
  cbn [mbind option_bind].
  rewrite !dict_lookup_insert_ne by done. rewrite Hit.
  rewrite bool_decide_eq_true_2 by done. cbn [mbind option_bind].
  repeat (rewrite ?dict_lookup_insert_eq, ?dict_lookup_insert_ne by done;
          cbn [mbind option_bind fullName name set_children set_name
                 set_fullName type]).
  rewrite Hpfn. cbn [mbind option_bind].
  repeat (rewrite ?dict_lookup_insert_eq, ?dict_lookup_insert_ne by done;
          cbn [mbind option_bind fullName name set_children set_name
                 set_fullName type]).
  destruct (decide (type it = "function")) as [Hty|Hty].
  - repeat (rewrite ?dict_lookup_insert_eq, ?dict_lookup_insert_ne by done;
            cbn [mbind option_bind fullName name set_children set_name
                   set_fullName type]).
    rewrite Hpn. cbn [mbind option_bind].
    repeat (rewrite ?dict_lookup_insert_eq, ?dict_lookup_insert_ne by done;
            cbn [mbind option_bind]).
    eexists _, _. split; [done|]. rewrite dict_lookup_insert_eq.
    split; [done|]. split; [done|]. split; [done|].
    cbn [type set_type]. unfold simple_name.
    by destruct (decide (content = _)).
  - eexists _, _. split; [done|]. rewrite dict_lookup_insert_eq.
    split; [done|]. split; [done|]. split; [done|]. done.
Qed.
End ItemFacts.

Lemma derived_and_inherited_sorted_witness :
  derivedClasses derived_twice_item = Some ["structB"; "classZ"]
  ∧ Sorted (key_le id_sorting) ["structB"; "classZ"]
  ∧ NoDup ["structB"; "classZ"].
Proof.
  split; [reflexivity|].
  apply (proj1 (@derived_and_inherited_sorted insertion_order derived_twice
                  derived_twice_handler ltac:(vm_compute; reflexivity)
                  "classA" derived_twice_item
                  ltac:(vm_compute; reflexivity))).
  reflexivity.
Defined.

Lemma Name_characters_inherited_witness :
  ∃ items',
    @Name_characters insertion_order "f" member_stack class_items
    = Some (member_stack, items')
    ∧ (λ it, inheritedMembers it) <$> items' !! "classA" = Some (Some ["m1"]).
Proof.
  destruct (@Name_characters_inherited insertion_order "f" member_stack
              class_items
              (mkNode "compounddef" {["id" := "classA"]} None false)
              (mkNode "member" {["refid" := "m1"]} None false)
              "classA" "m1")
    as (items' & Hrun & _); try reflexivity.
  exists items'. split; [exact Hrun|].
  vm_compute in Hrun. injection Hrun as <-. reflexivity.
Defined.

Lemma Name_characters_reclassifies_witness :
  ∃ items' it',
    @Name_characters insertion_order "A" memberdef_stack class_items
    = Some (memberdef_stack, items')
    ∧ items' !! "f1" = Some it'
    ∧ name it' = Some "A"
    ∧ fullName it' = Some ("ns::A" +:+ "::" +:+ "A")
    ∧ type it'
      = if decide (type (new_item "f1" (Some "classA") "function")
                   = "function") then
          if decide ("A" = simple_name "ns::A")
          then "constructor" else "method"
        else type (new_item "f1" (Some "classA") "function").
Proof.
  apply (@Name_characters_reclassifies insertion_order "A" memberdef_stack
           class_items
           (mkNode "compounddef" {["id" := "classA"]} None false)
           (mkNode "memberdef" {["id" := "f1"]} None false)
           "classA" "f1" (new_item "f1" (Some "classA") "function")
           (set_fullName (Some "ns::A")
              (set_name (Some "ns::A") (new_item "classA" None "class")))
           "ns::A" "ns::A"); try reflexivity.
  discriminate.
Defined.


(** C7, as stated, fails: a member whose kind is [enum], which is not an
    excluded kind, keeps the type [enum] at its name event; it becomes
    neither a constructor nor a method. *)
Lemma enum_member_not_reclassified :
  ("enum" ∉ excluded_kinds)
  ∧ @type_after insertion_order enum_member "e1" = Some "enum"
  ∧ @type_after insertion_order enum_member "e1" ≠ Some "constructor"
  ∧ @type_after insertion_order enum_member "e1" ≠ Some "method".
Proof.
  split; [compute_done|].
  split; [by vm_compute|]. split; by vm_compute.
Qed.

(** ** Stage B *)

Section StageBFacts.
Context `{PySet}.
Implicit Types (xrefmap : gmap string GlobalReference).

Lemma rewrite_item_spec xrefmap item referenced :
  ∃ item' added,
    rewrite_item xrefmap item referenced = (item', referenced ++ added)
    ∧ pruned xrefmap item item'
    ∧ ∀ u, u ∈ added ↔ marks xrefmap item u.
Proof.
  set (keep := filter (λ c, is_Some (xrefmap !! c)) : list string → list string).
  exists (set_inheritedMembers (keep <$> inheritedMembers item)
            (set_children (keep <$> children item)
               (set_parent
                  (p ← parent item;
                   if bool_decide (is_Some (xrefmap !! p))
                   then Some p else None) item))).
  exists (match parent item with
          | Some p =>
              if bool_decide (is_Some (xrefmap !! p)) then [p] else []
          | None => []
          end ++ default [] (keep <$> children item)
            ++ default [] (keep <$> inheritedMembers item)).
  split; [|split].
  - unfold rewrite_item. fold keep.
    destruct item as [u i p ty su la na fn ch im dc inh ov sy br de so].
    simpl.
    destruct p as [p|]; destruct ch as [ch|]; destruct im as [im|]; simpl;
      repeat case_bool_decide; simpl;
      by rewrite ?app_nil_r, <-?(assoc_L (++)).
  - done.
  - intros u. unfold marks, keep.
    rewrite !elem_of_app.
    destruct (parent item) as [p|]; [case_bool_decide|];
      destruct (children item) as [ch|];
      destruct (inheritedMembers item) as [im|]; simpl;
      rewrite ?list_elem_of_filter, ?list_elem_of_singleton, ?elem_of_nil;
      intuition (simplify_eq; auto).
Qed.

Lemma rewrite_items_spec xrefmap l referenced :
  ∃ l' added,
    rewrite_items xrefmap l referenced = (l', referenced ++ added)
    ∧ Forall2 (pruned xrefmap) l l'
    ∧ ∀ u, u ∈ added ↔ ∃ item, item ∈ l ∧ marks xrefmap item u.
Proof.
  revert referenced. induction l as [|item l IH]; intros referenced.
  - exists [], []. split; [by rewrite app_nil_r|]. split; [constructor|].
    intros u. rewrite elem_of_nil. split; [done|].
    by intros (item & ?%elem_of_nil & _).
  - destruct (rewrite_item_spec xrefmap item referenced)
      as (item' & added1 & Hitem & Hpruned & Hadded1).
    destruct (IH (referenced ++ added1))
      as (l' & added2 & Hl & Hl' & Hadded2).
    exists (item' :: l'), (added1 ++ added2). split; [|split].
    + simpl. rewrite Hitem, Hl. by rewrite (assoc_L (++)).
    + by constructor.
    + intros u. rewrite elem_of_app, Hadded1, Hadded2. split.
      * intros [?|(i & ? & ?)]; [exists item|exists i];
          (split; [|done]); rewrite elem_of_cons; auto.
      * intros (i & [->|?]%elem_of_cons & ?); [by left|right; eauto].
Qed.

Lemma pruned_inheritance xrefmap item item' :
  pruned xrefmap item item' → inheritance item' = inheritance item.
Proof. intros (_ & _ & _ & ->). done. Qed.

Lemma rewrite_content_inheritance xrefmap content content' :
  rewrite_content xrefmap content = Some content' →
  inheritance <$> content_items content'
  = inheritance <$> content_items content.
Proof.
  unfold rewrite_content.
  destruct (rewrite_items_spec xrefmap (content_items content) [])
    as (l & added & -> & Hpruned & _).
  intros Hc. apply bind_Some in Hc as (refs & _ & [= <-]). simpl.
  induction Hpruned as [|item item' l0 l0' Hp _ IH]; [done|].
  simpl. f_equal; [|done]. by eapply pruned_inheritance.
Qed.

Lemma rewrite_inheritance xrefmap paths fs fs' :
  rewrite xrefmap fs paths = Some fs' →
  ∀ path content', fs' !! path = Some content' →
    ∃ content, fs !! path = Some content
               ∧ inheritance <$> content_items content'
                 = inheritance <$> content_items content.
Proof.
  revert fs. induction paths as [|p paths IH]; intros fs Hrw path c' Hc'.
  - injection Hrw as <-. eauto.
  - simpl in Hrw. destruct (is_toc p); [by eapply IH|].
    apply bind_Some in Hrw as (c0 & Hc0 & Hrw).
    apply bind_Some in Hrw as (c1 & Hc1 & Hrw).
    destruct (IH _ Hrw path c' Hc') as (c & Hc & Heq).
    destruct (decide (p = path)) as [->|Hne].
    + rewrite lookup_insert_eq in Hc. injection Hc as <-.
      exists c0. split; [done|]. rewrite Heq.
      by eapply rewrite_content_inheritance.
    + rewrite lookup_insert_ne in Hc by done. eauto.
Qed.

(** C3.  Stage B leaves the [inheritance] of every item of every
    record as it found it: whatever file is there after the run was
    there before, with the same [inheritance] lists, item by item, also
    where a list names a uid that is not in the reference map. *)
Theorem generate_xrefmap_keeps_inheritance (fs fs' : Files)
    (paths : list string) (xreflist : list GlobalReference) :
  generate_xrefmap fs paths = Some (fs', xreflist) →
  ∀ path content', fs' !! path = Some content' →
    ∃ content, fs !! path = Some content
               ∧ inheritance <$> content_items content'
                 = inheritance <$> content_items content.
Proof.
  unfold generate_xrefmap. intros Hg.
  apply bind_Some in Hg as ([l m] & _ & Hg).
  apply bind_Some in Hg as (fs1 & Hrw & [= <- _]).
  intros path content' Hc'.
  destruct (rewrite_inheritance _ _ _ _ Hrw path content' Hc')
    as (content & Hc & Heq).
  apply lookup_delete_Some in Hc as [_ Hc]. eauto.
Qed.
End StageBFacts.

Lemma generate_xrefmap_keeps_inheritance_witness :
  ∃ content,
    corpus !! "a.yml" = Some content
    ∧ inheritance <$> content_items class_after
      = inheritance <$> content_items content.
Proof.
  apply (@generate_xrefmap_keeps_inheritance insertion_order corpus
           corpus_after corpus_paths corpus_refs);
    vm_compute; reflexivity.
Defined.

(** The corpus after both passes: the class keeps the child that is in
    the corpus and loses the other one and its parent, its [inheritance]
    still names the base class, its references name the method alone, and
    the reference map has the two entries. *)
Example corpus_end_to_end :
  children <$> content_items class_after = [Some ["m1"]]
  ∧ parent <$> content_items class_after = [@None string]
  ∧ inheritance <$> content_items class_after = [Some ["classBase"]]
  ∧ (λ l : list GlobalReference, ref_uid <$> l) <$> references class_after
    = Some ["m1"]
  ∧ ref_uid <$> corpus_refs = ["classA"; "m1"].
Proof. by vm_compute. Qed.

(** ** Path translation *)

Lemma rev_append s t : Str.rev (s +:+ t) = Str.rev t +:+ Str.rev s.
Proof.
  induction s as [|c s IH].
  - by rewrite append_nil_l, append_nil_r.
  - rewrite append_cons. simpl. by rewrite IH, append_assoc.
Qed.

Lemma lstrip_by_stop p u c v :
  p c = false →
  Str.lstrip_by p (u +:+ String c v) = Str.lstrip_by p u +:+ String c v.
Proof.
  intros Hc. induction u as [|a u IH].
  - rewrite !append_nil_l. simpl. by rewrite Hc.
  - rewrite append_cons. simpl. destruct (p a); [done|].
    by rewrite append_cons.
Qed.

(** Stripping dashes keeps a prefix that starts and ends with other
    characters. *)
Lemma strip_dash_api s : ∃ s', Str.strip_dash ("api/" +:+ s) = "api/" +:+ s'.
Proof.
  unfold Str.strip_dash, Str.strip_by.
  change (Str.lstrip_by (Ascii.eqb "-"%char) ("api/" +:+ s)) with ("api/" +:+ s).
  rewrite rev_append.
  change (Str.rev "api/") with ("/ipa").
  rewrite (lstrip_by_stop _ _ "/"%char "ipa") by done.
  rewrite rev_append. eauto.
Qed.

(** [re.sub] copies the characters at which the pattern does not
    match. *)
Lemma sub_loop_copy r repl c s pos :
  match_at r pos (String c s) = None →
  sub_loop r repl None 0 pos (String c s)
  = String c (sub_loop r repl None 0 (S pos) s).
Proof. intros Hm. cbn [sub_loop]. by rewrite Hm. Qed.

Lemma sub_api r repl s :
  starts_no_match r →
  ∃ s', Re.sub r repl ("api/" +:+ s) = "api/" +:+ s'.
Proof.
  intros Hr. unfold Re.sub.
  change ("api/" +:+ s)
    with (String "a" (String "p" (String "i" (String "/" s)))).
  rewrite !sub_loop_copy by (apply Hr; set_solver). eauto.
Qed.

Ltac starts_no_match_tac :=
  let c := fresh "c" in let Hc := fresh "Hc" in
  intros c ? ? Hc;
  repeat (apply elem_of_cons in Hc as [->|Hc]; [reflexivity|]);
  by apply elem_of_nil in Hc.

Lemma translate_path_api s :
  ∃ s', translate_path ("api/" +:+ s) = "api/api/" +:+ s'.
Proof.
  unfold translate_path, camel2dashed.
  destruct (sub_api re_doxygen_xml (λ _ g, Re.group g 2 +:+ ".yml") s)
    as [s1 ->]; [starts_no_match_tac|].
  destruct (sub_api (Lit "1_1") (λ _ _, "") s1) as [s2 ->];
    [starts_no_match_tac|].
  change (Re.rmatch re_project ("api/" +:+ s2)) with (@None (nat * groups)).
  cbv iota.
  destruct (sub_api re_upper_run (λ m _, "-" +:+ Str.lower m) s2) as [s3 ->];
    [starts_no_match_tac|].
  destruct (sub_api (Lit "_-") (λ _ _, "_") s3) as [s4 ->];
    [starts_no_match_tac|].
  destruct (strip_dash_api s4) as [s5 ->].
  destruct (sub_api (Lit "_") (λ _ _, "/") s5) as [s6 ->];
    [starts_no_match_tac|].
  by exists s6.
Qed.

(** C6, as stated, fails: the translation is not idempotent.  The path of
    the class [Foo] translates to [api/foo.yml], and that path translates
    to [api/api/foo.yml]. *)
Lemma translate_path_twice :
  translate_path "doxygen/xml/classFoo.xml" = "api/foo.yml"
  ∧ translate_path (translate_path "doxygen/xml/classFoo.xml")
    = "api/api/foo.yml"
  ∧ translate_path (translate_path "doxygen/xml/classFoo.xml")
    ≠ translate_path "doxygen/xml/classFoo.xml".
Proof. split; [|split]; by vm_compute. Qed.

Section ConvertFacts.
Context `{PySet}.

(** C6, amended.  The translation is a function of the path alone and
    its result starts with the root [api/]; it is not idempotent, for
    translating a result puts the root in front once more.  Outside the
    branch of the namespace matcher, [convert] writes no file but the
    one named by the translation of the path, and it writes none when
    that name is one of the two suppressed paths. *)
Theorem translate_path_adds_root :
  (∀ path, ∃ s, translate_path path = "api/" +:+ s)
  ∧ (∀ path, ∃ s, translate_path (translate_path path) = "api/api/" +:+ s)
  ∧ (∀ path events files,
       Re.search (Lit "/namespacematcher") path = None →
       convert path events = Some files →
       ∀ f, f ∈ files → f.1 = translate_path path ∧ f.1 ∉ suppressed)
  ∧ (∀ path events,
       Re.search (Lit "/namespacematcher") path = None →
       translate_path path ∈ suppressed →
       convert path events = (run init events ≫= λ _, Some [])).
Proof.
  split; [|split; [|split]].
  - intros path. unfold translate_path. eauto.
  - intros path. unfold translate_path at 2. apply translate_path_api.
  - intros path events files Hnm. unfold convert. rewrite Hnm.
    intros Hc. apply bind_Some in Hc as (h & _ & Hc).
    destruct (Re.search (Lit "/namespace") path).
    { injection Hc as <-. by intros f ?%elem_of_nil. }
    case_bool_decide as Hs.
    { injection Hc as <-. by intros f ?%elem_of_nil. }
    injection Hc as <-. by intros f ->%list_elem_of_singleton.
  - intros path events Hnm Hs. unfold convert. rewrite Hnm.
    destruct (run init events); [|done]. simpl.
    destruct (Re.search (Lit "/namespace") path); [done|].
    by rewrite bool_decide_eq_true_2.
Qed.
End ConvertFacts.

(** The branch of the namespace matcher names its files after the
    namespace and the function and does not look at the suppressed paths:
    this is why the statement above leaves that branch out. *)
Example matcher_branch_file_names :
  fst <$> default [] (@convert insertion_order matcher_path matcher_events)
  = ["api/std/optional.yml"].
Proof. by vm_compute. Qed.

Lemma translate_path_adds_root_witness :
  @convert insertion_order "doxygen/xml/structstd_1_1optional.xml" []
  = Some [].
Proof.
  apply (proj2 (proj2 (proj2 (@translate_path_adds_root insertion_order)))
           "doxygen/xml/structstd_1_1optional.xml" []).
  - by vm_compute.
  - compute_done.
Defined.

(** * Further properties *)

(** ** The node chain *)

(** X1.  What is appended to a chain is read back behind the text that
    [get_content] found before, and a chain without a buffer still has
    none; two appends are one append of the two texts; and an append
    changes neither the length of the chain nor the tag, the attributes or
    the flag of a node. *)
Theorem add_content_get_content (chain : list Node) (a b : string) :
  get_content (add_content chain a) = (λ t, t +:+ a) <$> get_content chain
  ∧ add_content (add_content chain a) b = add_content chain (a +:+ b)
  ∧ (λ n, (tag n, attrs n, is_closed n)) <$> add_content chain a
    = (λ n, (tag n, attrs n, is_closed n)) <$> chain.
Proof.
  split; [|split].
  - induction chain as [|n chain IH]; [done|]. simpl.
    destruct (text n) as [t|] eqn:Ht; simpl; [done|]. by rewrite Ht.
  - induction chain as [|n chain IH]; [done|]. simpl.
    destruct (text n) as [t|] eqn:Ht; simpl.
    + by rewrite append_assoc.
    + by rewrite Ht, IH.
  - induction chain as [|n chain IH]; [done|]. simpl.
    destruct (text n) as [t|] eqn:Ht; [done|].
    rewrite !fmap_cons. by rewrite IH.
Qed.

(** ** The stack of [DocFxHandler] *)

Section StackFacts.
Context `{PySet}.

Lemma same_owners_refl st : same_owners st st.
Proof. apply Forall2_same_length_lookup_2; [done|]. intros; by simplify_eq. Qed.

Lemma same_owners_add_content st c : same_owners st (add_content st c).
Proof.
  induction st as [|n st IH]; [constructor|]. simpl.
  destruct (text n) as [t|] eqn:Ht.
  - constructor; [|apply same_owners_refl]. simpl. rewrite Ht.
    split; [done|]. split; eauto.
  - by constructor.
Qed.

Lemma same_owners_insert_bracket st : same_owners st (insert_bracket st).
Proof.
  induction st as [|n st IH]; [constructor|]. simpl.
  destruct (text n) as [t|] eqn:Ht.
  - constructor; [|apply same_owners_refl]. simpl. rewrite Ht.
    split; [done|]. split; eauto.
  - by constructor.
Qed.

Lemma same_owners_close_parent st : same_owners st (close_parent st).
Proof.
  destruct st as [|n [|p st]]; try apply same_owners_refl.
  simpl. constructor; [done|]. constructor; [done|]. apply same_owners_refl.
Qed.

Lemma same_owners_trans st1 st2 st3 :
  same_owners st1 st2 → same_owners st2 st3 → same_owners st1 st3.
Proof.
  intros H1. revert st3. induction H1 as [|n1 n2 st1 st2 [? ?] _ IH];
    intros st3 H2; inversion H2 as [|? n3 ? st3' [? ?]]; subst; [constructor|].
  constructor; [|by apply IH]. split; [congruence|]. etrans; done.
Qed.

Lemma same_owners_tags st st' : same_owners st st' → tag <$> st = tag <$> st'.
Proof.
  induction 1 as [|n n' st st' [Hn _] _ IH]; [done|].
  rewrite !fmap_cons. by rewrite Hn, IH.
Qed.

Lemma buffers_ok_same_owners st st' :
  same_owners st st' → buffers_ok st → buffers_ok st'.
Proof.
  induction 1 as [|n n' st st' [Htag Htext] _ IH]; [done|].
  intros [Hn Hst]%Forall_cons. constructor; [|by apply IH].
  rewrite <-Htext, <-Htag. done.
Qed.

Ltac inv_result :=
  repeat match goal with
    | H : _ ≫= _ = Some _ |- _ => apply bind_Some in H as (? & ? & H)
    | H : Some _ = Some _ |- _ =>
        first [injection H as <- <-|injection H as <-|injection H as ->]
    | H : None = Some _ |- _ => discriminate H
    | H : (if ?b then _ else _) = Some _ |- _ => destruct b eqn:?
    | H : match ?x with _ => _ end = Some _ |- _ => destruct x eqn:?
    end.

Ltac unfold_handlers :=
  unfold TagHandler_enter, TagHandler_leave, TagHandler_characters,
    Name_characters, Definition_characters, ListItem_enter,
    Para_characters, CompoundDef_enter, CompountName_characters,
    BaseCompoundRef_enter, DerivedCompoundRef_enter, MemberDef_enter,
    ComputerOutput_enter, ComputerOutput_leave, own_buffer_enter,
    ProgramListing_leave, Sp_enter, BriefDescription_leave,
    DetailedDescription_leave, Ref_enter, Ref_leave, Location_enter,
    Formula_leave, ReimplementedBy_enter in *.

Lemma same_owners_cons n n' st st' :
  tag n = tag n' → (is_Some (text n) ↔ is_Some (text n')) →
  same_owners st st' → same_owners (n :: st) (n' :: st').
Proof. by constructor. Qed.

Ltac so :=
  lazymatch goal with
  | |- same_owners ?s ?s => apply same_owners_refl
  | |- same_owners _ (add_content _ _) =>
      eapply same_owners_trans; [|apply same_owners_add_content]; so
  | |- same_owners _ (close_parent _) =>
      eapply same_owners_trans; [|apply same_owners_close_parent]; so
  | |- same_owners _ (insert_bracket _) =>
      eapply same_owners_trans; [|apply same_owners_insert_bracket]; so
  | |- same_owners _ (if ?b then _ else _) => destruct b; so
  | |- same_owners _ (match text ?n with _ => _ end) =>
      let Ht := fresh "Ht" in destruct (text n) eqn:Ht; so
  | |- same_owners (_ :: _) (_ :: _) =>
      apply same_owners_cons;
      [done
      |cbn [text set_text set_attr set_is_closed];
       repeat match goal with Ht : text _ = _ |- _ => rewrite Ht end;
       solve [split; eauto]
      |so]
  | |- same_owners [] [] => constructor
  end.

Lemma same_owners_tail st st' :
  same_owners st st' → same_owners (tail st) (tail st').
Proof. destruct 1; [constructor|done]. Qed.

Lemma same_owners_leave st st' :
  same_owners st st' →
  tag <$> st' = tag <$> st ∧ same_owners (tail st) (tail st').
Proof.
  intros Hso. split; [symmetry; by apply same_owners_tags|].
  by apply same_owners_tail.
Qed.

Lemma head_changed_leave n n' rest rest' :
  tag n' = tag n → same_owners rest rest' →
  tag <$> n' :: rest' = tag <$> n :: rest
  ∧ same_owners (tail (n :: rest)) (tail (n' :: rest')).
Proof.
  intros Hn Hso. split; [|done]. rewrite !fmap_cons, Hn. f_equal.
  symmetry. by apply same_owners_tags.
Qed.

Ltac unfold_classes :=
  unfold id in *;
  unfold TagHandler, Name, Definition_, ArgsString, ListItem, Para,
    CompoundDef, CompountName, BaseCompoundRef, DerivedCompoundRef,
    MemberDef, ComputerOutput, ProgramListing, Sp, BriefDescription,
    DetailedDescription, Ref, Location, Formula, ReimplementedBy in *;
  cbn [enter leave characters] in *.

Lemma ProgramListing_leave_shape stack items st' items' :
  ProgramListing_leave stack items = Some (st', items') →
  tag <$> st' = tag <$> stack ∧ same_owners (tail stack) (tail st').
Proof.
  unfold ProgramListing_leave. destruct stack as [|n [|p rest]]; [done| |].
  - destruct (text n); [|done]. cbn [mbind option_bind].
    by destruct (text _).
  - destruct (text n) as [t|]; [|done]. cbn [mbind option_bind].
    set (n1 := if Str.startswith INFERRED_CPP t then _ else n).
    set (n2 := if decide (get_filename n1 = "c++") then _ else n1).
    assert (tag n2 = tag n) as Htag.
    { unfold n2, n1. by repeat case_match. }
    destruct (text n2); [|done]. cbn [mbind option_bind].
    intros [= <- <-]. apply head_changed_leave; [done|].
    exact (same_owners_add_content (p :: rest) _).
Qed.

Lemma handler_of_shape t :
  (∀ stack items st' items',
     enter (handler_of t) stack items = Some (st', items') →
     ((t ∈ buffer_tags)
      ∧ ∃ n rest, stack = n :: rest ∧ st' = set_text (Some "") n :: rest)
     ∨ ((t ∉ buffer_tags) ∧ same_owners stack st'))
  ∧ (∀ stack items st' items',
       leave (handler_of t) stack items = Some (st', items') →
       tag <$> st' = tag <$> stack ∧ same_owners (tail stack) (tail st'))
  ∧ (∀ content stack items st' items',
       characters (handler_of t) content stack items = Some (st', items') →
       same_owners stack st').
Proof.
  unfold handler_of, handlers. cbn [assoc].
  repeat case_decide; cbn [default]; try subst t;
    (split; [|split]); intros; unfold_classes;
    first
      [by eapply ProgramListing_leave_shape
      |unfold_handlers; inv_result;
       repeat match goal with
         | |- context [match text ?n with _ => _ end] =>
             let Ht := fresh "Ht" in destruct (text n) eqn:Ht
         end;
       first [so
             |apply same_owners_leave; so
             |apply head_changed_leave; [done|so]
             |left; split; [compute_done|by eexists _, _]
             |right; split;
              [first [compute_done
                     |unfold buffer_tags; rewrite !elem_of_cons, elem_of_nil;
                      intuition congruence]
              |so]]].
Qed.

Lemma step_shape h e h' :
  step h e = Some h' →
  tag <$> stack h' = step_tags (tag <$> stack h) e
  ∧ (buffers_ok (stack h) → buffers_ok (stack h')).
Proof.
  intros Hstep. destruct e as [t attributes|t|content];
    unfold step, startElement, endElement, characters_event, lift, create
      in Hstep; inv_result.
  - destruct x0 as [st' items']. inv_result. simpl.
    match goal with
    | Henter : enter _ (?node :: _) _ = Some _ |- _ =>
        set (n0 := node) in *;
        destruct (proj1 (handler_of_shape t) _ _ _ _ Henter)
          as [[Hin (n & rest & [= <- <-] & ->)]|[Hnin Hso]]
    end.
    + split; [done|]. intros Hok. constructor; [|done]. simpl.
      split; [done|eauto].
    + split; [by rewrite <-(same_owners_tags _ _ Hso)|].
      intros Hok. apply (buffers_ok_same_owners _ _ Hso).
      constructor; [|done]. simpl. split; [by intros [? ?]|done].
  - simpl.
    match goal with
    | Hleave : leave _ _ _ = Some _ |- _ =>
        destruct (proj1 (proj2 (handler_of_shape _)) _ _ _ _ Hleave)
          as [Htags Hso]
    end.
    split.
    + rewrite <-Htags. by destruct l.
    + intros Hok. apply (buffers_ok_same_owners _ _ Hso).
      destruct (stack h); [done|]. by apply Forall_cons in Hok as [_ ?].
  - destruct x0 as [st' items']. inv_result. simpl.
    match goal with
    | Hchars : characters _ _ _ _ = Some _ |- _ =>
        pose proof (proj2 (proj2 (handler_of_shape _)) _ _ _ _ _ Hchars)
          as Hso
    end.
    split; [by rewrite <-(same_owners_tags _ _ Hso)|].
    by apply buffers_ok_same_owners.
Qed.

(** X2.  The stack mirrors the nesting of the elements: after a run the
    tags on the stack are those that the events alone determine (a start
    pushes its tag, an end pops one, characters change nothing), whatever
    the handlers did; an end or characters on an empty stack abort, and so
    does a start with an attribute named [text], [tag], [parent] or
    [self]. *)
Theorem run_stack_tags (h : DocFxHandler) (es : list Event) :
  (∀ h', run h es = Some h' →
         tag <$> stack h' = foldl step_tags (tag <$> stack h) es)
  ∧ (stack h = [] →
     ∀ t c, step h (EndElement t) = None ∧ step h (Characters c) = None)
  ∧ (∀ t attributes a,
       a ∈ ["text"; "tag"; "parent"; "self"] →
       is_Some (list_to_map (M := gmap string string) attributes !! a) →
       step h (StartElement t attributes) = None).
Proof.
  split; [|split].
  - revert h. induction es as [|e es IH]; intros h h' Hrun; simpl in Hrun.
    + by injection Hrun as <-.
    + apply bind_Some in Hrun as (h1 & Hstep & Hrun).
      rewrite (IH _ _ Hrun). simpl.
      by rewrite (proj1 (step_shape _ _ _ Hstep)).
  - intros Hempty t c. unfold step, endElement, characters_event.
    by rewrite Hempty.
  - intros t attributes a Ha [v Hv]. unfold step, startElement, create.
    assert (bool_decide (list_to_map attributes !! "text" = None)
            && bool_decide (list_to_map attributes !! "tag" = None)
            && bool_decide (list_to_map attributes !! "parent" = None)
            && bool_decide (list_to_map attributes !! "self" = None)
            = false) as ->; [|done].
    repeat (apply elem_of_cons in Ha as [->|Ha]);
      [..|by apply elem_of_nil in Ha];
      rewrite !andb_false_iff, !bool_decide_eq_false; rewrite Hv; eauto.
Qed.

(** X3.  At every point of a run a node of the stack owns a text buffer if
    and only if it is a code block, a brief or a detailed description or a
    formula. *)
Theorem run_buffer_owners (es : list Event) (h : DocFxHandler) :
  run init es = Some h →
  ∀ n, n ∈ stack h → is_Some (text n) ↔ tag n ∈ buffer_tags.
Proof.
  intros Hrun.
  assert (∀ h0 h1, buffers_ok (stack h0) → run h0 es = Some h1 →
                   buffers_ok (stack h1)) as Hinv.
  { clear. induction es as [|e es IH]; intros h0 h1 Hok Hrun; simpl in Hrun.
    - by injection Hrun as <-.
    - apply bind_Some in Hrun as (h2 & Hstep & Hrun).
      eapply IH; [|done]. by apply (proj2 (step_shape _ _ _ Hstep)). }
  intros n Hn.
  assert (buffers_ok (stack h)) as Hok by (eapply Hinv; [|done]; constructor).
  unfold buffers_ok in Hok. rewrite Forall_forall in Hok. by apply Hok.
Qed.
End StackFacts.

Lemma run_stack_tags_witness :
  tag <$> stack described_handler
  = foldl step_tags (tag <$> stack init) described.
Proof.
  apply (proj1 (@run_stack_tags insertion_order init described)).
  vm_compute. reflexivity.
Defined.

Lemma run_buffer_owners_witness :
  Forall (λ n, is_Some (text n) ↔ tag n ∈ buffer_tags) (stack brief_open).
Proof.
  apply Forall_forall.
  apply (@run_buffer_owners insertion_order (take 3 described)).
  vm_compute. reflexivity.
Defined.

(** ** Stripping *)

Section StripFacts.
Context (p : ascii → bool).

Lemma rev_involutive s : Str.rev (Str.rev s) = s.
Proof.
  induction s as [|c s IH]; [done|]. simpl.
  rewrite rev_append. simpl. by rewrite IH.
Qed.

Lemma lstrip_by_suffix s : ∃ w, s = w +:+ Str.lstrip_by p s.
Proof.
  induction s as [|c s [w IH]]; [by exists ""|]. simpl.
  destruct (p c); [|by exists ""].
  exists (String c w). rewrite append_cons. by rewrite <-IH.
Qed.

Lemma lstrip_by_length s :
  String.length (Str.lstrip_by p s) ≤ String.length s.
Proof. induction s as [|c s IH]; simpl; [done|]. destruct (p c); simpl; lia. Qed.

Lemma lstrip_by_idemp s :
  Str.lstrip_by p (Str.lstrip_by p s) = Str.lstrip_by p s.
Proof.
  induction s as [|c s IH]; [done|]. simpl.
  destruct (p c) eqn:Hc; [done|]. simpl. by rewrite Hc.
Qed.

(** A non-empty prefix of a text that does not start with a character to
    strip does not start with one either. *)
Lemma lstrip_by_prefix a b :
  Str.lstrip_by p (a +:+ b) = a +:+ b → Str.lstrip_by p a = a.
Proof.
  destruct a as [|c a]; [done|]. rewrite append_cons. simpl.
  destruct (p c); [|done]. intros Heq.
  pose proof (lstrip_by_length (a +:+ b)) as Hlen.
  rewrite Heq in Hlen. simpl in Hlen. lia.
Qed.

Lemma strip_by_idemp s :
  Str.strip_by p (Str.strip_by p s) = Str.strip_by p s.
Proof.
  unfold Str.strip_by.
  set (u := Str.lstrip_by p s). set (v := Str.lstrip_by p (Str.rev u)).
  destruct (lstrip_by_suffix (Str.rev u)) as [w Hw]. fold v in Hw.
  assert (u = Str.rev v +:+ Str.rev w) as Hu.
  { rewrite <-(rev_involutive u), Hw. apply rev_append. }
  assert (Str.lstrip_by p (Str.rev v) = Str.rev v) as ->.
  { apply (lstrip_by_prefix _ (Str.rev w)). rewrite <-Hu.
    apply lstrip_by_idemp. }
  rewrite rev_involutive. unfold v. by rewrite lstrip_by_idemp.
Qed.
End StripFacts.

Lemma strip_trimmed s : trimmed (Str.strip s).
Proof. apply strip_by_idemp. Qed.

(** ** Invariants of the item mapping *)

Section DictKeys.
Context {V : Type}.
Implicit Types (d : Dict V) (k : string).

Lemma entries_get_is_Some (l : list (string * V)) k :
  is_Some (entries_get l k) ↔ k ∈ l.*1.
Proof.
  induction l as [|[k' v] l IH]; simpl.
  - rewrite elem_of_nil. split; [by intros [? ?]|done].
  - rewrite elem_of_cons. destruct (decide (k = k')) as [->|Hne].
    + split; [by left|eauto].
    + rewrite IH. split; [by right|]. by intros [?|?].
Qed.

Lemma keys_is_Some d k : k ∈ keys d ↔ is_Some (d !! k).
Proof. symmetry. apply entries_get_is_Some. Qed.

Lemma entries_set_keys (l : list (string * V)) k v :
  (entries_set k v l).*1 = if decide (k ∈ l.*1) then l.*1 else l.*1 ++ [k].
Proof.
  induction l as [|[k' v'] l IH].
  - destruct (decide (k ∈ ([] : list (string * V)).*1)) as [Hin|_]; [|done].
    by apply elem_of_nil in Hin.
  - cbn [entries_set]. destruct (decide (k = k')) as [->|Hne].
    + destruct (decide (k' ∈ ((k', v') :: l).*1)) as [_|Hnin]; [done|].
      exfalso. apply Hnin. apply list_elem_of_here.
    + rewrite fmap_cons, IH. cbn [fst].
      destruct (decide (k ∈ l.*1)) as [Hin|Hnin];
        destruct (decide (k ∈ ((k', v') :: l).*1)) as [Hin'|Hnin'];
        try done.
      * exfalso. apply Hnin'. by apply list_elem_of_further.
      * exfalso. rewrite fmap_cons in Hin'.
        apply elem_of_cons in Hin' as [?|?]; done.
Qed.

Lemma keys_insert d k v :
  keys (<[k := v]> d) = if decide (k ∈ keys d) then keys d else keys d ++ [k].
Proof. apply entries_set_keys. Qed.

Lemma keys_insert_existing d k v v' :
  d !! k = Some v' → keys (<[k := v]> d) = keys d.
Proof.
  intros Hk. rewrite keys_insert. rewrite decide_True; [done|].
  apply keys_is_Some. eauto.
Qed.

Lemma keys_NoDup_insert d k v : NoDup (keys d) → NoDup (keys (<[k := v]> d)).
Proof.
  intros Hd. rewrite keys_insert. case_decide; [done|].
  apply NoDup_app. split; [done|]. split; [|apply NoDup_singleton].
  intros x Hx ->%list_elem_of_singleton. done.
Qed.
End DictKeys.

Lemma keys_upd (items items' : Items) k f :
  upd k f items = Some items' → keys items' = keys items.
Proof.
  unfold upd. intros (it & Hit & [= <-])%bind_Some.
  by eapply keys_insert_existing.
Qed.

Lemma translate_not_source doxy :
  translate doxy ≠ "C++" ∧ translate doxy ≠ "variable".
Proof. unfold translate. repeat case_decide; by subst. Qed.

Section ItemInvariants.
Context `{PySet}.

Lemma items_inv_insert items k it :
  items_inv items → item_inv k it → items_inv (<[k := it]> items).
Proof.
  intros Hok Hit k' it'. rewrite dict_lookup_insert.
  destruct (decide (k = k')) as [<-|]; [by intros [= <-]|apply Hok].
Qed.

Lemma items_inv_upd items items' k f :
  items_inv items → (∀ it, item_inv k it → item_inv k (f it)) →
  upd k f items = Some items' → items_inv items'.
Proof.
  unfold upd. intros Hok Hf Hupd.
  destruct (items !! k) as [it|] eqn:Hk; simplify_eq/=.
  apply items_inv_insert; eauto.
Qed.

Lemma item_inv_new k p kind : item_inv k (new_item k p (translate kind)).
Proof.
  destruct (translate_not_source kind).
  repeat split; simpl; try done.
Qed.

Ltac inv_result :=
  repeat match goal with
    | H : _ ≫= _ = Some _ |- _ => apply bind_Some in H as (? & ? & H)
    | H : Some _ = Some _ |- _ =>
        first [injection H as <- <-|injection H as <-|injection H as ->]
    | H : None = Some _ |- _ => discriminate H
    | H : (if ?b then _ else _) = Some _ |- _ => destruct b eqn:?
    | H : match ?x with _ => _ end = Some _ |- _ => destruct x eqn:?
    end.

Ltac unfold_handlers :=
  unfold TagHandler_enter, TagHandler_leave, TagHandler_characters,
    Name_characters, Definition_characters, ListItem_enter,
    Para_characters, CompoundDef_enter, CompountName_characters,
    BaseCompoundRef_enter, DerivedCompoundRef_enter, MemberDef_enter,
    ComputerOutput_enter, ComputerOutput_leave, own_buffer_enter,
    ProgramListing_leave, Sp_enter, BriefDescription_leave,
    DetailedDescription_leave, Ref_enter, Ref_leave, Location_enter,
    Formula_leave, ReimplementedBy_enter in *.

Ltac unfold_classes :=
  unfold id in *;
  unfold TagHandler, Name, Definition_, ArgsString, ListItem, Para,
    CompoundDef, CompountName, BaseCompoundRef, DerivedCompoundRef,
    MemberDef, ComputerOutput, ProgramListing, Sp, BriefDescription,
    DetailedDescription, Ref, Location, Formula, ReimplementedBy in *;
  cbn [enter leave characters] in *.

Ltac item_inv_tac :=
  lazymatch goal with
  | |- item_inv _ (new_item _ _ (translate _)) => apply item_inv_new
  | |- item_inv _ (match ?x with _ => _ end) => destruct x; item_inv_tac
  | |- item_inv ?k (set_langs _ ?it) =>
      cut (item_inv k it);
      [intros (?&?&?&?&?&?&?&?); repeat split; simpl; done|item_inv_tac]
  | Hok : items_inv ?i, Hk : ?i !! ?k = Some ?it |- item_inv ?k _ =>
      let Hi := fresh in
      destruct (Hok _ _ Hk) as (?&?&?&?&?&?&?&?);
      repeat split; simpl; try done;
      try (intros ? [= <-]); try apply strip_trimmed
  end.

Ltac items_inv_tac :=
  match goal with
  | |- items_inv _ => assumption
  | |- items_inv (<[_ := _]> _) =>
      apply items_inv_insert; [items_inv_tac|item_inv_tac]
  | Hu : upd _ _ ?i = Some ?i' |- items_inv ?i' =>
      apply (λ H1 H2, items_inv_upd i i' _ _ H1 H2 Hu);
      [items_inv_tac
      |intros ? (?&?&?&?&?&?&?&?); repeat split; simpl; try done;
       apply translate_not_source]
  end.

Lemma handler_of_inv t :
  (∀ stack items stack' items',
     items_inv items →
     enter (handler_of t) stack items = Some (stack', items') →
     items_inv items')
  ∧ (∀ stack items stack' items',
       items_inv items →
       leave (handler_of t) stack items = Some (stack', items') →
       items_inv items')
  ∧ (∀ content stack items stack' items',
       items_inv items →
       characters (handler_of t) content stack items = Some (stack', items') →
       items_inv items').
Proof.
  unfold handler_of, handlers. cbn [assoc].
  repeat case_decide; cbn [default]; (split; [|split]); intros;
    unfold_classes; unfold_handlers; inv_result; items_inv_tac.
Qed.

Lemma run_items_inv es h h' :
  items_inv (items h) → run h es = Some h' → items_inv (items h').
Proof.
  revert h. induction es as [|e es IH]; intros h Hok Hrun; simpl in Hrun.
  - by injection Hrun as <-.
  - apply bind_Some in Hrun as (h1 & Hstep & Hrun).
    eapply IH; [|done]. clear Hrun IH.
    destruct e as [t attributes|t|content];
      unfold step, startElement, endElement, characters_event, lift in Hstep;
      inv_result.
    + destruct x0. inv_result. simpl.
      by eapply (proj1 (handler_of_inv t)).
    + simpl. by eapply (proj1 (proj2 (handler_of_inv _))).
    + destruct x0. inv_result. simpl.
      by eapply (proj2 (proj2 (handler_of_inv _))).
Qed.

(** X4.  At every point of a run every item sits at the key that is its
    [uid] and its [id], and no item has the type [C++] or [variable], the
    two words that [translate] replaces. *)
Theorem run_items_keyed (es : list Event) (h : DocFxHandler) :
  run init es = Some h →
  ∀ k it, items h !! k = Some it →
    uid it = k ∧ item_id it = k ∧ type it ≠ "C++" ∧ type it ≠ "variable".
Proof.
  intros Hrun k it Hk.
  destruct (run_items_inv es init h (λ k it, ltac:(done)) Hrun k it Hk)
    as (?&?&?&?&_). done.
Qed.

(** X5.  At every point of a run the [summary], the [brief] and the
    [description] of every item carry no white space at their ends, and
    the summary of an item without description is its brief (the empty
    text if it has none). *)
Theorem run_items_trimmed (es : list Event) (h : DocFxHandler) :
  run init es = Some h →
  ∀ k it, items h !! k = Some it →
    Str.strip (summary it) = summary it
    ∧ (∀ b, brief it = Some b → Str.strip b = b)
    ∧ (∀ d, description it = Some d → Str.strip d = d)
    ∧ (description it = None → summary it = default "" (brief it)).
Proof.
  intros Hrun k it Hk.
  destruct (run_items_inv es init h (λ k it, ltac:(done)) Hrun k it Hk)
    as (_&_&_&_&?&?&?&?). done.
Qed.

Ltac keys_tac :=
  repeat match goal with
    | Hu : upd _ _ _ = Some _ |- _ => apply keys_upd in Hu
    end;
  repeat match goal with
    | Hk : ?i !! ?k = Some _ |- context [keys (<[?k := _]> ?i)] =>
        rewrite (keys_insert_existing i k _ _ Hk)
    end;
  try congruence.

Lemma handler_of_keys t :
  (∀ stack items stack' items',
     enter (handler_of t) stack items = Some (stack', items') →
     keys items' = keys items
     ∨ (t ∈ ["compounddef"; "memberdef"]
        ∧ ∃ self k, ancestor stack 0 = Some self
                    ∧ getattr self "id" = Some k
                    ∧ (k ∉ keys items) ∧ keys items' = keys items ++ [k]))
  ∧ (∀ stack items stack' items',
       leave (handler_of t) stack items = Some (stack', items') →
       keys items' = keys items)
  ∧ (∀ content stack items stack' items',
       characters (handler_of t) content stack items = Some (stack', items') →
       keys items' = keys items).
Proof.
  unfold handler_of, handlers. cbn [assoc].
  repeat case_decide; cbn [default]; try subst t; (split; [|split]); intros;
    unfold_classes; unfold_handlers; inv_result;
    try (left; by keys_tac); try by keys_tac.
  all: rewrite keys_insert; destruct (decide (_ ∈ keys _)); [by left|right].
  all: (split; [compute_done|]); eauto 10.
Qed.

Lemma step_keys h e h' :
  step h e = Some h' →
  keys (items h') = keys (items h)
  ∨ ∃ t attributes k,
      e = StartElement t attributes
      ∧ t ∈ ["compounddef"; "memberdef"]
      ∧ list_to_map (M := gmap string string) attributes !! "id" = Some k
      ∧ (k ∉ keys (items h))
      ∧ keys (items h') = keys (items h) ++ [k].
Proof.
  intros Hstep. destruct e as [t attributes|t|content];
    unfold step, startElement, endElement, characters_event, lift, create
      in Hstep; inv_result.
  - destruct x0 as [st' items']. inv_result. simpl.
    match goal with
    | Henter : enter _ _ _ = Some _ |- _ =>
        destruct (proj1 (handler_of_keys t) _ _ _ _ Henter)
          as [?|(Ht & self & k & [= <-] & Hk & ? & ?)]
    end; [by left|].
    right. exists t, attributes, k. done.
  - left. simpl. by eapply (proj1 (proj2 (handler_of_keys _))).
  - destruct x0 as [st' items']. inv_result. left. simpl.
    by eapply (proj2 (proj2 (handler_of_keys _))).
Qed.

Lemma run_keys es h h' :
  run h es = Some h' →
  keys (items h) `prefix_of` keys (items h')
  ∧ (NoDup (keys (items h)) → NoDup (keys (items h'))).
Proof.
  revert h. induction es as [|e es IH]; intros h Hrun; simpl in Hrun.
  - by injection Hrun as <-.
  - apply bind_Some in Hrun as (h1 & Hs & Hrun).
    destruct (IH _ Hrun) as [Hpre Hnd].
    destruct (step_keys _ _ _ Hs) as [Heq|(t & a & k & _ & _ & _ & Hk & Heq)];
      rewrite Heq in *; [done|].
    split.
    + etrans; [|done]. by apply prefix_app_r.
    + intros Hh. apply Hnd. apply NoDup_app. split; [done|].
      split; [|apply NoDup_singleton].
      by intros x Hx ->%list_elem_of_singleton.
Qed.

(** X6.  Stage A never deletes or reorders items: an event leaves the keys
    of the item mapping as they are, except that the start of a
    [compounddef] or [memberdef] whose [id] is new appends that id; so the
    keys before a run are a prefix of the keys after it, and no key occurs
    twice. *)
Theorem run_keys_grow (h : DocFxHandler) :
  (∀ e h', step h e = Some h' →
     keys (items h') = keys (items h)
     ∨ ∃ t attributes k,
         e = StartElement t attributes
         ∧ t ∈ ["compounddef"; "memberdef"]
         ∧ list_to_map (M := gmap string string) attributes !! "id" = Some k
         ∧ (k ∉ keys (items h))
         ∧ keys (items h') = keys (items h) ++ [k])
  ∧ (∀ es h', run h es = Some h' →
       keys (items h) `prefix_of` keys (items h')
       ∧ (NoDup (keys (items h)) → NoDup (keys (items h')))).
Proof. split; [apply step_keys|intros es h'; apply run_keys]. Qed.

Lemma lookup_entry {V} (d : Dict V) k v :
  NoDup (keys d) → (k, v) ∈ entries d → d !! k = Some v.
Proof.
  unfold keys, lookup, dict_lookup. induction (entries d) as [|[k' v'] l IH].
  { by intros _ ?%elem_of_nil. }
  rewrite fmap_cons. intros [Hk' Hl]%NoDup_cons Hin. simpl.
  apply elem_of_cons in Hin as [[= -> ->]|Hin].
  - by rewrite decide_True.
  - rewrite decide_False; [by apply IH|]. intros ->. apply Hk'.
    apply list_elem_of_fmap. by exists (k', v).
Qed.

Lemma values_uids (d : Items) :
  NoDup (keys d) → items_inv d → uid <$> values d = keys d.
Proof.
  intros Hnd Hinv.
  assert (∀ k it, (k, it) ∈ entries d → uid it = k) as Huid.
  { intros k it Hin. by destruct (Hinv k it (lookup_entry d k it Hnd Hin)). }
  unfold values, keys. clear Hnd Hinv.
  induction (entries d) as [|[k it] l IH]; [done|].
  rewrite !fmap_cons. cbn [fst snd]. f_equal.
  - apply Huid, list_elem_of_here.
  - apply IH. intros k' it' Hin. by apply Huid, list_elem_of_further.
Qed.

Lemma namespace_files_items l ns files :
  namespace_files l ns = Some files →
  ∀ f, f ∈ files → ∃ k it, f.2 = [it] ∧ (k, it) ∈ l.
Proof.
  revert ns files. induction l as [|[key it] l IH]; intros ns files Hf f Hin.
  { injection Hf as <-. by apply elem_of_nil in Hin. }
  assert (∀ ns' files', namespace_files l ns' = Some files' → f ∈ files' →
            ∃ k it0, f.2 = [it0] ∧ (k, it0) ∈ (key, it) :: l) as IH'.
  { intros ns' files' Hf' Hin'.
    destruct (IH _ _ Hf' f Hin') as (k & it0 & ? & ?).
    exists k, it0. split; [done|]. by apply list_elem_of_further. }
  cbn [namespace_files] in Hf.
  destruct (decide (type it = "namespace")); [by eapply IH'|].
  destruct (decide (type it = "method")); [|by eapply IH'].
  apply bind_Some in Hf as (fn & Hfn & Hf).
  destruct (decide (fn = "&")); [by eapply IH'|].
  apply bind_Some in Hf as (ns0 & -> & Hf).
  apply bind_Some in Hf as (files' & Hf' & [= <-]).
  apply elem_of_cons in Hin as [->|Hin]; [|by eapply IH'].
  exists key, it. split; [done|]. apply list_elem_of_here.
Qed.

(** X7.  The items of every file that [convert] writes have pairwise
    distinct uids, and each of them is the item that the run holds at its
    uid. *)
Theorem convert_distinct_uids (path : string) (events : list Event)
    (files : list File) :
  convert path events = Some files →
  ∃ h, run init events = Some h
       ∧ ∀ f, f ∈ files →
           NoDup (uid <$> f.2)
           ∧ ∀ it, it ∈ f.2 → items h !! uid it = Some it.
Proof.
  unfold convert. intros Hc. apply bind_Some in Hc as (h & Hrun & Hc).
  exists h. split; [done|].
  pose proof (run_items_inv events init h (λ k it, ltac:(done)) Hrun) as Hinv.
  destruct (run_keys events init h Hrun) as [_ Hnd].
  specialize (Hnd (NoDup_nil_2 : NoDup (keys (items init)))).
  assert (∀ k it, (k, it) ∈ entries (items h) → items h !! uid it = Some it)
    as Hentry.
  { intros k it Hin. pose proof (lookup_entry _ _ _ Hnd Hin) as Hk.
    destruct (Hinv k it Hk) as [-> _]. done. }
  intros f Hf.
  destruct (Re.search (Lit "/namespacematcher") path).
  { destruct (namespace_files_items _ _ _ Hc f Hf) as (k & it & -> & Hin).
    split; [apply NoDup_singleton|].
    intros it' ->%list_elem_of_singleton. by eapply Hentry. }
  destruct (Re.search (Lit "/namespace") path).
  { injection Hc as <-. by apply elem_of_nil in Hf. }
  case_bool_decide; [injection Hc as <-; by apply elem_of_nil in Hf|].
  injection Hc as <-. apply list_elem_of_singleton in Hf as ->. cbn [snd].
  split; [by rewrite values_uids|].
  intros it Hit. unfold values in Hit.
  apply list_elem_of_fmap in Hit as ([k it'] & -> & Hin). by eapply Hentry.
Qed.
End ItemInvariants.

Lemma run_items_keyed_witness :
  uid described_item = "classA" ∧ item_id described_item = "classA"
  ∧ type described_item ≠ "C++" ∧ type described_item ≠ "variable".
Proof.
  apply (@run_items_keyed insertion_order described described_handler);
    vm_compute; reflexivity.
Defined.

Lemma run_items_trimmed_witness :
  Str.strip (summary described_item) = summary described_item
  ∧ (∀ b, brief described_item = Some b → Str.strip b = b)
  ∧ (∀ d, description described_item = Some d → Str.strip d = d)
  ∧ (description described_item = None
     → summary described_item = default "" (brief described_item)).
Proof.
  apply (@run_items_trimmed insertion_order described described_handler)
    with (k := "classA"); vm_compute; reflexivity.
Defined.

Lemma run_keys_grow_witness :
  keys (items described_handler) `prefix_of` keys (items member_started)
  ∧ (NoDup (keys (items described_handler))
     → NoDup (keys (items member_started))).
Proof.
  apply (proj2 (@run_keys_grow insertion_order described_handler)
           member_start).
  vm_compute. reflexivity.
Defined.

Lemma convert_distinct_uids_witness :
  ∃ h, @run insertion_order init (described ++ [EndElement "compounddef"])
       = Some h
       ∧ ∀ f, f ∈ described_files →
           NoDup (uid <$> f.2)
           ∧ ∀ it, it ∈ f.2 → items h !! uid it = Some it.
Proof.
  apply (@convert_distinct_uids insertion_order described_path).
  vm_compute. reflexivity.
Defined.

(** ** Names and signatures *)

Lemma upd_lookup (items items' : Items) k f k' :
  upd k f items = Some items' →
  items' !! k' = if decide (k = k') then f <$> items !! k' else items !! k'.
Proof.
  unfold upd. intros (it & Hit & [= <-])%bind_Some.
  rewrite dict_lookup_insert. destruct (decide (k = k')) as [<-|]; [|done].
  by rewrite Hit.
Qed.

Section NameFacts.
Context `{PySet}.

(** X8.  A name event under an ancestor that exposes an identifier,
    outside a list of all members: it aborts when the ancestor has no
    item; otherwise, whenever it succeeds, the children of the ancestor
    are the old ones followed by the id of the parent of the name, and
    when that id has no item (a member of an excluded kind) nothing else
    changes, so that the child is registered without an item. *)
Theorem Name_characters_registers_child (content : string)
    (stack : list Node) (items : Items) (a3 p : Node)
    (parent_id item_id : string) :
  has_tag (ancestor stack 2) "listofallmembers" = false →
  ancestor stack 3 = Some a3 → getattr a3 "id" = Some parent_id →
  ancestor stack 1 = Some p → getattr p "id" = Some item_id →
  (items !! parent_id = None → Name_characters content stack items = None)
  ∧ (∀ pit, items !! parent_id = Some pit → items !! item_id = None →
       Name_characters content stack items
       = Some (stack,
               <[parent_id := set_children
                   (Some (default [] (children pit) ++ [item_id])) pit]>
                 items))
  ∧ (∀ stack' items',
       Name_characters content stack items = Some (stack', items') →
       stack' = stack
       ∧ ∃ pit pit',
           items !! parent_id = Some pit ∧ items' !! parent_id = Some pit'
           ∧ children pit' = Some (default [] (children pit) ++ [item_id])).
Proof.
  intros Htag Ha3 Hpid Hp Hiid.
  assert (hasattr (ancestor stack 3) "id" = true) as Hhas.
  { rewrite Ha3. simpl. apply bool_decide_eq_true_2.
    unfold getattr in Hpid. by rewrite Hpid. }
  unfold Name_characters.
  rewrite Htag, Hhas, Ha3. cbn [mbind option_bind]. rewrite Hpid.
  cbn [mbind option_bind]. rewrite Hp. cbn [mbind option_bind].
  rewrite Hiid. cbn [mbind option_bind].
  split; [|split].
  - intros Hnone. unfold upd. by rewrite Hnone.
  - intros pit Hpit Hnone. unfold upd. rewrite Hpit.
    cbn [mbind option_bind].
    assert (parent_id ≠ item_id) as Hne by congruence.
    rewrite bool_decide_eq_false_2; [done|].
    rewrite dict_lookup_insert_ne by done. rewrite Hnone.
    by intros [? ?].
  - intros stack' items' Hr.
    apply bind_Some in Hr as (items1 & Hupd & Hr).
    assert (∃ pit, items !! parent_id = Some pit
                   ∧ (children <$> items1 !! parent_id)
                     = Some (Some (default [] (children pit) ++ [item_id])))
      as (pit & Hpit & Hch).
    { rewrite (upd_lookup _ _ _ _ parent_id Hupd).
      rewrite decide_True by done. unfold upd in Hupd.
      destruct (items !! parent_id) as [pit|]; [|done].
      exists pit. done. }
    assert (∀ f it0 itemsA itemsB,
              (∀ it, children (f it) = children it) →
              upd it0 f itemsA = Some itemsB →
              children <$> itemsB !! parent_id
              = children <$> itemsA !! parent_id) as Hkeep.
    { intros f it0 itemsA itemsB Hf Hu.
      rewrite (upd_lookup _ _ _ _ parent_id Hu).
      destruct (decide (it0 = parent_id)); [|done].
      destruct (itemsA !! parent_id); simpl; [|done]. by rewrite Hf. }
    assert (stack' = stack
            ∧ children <$> items' !! parent_id
              = Some (Some (default [] (children pit) ++ [item_id])))
      as [-> Hfinal].
    { destruct (bool_decide (is_Some (items1 !! item_id)));
        [|by injection Hr as <- <-].
      apply bind_Some in Hr as (items2 & Hu2 & Hr).
      apply bind_Some in Hr as (pit2 & _ & Hr).
      apply bind_Some in Hr as (fn & _ & Hr).
      apply bind_Some in Hr as (items3 & Hu3 & Hr).
      apply bind_Some in Hr as (it3 & _ & Hr).
      pose proof (Hkeep (set_name _) _ _ _ (λ _, eq_refl) Hu2) as H2.
      pose proof (Hkeep (set_fullName _) _ _ _ (λ _, eq_refl) Hu3) as H3.
      destruct (decide (type it3 = "function")).
      - apply bind_Some in Hr as (pit3 & _ & Hr).
        apply bind_Some in Hr as (pn & _ & Hr).
        apply bind_Some in Hr as (items4 & Hu4 & [= <- <-]).
        pose proof (Hkeep (set_type _) _ _ _ (λ _, eq_refl) Hu4) as H4.
        split; [done|]. congruence.
      - injection Hr as <- <-. split; [done|]. congruence. }
    split; [done|]. exists pit.
    destruct (items' !! parent_id) as [pit'|]; [|done].
    exists pit'. simpl in Hfinal. split; [done|]. split; [done|]. congruence.
Qed.
End NameFacts.

Lemma Name_characters_registers_child_witness :
  @Name_characters insertion_order "v" memberdef_stack class_alone
  = Some (memberdef_stack,
          <["classA" := set_children (Some (default [] None ++ ["f1"]))
                          (new_item "classA" None "class")]> class_alone).
Proof.
  apply (proj1 (proj2 (@Name_characters_registers_child insertion_order
           "v" memberdef_stack class_alone
           (mkNode "compounddef" {["id" := "classA"]} None false)
           (mkNode "memberdef" {["id" := "f1"]} None false)
           "classA" "f1" eq_refl eq_refl eq_refl eq_refl eq_refl))
           (new_item "classA" None "class"));
    reflexivity.
Defined.

Lemma entries_set_set {V} k (v v' : V) l :
  entries_set k v (entries_set k v' l) = entries_set k v l.
Proof.
  induction l as [|[k0 v0] l IH]; simpl.
  - by rewrite decide_True.
  - destruct (decide (k = k0)) as [->|Hne]; simpl.
    + by rewrite decide_True.
    + rewrite decide_False by done. by rewrite IH.
Qed.

Lemma dict_insert_insert {V} (d : Dict V) k v v' :
  <[k := v]> (<[k := v']> d) = <[k := v]> d.
Proof.
  unfold insert, dict_insert. simpl. by rewrite entries_set_set.
Qed.

Section SyntaxFacts.
Context `{PySet}.

(** X9.  The chunks of a [definition] or of an [argsstring] are
    stripped one by one and appended to the signature of the item of the
    parent, in order, behind what the signature held: blanks at the ends
    of a chunk are lost.  The first chunk creates the signature, even if
    it is blank; no chunk, or no item for the parent, changes nothing;
    and the stack stays as it is. *)
Theorem syntax_accumulates (h : DocFxHandler) (self p : Node)
    (rest : list Node) (item_id : string) (chunks : list string) :
  stack h = self :: p :: rest →
  tag self = "definition" ∨ tag self = "argsstring" →
  getattr p "id" = Some item_id →
  run h (Characters <$> chunks)
  = Some (mkDocFx (stack h) (with_syntax item_id chunks (items h))).
Proof.
  intros Hst Htag Hid. destruct h as [st its]. simpl in *. subst st.
  revert its. induction chunks as [|c chunks IH]; intros its.
  - unfold with_syntax. simpl. by destruct (its !! item_id).
  - rewrite fmap_cons. cbn [run step]. unfold characters_event.
    cbn [stack items ancestor mbind option_bind].
    assert (characters (handler_of (tag self)) = Definition_characters) as ->.
    { by destruct Htag as [-> | ->]. }
    unfold Definition_characters. cbn [ancestor mbind option_bind].
    rewrite Hid. cbn [mbind option_bind].
    unfold with_syntax.
    destruct (its !! item_id) as [it|] eqn:Hit; cbn [lift mbind option_bind].
    + rewrite IH. unfold with_syntax. cbn [items].
      rewrite dict_lookup_insert_eq.
      destruct chunks as [|c' chunks].
      { cbn [fmap list_fmap join foldr]. by rewrite append_nil_r. }
      rewrite dict_insert_insert. cbn [syntax set_syntax default].
      rewrite !fmap_cons. cbn [join foldr].
      unfold id. by rewrite append_assoc.
    + rewrite IH. unfold with_syntax. cbn [items]. by rewrite Hit.
Qed.
End SyntaxFacts.

Lemma syntax_accumulates_witness :
  @run insertion_order at_definition (Characters <$> [" int "; "f1 "])
  = Some (mkDocFx (stack at_definition)
            (with_syntax "f1" [" int "; "f1 "] (items at_definition))).
Proof.
  apply (@syntax_accumulates insertion_order at_definition
           (plain_node "definition")
           (mkNode "memberdef" {["id" := "f1"]} None false) [] "f1").
  - reflexivity.
  - left. reflexivity.
  - reflexivity.
Defined.

(** ** Links and code spans *)

Lemma create_Some t a n :
  create t a = Some n → n = mkNode t a None false.
Proof.
  unfold create. destruct (_ && _); [|done]. by intros [= <-].
Qed.

Lemma add_content_app chain a b :
  add_content (add_content chain a) b = add_content chain (a +:+ b).
Proof.
  induction chain as [|n chain IH]; [done|]. simpl.
  destruct (text n) as [t|] eqn:Ht; simpl.
  - by rewrite append_assoc.
  - by rewrite Ht, IH.
Qed.

Lemma insert_bracket_add_content chain a c :
  insert_bracket (add_content chain (a +:+ String c ""))
  = add_content chain (a +:+ "[" +:+ String c "").
Proof.
  induction chain as [|n chain IH]; [done|]. cbn [add_content].
  destruct (text n) as [t|] eqn:Ht; cbn [insert_bracket text set_text].
  - rewrite <-(append_assoc t a), but_last_snoc, last_snoc.
    by rewrite !append_assoc.
  - by rewrite Ht, IH.
Qed.

Lemma has_tag_top_add_content st a t :
  has_tag (ancestor (add_content st a) 0) t = has_tag (ancestor st 0) t.
Proof. destruct st as [|n st]; [done|]. simpl. by destruct (text n). Qed.

Section LinkFacts.
Context `{PySet}.

Ltac events :=
  repeat first
    [ progress cbn [run step mbind option_bind lift stack items add_content
                    insert_bracket text ancestor tag enter leave characters
                    tail is_closed set_is_closed set_text close_parent negb
                    attrs has_tag Ref ComputerOutput]
    | progress unfold startElement, endElement, characters_event, Ref_enter,
        Ref_leave, ComputerOutput_enter, ComputerOutput_leave,
        TagHandler_characters, getattr
    | progress change (handler_of "ref") with Ref
    | progress change (handler_of "computeroutput") with ComputerOutput
    | rewrite has_tag_top_add_content
    | rewrite (bool_decide_eq_true_2 ("computeroutput" = "computeroutput"))
        by done
    | match goal with
      | H : create _ _ = Some _ |- _ => rewrite H
      | H : _ !! "refid" = Some _ |- _ => rewrite H
      | H : has_tag _ _ = false |- _ => rewrite H
      end ].

(** X10.  The events of a link append the text of the link in brackets
    and the target to the buffer in force; those of a code span append
    the text between backticks; a link that opens a code span comes out
    as a link whose text is the code span; and after a text in the span
    that ends with a character [x], the bracket of a link lands before
    [x], and the span is not closed again at its end.  The items stay as
    they are, and the stack is the one before but for the buffer. *)
Theorem link_events (h : DocFxHandler) (ra ca : list (string * string))
    (refid a0 b c : string) (x : ascii) :
  is_Some (create "ref" (list_to_map ra)) →
  is_Some (create "computeroutput" (list_to_map ca)) →
  (list_to_map ra : gmap string string) !! "refid" = Some refid →
  (has_tag (ancestor (stack h) 0) "computeroutput" = false →
   run h [StartElement "ref" ra; Characters c; EndElement "ref"]
   = Some (mkDocFx
             (add_content (stack h) ("[" +:+ c +:+ "](xref:" +:+ refid +:+ ")"))
             (items h)))
  ∧ run h [StartElement "computeroutput" ca; Characters c;
           EndElement "computeroutput"]
    = Some (mkDocFx (add_content (stack h) ("`" +:+ c +:+ "`")) (items h))
  ∧ run h [StartElement "computeroutput" ca; StartElement "ref" ra;
           Characters c; EndElement "ref"; EndElement "computeroutput"]
    = Some (mkDocFx
              (add_content (stack h)
                 ("[`" +:+ c +:+ "`](xref:" +:+ refid +:+ ")"))
              (items h))
  ∧ run h [StartElement "computeroutput" ca;
           Characters (a0 +:+ String x "");
           StartElement "ref" ra; Characters c; EndElement "ref";
           Characters b; EndElement "computeroutput"]
    = Some (mkDocFx
              (add_content (stack h)
                 ("`" +:+ a0 +:+ "[" +:+ String x "" +:+ c
                  +:+ "`](xref:" +:+ refid +:+ ")" +:+ b))
              (items h)).
Proof.
  intros [rn Hrn] [cn Hcn] Hrefid.
  pose proof (create_Some _ _ _ Hrn) as ->.
  pose proof (create_Some _ _ _ Hcn) as ->.
  destruct h as [st its]. cbn [stack items].
  split; [|split; [|split]].
  - intros Htop. cbn [ancestor] in Htop. events.
    by rewrite !add_content_app.
  - events. by rewrite !add_content_app.
  - events. pose proof (insert_bracket_add_content st "" "`") as Hb.
    change (insert_bracket (add_content st "`") = add_content st "[`") in Hb.
    rewrite Hb.
    by rewrite !add_content_app.
  - events. rewrite (add_content_app st "`" (a0 +:+ String x "")).
    rewrite <-(append_assoc "`" a0).
    rewrite (insert_bracket_add_content st ("`" +:+ a0) x).
    rewrite !add_content_app. by rewrite !append_assoc.
Qed.
End LinkFacts.

Lemma link_events_witness :
  @run insertion_order in_description
    [StartElement "computeroutput" []; StartElement "ref" [("refid", "classB")];
     Characters "B"; EndElement "ref"; EndElement "computeroutput"]
  = Some (mkDocFx
            (add_content (stack in_description)
               ("[`" +:+ "B" +:+ "`](xref:" +:+ "classB" +:+ ")"))
            (items in_description)).
Proof.
  apply (@link_events insertion_order in_description [("refid", "classB")] []
           "classB" "" "" "B" "a"%char).
  - eexists. reflexivity.
  - eexists. reflexivity.
  - reflexivity.
Defined.

(** ** Anchored patterns *)

Lemma drop_nil n : Str.drop n "" = "".
Proof. by destruct n. Qed.

Lemma startswith_app l1 l2 s :
  Str.startswith (l1 +:+ l2) s
  = Str.startswith l1 s && Str.startswith l2 (Str.drop (String.length l1) s).
Proof.
  revert s. induction l1 as [|a l1 IH]; intros s.
  - rewrite append_nil_l. by destruct s.
  - rewrite append_cons. destruct s as [|c s]; [done|]. simpl.
    rewrite IH. by destruct (Ascii.eqb a c).
Qed.

Lemma lit_k_startswith {R} l (k : @cont R) s pos caps :
  lit_k l k pos s caps
  = if Str.startswith l s
    then k (pos + String.length l) (Str.drop (String.length l) s) caps
    else None.
Proof.
  revert s pos. induction l as [|a l IH]; intros s pos.
  - simpl. rewrite Nat.add_0_r. by destruct s.
  - destruct s as [|c s]; [done|]. simpl.
    destruct (Ascii.eqb a c); [|done]. rewrite IH.
    by rewrite Nat.add_succ_r.
Qed.

(** A pattern that starts with [^] matches at the start of the text
    only, so that [re.sub] copies whatever is behind a match there. *)
Lemma sub_loop_anchored r repl budget skip pos s :
  sub_loop (Seq Bol r) repl budget skip (S pos) s = Str.drop skip s.
Proof.
  revert skip pos. induction s as [|c s IH]; intros skip pos.
  - destruct skip; [|done]. simpl. by destruct budget as [[|?]|].
  - destruct skip as [|skip]; simpl; [|apply IH].
    rewrite IH. by destruct budget as [[|?]|].
Qed.

Lemma sub_anchored r repl budget s :
  budget ≠ Some 0 →
  sub_loop (Seq Bol r) repl budget 0 0 s
  = match match_at (Seq Bol r) 0 s with
    | Some (len, caps) => repl (Str.take len s) caps +:+ Str.drop len s
    | None => s
    end.
Proof.
  intros Hb. destruct s as [|c s]; cbn [sub_loop].
  - destruct budget as [[|?]|]; try done;
      destruct (match_at (Seq Bol r) 0 "") as [[len caps]|]; try done;
      by rewrite drop_nil, append_nil_r.
  - assert ((if budget is Some 0 then None
             else match_at (Seq Bol r) 0 (String c s))
            = match_at (Seq Bol r) 0 (String c s)) as ->
      by (by destruct budget as [[|?]|]).
    destruct (match_at (Seq Bol r) 0 (String c s)) as [[[|len] caps]|];
      by rewrite !sub_loop_anchored.
Qed.

(** ** Sort keys *)

(** X11.  The sort key of an id is the id without one leading [class],
    [struct] or [namespace], the first of the three that it starts with;
    an id that starts with none of them is its own key, and nothing is
    removed further in. *)
Theorem id_sorting_prefix (item_id : string) :
  id_sorting item_id
  = if Str.startswith "class" item_id then Str.drop 5 item_id
    else if Str.startswith "struct" item_id then Str.drop 6 item_id
    else if Str.startswith "namespace" item_id then Str.drop 9 item_id
    else item_id.
Proof.
  unfold id_sorting, Re.sub, re_kind_prefix, cat. cbn [foldr].
  rewrite sub_anchored by done.
  unfold match_at, alts. cbn [match_k Nat.eqb].
  rewrite !lit_k_startswith. cbn [lit_k].
  destruct (Str.startswith "class" item_id); [done|].
  destruct (Str.startswith "struct" item_id); [done|].
  by destruct (Str.startswith "namespace" item_id).
Qed.

(** ** Admonitions *)

Lemma lstrip_by_all p u s :
  all_in p u → Str.lstrip_by p (u +:+ s) = Str.lstrip_by p s.
Proof.
  induction u as [|c u IH]; [done|]. intros [Hc Hu].
  rewrite append_cons. simpl. rewrite Hc. by apply IH.
Qed.

Lemma admonition_match sp marker rest :
  all_in (chr " ") sp → marker ∈ admonitions →
  Re.rmatch re_admonition (sp +:+ marker +:+ ":" +:+ rest)
  = Some (String.length (sp +:+ marker +:+ ":"), {[1 := marker]}).
Proof.
  intros Hsp Hm.
  unfold Re.rmatch, match_at, re_admonition, cat.
  cbn [foldr match_k Nat.eqb].
  apply star_k_skip; [done|].
  assert (String.length (sp +:+ marker +:+ ":")
          = String.length sp + String.length marker + 1) as ->.
  { rewrite !length_append. simpl. lia. }
  unfold admonitions in Hm.
  repeat (apply elem_of_cons in Hm as [->|Hm];
    [rewrite star_k_stop by reflexivity; cbn [match_k alts];
     rewrite !lit_k_startswith;
     repeat match goal with
       | |- context [Str.startswith ?l ?s] =>
           let b := eval vm_compute in (Str.startswith l s) in
           change (Str.startswith l s) with b
       end;
     cbv iota; rewrite insert_empty; f_equal; f_equal;
     [simpl; lia|];
     f_equal;
     match goal with
     | |- Str.take ?n (?m +:+ _) = _ =>
         replace n with (String.length m) by lia; apply take_append
     end|]).
  by apply elem_of_nil in Hm.
Qed.

Lemma admonition_no_match content :
  (∀ marker, marker ∈ admonitions →
     Str.startswith (marker +:+ ":") (Str.lstrip_by (chr " ") content)
     = false) →
  Re.rmatch re_admonition content = None.
Proof.
  intros Hc.
  unfold Re.rmatch, match_at, re_admonition, cat.
  cbn [foldr match_k Nat.eqb].
  apply (star_k_None
           (λ s, ∀ marker, marker ∈ admonitions →
              Str.startswith (marker +:+ ":") (Str.lstrip_by (chr " ") s)
              = false)); [| |done].
  - intros pos s caps Hs. cbn [match_k alts].
    rewrite !lit_k_startswith.
    destruct s as [|c s]; [done|].
    destruct (chr " " c) eqn:Hsp.
    { apply Ascii.eqb_eq in Hsp as <-. done. }
    assert (∀ marker, marker ∈ admonitions →
              Str.startswith marker (String c s)
              && Str.startswith ":"
                   (Str.drop (String.length marker) (String c s)) = false)
      as Hs'.
    { intros marker Hm. rewrite <-startswith_app.
      specialize (Hs marker Hm). cbn [Str.lstrip_by] in Hs.
      by rewrite Hsp in Hs. }
    pose proof (Hs' "NOTE" ltac:(set_solver)) as H1.
    pose proof (Hs' "WARNING" ltac:(set_solver)) as H2.
    pose proof (Hs' "TIP" ltac:(set_solver)) as H3.
    pose proof (Hs' "IMPORTANT" ltac:(set_solver)) as H4.
    pose proof (Hs' "CAUTION" ltac:(set_solver)) as H5.
    repeat match goal with
    | H : ?a && ?b = false |- _ =>
        apply andb_false_iff in H as [H|H]; rewrite ?H;
        [|destruct a; [|clear H]]
    end; done.
  - intros c s Hs Hsp marker Hm. specialize (Hs marker Hm).
    cbn [Str.lstrip_by] in Hs. by rewrite Hsp in Hs.
Qed.

(** X12.  A chunk of a paragraph that starts, after any blanks, with one
    of the five markers and a colon is appended with the marker turned into the head
    of an admonition and the rest as it is, also where the rest holds a
    marker again; any other chunk is appended as it is, a marker further
    in being left alone. *)
Theorem Para_characters_admonition (stack : list Node) (items : Items) :
  (∀ sp marker rest,
     all_in (chr " ") sp → marker ∈ admonitions →
     Para_characters (sp +:+ marker +:+ ":" +:+ rest) stack items
     = Some (add_content stack (admonition_head marker +:+ rest), items))
  ∧ (∀ content,
       (∀ marker, marker ∈ admonitions →
          Str.startswith (marker +:+ ":") (Str.lstrip_by (chr " ") content)
          = false) →
       Para_characters content stack items
       = Some (add_content stack content, items)).
Proof.
  split.
  - intros sp marker rest Hsp Hm. unfold Para_characters, sub_count.
    unfold re_admonition, cat. cbn [foldr]. rewrite sub_anchored by done.
    pose proof (admonition_match sp marker rest Hsp Hm) as Hmatch.
    unfold Re.rmatch, re_admonition, cat in Hmatch. cbn [foldr] in Hmatch.
    rewrite Hmatch. do 3 f_equal.
    rewrite <-!append_assoc, drop_append.
    unfold admonition_head, group. rewrite lookup_singleton_eq. simpl.
    by rewrite !append_assoc.
  - intros content Hc. unfold Para_characters, sub_count.
    unfold re_admonition, cat. cbn [foldr]. rewrite sub_anchored by done.
    pose proof (admonition_no_match content Hc) as Hmatch.
    unfold Re.rmatch, re_admonition, cat in Hmatch. cbn [foldr] in Hmatch.
    by rewrite Hmatch.
Qed.

Lemma Para_characters_admonition_witness :
  Para_characters ("  " +:+ "NOTE" +:+ ":" +:+ " mind the gap")
    [buffer_node "detaileddescription" ""] ∅
  = Some (add_content [buffer_node "detaileddescription" ""]
            (admonition_head "NOTE" +:+ " mind the gap"), ∅).
Proof.
  apply (proj1 (Para_characters_admonition
                  [buffer_node "detaileddescription" ""] ∅)).
  - repeat split.
  - apply list_elem_of_here.
Defined.

(** ** The characters of a translated path *)

Lemma all_in_app p s t : all_in p (s +:+ t) ↔ all_in p s ∧ all_in p t.
Proof.
  induction s as [|c s IH].
  - rewrite append_nil_l. simpl. tauto.
  - rewrite append_cons. simpl. rewrite IH. tauto.
Qed.

Lemma all_in_rev p s : all_in p (Str.rev s) ↔ all_in p s.
Proof.
  induction s as [|c s IH]; [done|]. simpl.
  rewrite all_in_app, IH. simpl. tauto.
Qed.

Lemma all_in_lstrip_by p q s : all_in p s → all_in p (Str.lstrip_by q s).
Proof.
  induction s as [|c s IH]; [done|]. intros [Hc Hs]. simpl.
  destruct (q c); [by apply IH|done].
Qed.

Lemma all_in_strip_by p q s : all_in p s → all_in p (Str.strip_by q s).
Proof.
  intros Hs. unfold Str.strip_by.
  by apply all_in_rev, all_in_lstrip_by, all_in_rev, all_in_lstrip_by.
Qed.

Lemma all_in_impl (p q : ascii → bool) s :
  (∀ c, p c = true → q c = true) → all_in p s → all_in q s.
Proof. intros Hpq. induction s as [|c s IH]; [done|]. intros [? ?]. split; auto. Qed.

(** What [re.sub] returns is made of replacements and of characters of
    the text at which no match starts. *)
Lemma sub_loop_all_in (P Q : ascii → bool) r repl :
  (∀ m caps, all_in P (repl m caps)) →
  (∀ pos c s, Q c = true → P c = false →
     ∃ len caps, match_at r pos (String c s) = Some (S len, caps)) →
  ∀ s skip pos, all_in Q s → all_in P (sub_loop r repl None skip pos s).
Proof.
  intros Hrepl Hstart. induction s as [|c s IH]; intros skip pos Hs.
  - destruct skip; [|done]. cbn [sub_loop].
    destruct (match_at r pos "") as [[len caps]|]; [apply Hrepl|done].
  - destruct Hs as [Hc Hs]. destruct skip as [|skip]; [|by apply IH].
    cbn [sub_loop].
    destruct (match_at r pos (String c s)) as [[len caps]|] eqn:Hm.
    + destruct len as [|len]; apply all_in_app; (split; [apply Hrepl|]);
        [|by apply IH].
      split; [|by apply IH].
      destruct (P c) eqn:HP; [done|].
      destruct (Hstart pos c s Hc HP) as (len & caps' & Hm'). congruence.
    + split; [|by apply IH].
      destruct (P c) eqn:HP; [done|].
      destruct (Hstart pos c s Hc HP) as (len & caps' & Hm'). congruence.
Qed.

Lemma lower_char_not_upper c : not_upper (Str.lower_char c) = true.
Proof. by destruct c as [[] [] [] [] [] [] [] []]. Qed.

Lemma lower_not_upper s : all_in not_upper (Str.lower s).
Proof.
  induction s as [|c s IH]; [done|]. split; [apply lower_char_not_upper|done].
Qed.

Lemma star_k_total p pos0 s pos caps :
  ∃ n, star_k p (λ pos' _ caps', Some (pos' - pos0, caps')) pos s caps
       = Some (pos + n - pos0, caps).
Proof.
  revert pos. induction s as [|c s IH]; intros pos; simpl.
  - exists 0. by rewrite Nat.add_0_r.
  - destruct (p c); [|exists 0; by rewrite Nat.add_0_r].
    destruct (IH (S pos)) as [n ->]. exists (S n).
    by rewrite Nat.add_succ_r.
Qed.

Lemma upper_run_match pos c s :
  Str.is_upper c = true →
  ∃ len caps, match_at re_upper_run pos (String c s) = Some (S len, caps).
Proof.
  intros Hc. unfold match_at, re_upper_run. cbn [match_k]. rewrite Hc.
  destruct (star_k_total Str.is_upper pos s (S pos) ∅) as [n ->].
  exists n, ∅. do 2 f_equal. lia.
Qed.

(** X13.  A name in dashed form has no capital letter from [A] to [Z] and
    no dash at either end; a translated path has, besides, no
    underscore. *)
Theorem camel2dashed_chars :
  (∀ name, all_in not_upper (camel2dashed name)
           ∧ Str.strip_dash (camel2dashed name) = camel2dashed name)
  ∧ (∀ path, all_in path_char (translate_path path)).
Proof.
  assert (∀ name, all_in not_upper (camel2dashed name)) as Hcamel.
  { intros name. unfold camel2dashed, Str.strip_dash.
    apply all_in_strip_by.
    apply (sub_loop_all_in not_upper not_upper).
    - done.
    - intros ??? Hc. by rewrite Hc.
    - apply (sub_loop_all_in not_upper (λ _, true)).
      + intros m _. apply all_in_app. split; [done|]. apply lower_not_upper.
      + intros pos c s _ Hc. apply upper_run_match.
        unfold not_upper in Hc. by destruct (Str.is_upper c).
      + by induction name. }
  split.
  - intros name. split; [done|]. apply strip_by_idemp.
  - intros path. unfold translate_path.
    apply all_in_app. split; [by repeat split|].
    apply (sub_loop_all_in path_char not_upper).
    + done.
    + intros pos c s Hc HP. exists 0, ∅. unfold path_char in HP.
      rewrite Hc in HP. simpl in HP.
      apply negb_false_iff, Ascii.eqb_eq in HP as ->.
      unfold match_at. cbn [match_k lit_k]. rewrite Ascii.eqb_refl.
      do 2 f_equal. lia.
    + apply Hcamel.
Qed.

(** ** The files of the namespace matcher *)

Lemma namespace_in_force_nil ns : namespace_in_force [] ns = ns.
Proof. done. Qed.

Lemma namespace_in_force_cons key it l ns :
  namespace_in_force ((key, it) :: l) ns
  = namespace_in_force l
      (if decide (type it = "namespace")
       then Some (Str.drop (String.length "namespace") key) else ns).
Proof.
  unfold namespace_in_force, namespace_names. cbn [omap list_omap].
  destruct (decide (type it = "namespace")); [|done].
  by destruct (omap _ l) as [|n l'] using rev_ind;
    [|rewrite app_comm_cons, !list.last_snoc].
Qed.

Lemma namespace_in_force_app l1 l2 ns :
  namespace_in_force (l1 ++ l2) ns
  = namespace_in_force l2 (namespace_in_force l1 ns).
Proof.
  revert ns. induction l1 as [|[key it] l1 IH]; intros ns; [done|].
  cbn [app]. by rewrite !namespace_in_force_cons, IH.
Qed.

(** The loop over a list in two parts. *)
Lemma namespace_files_app l1 l2 ns :
  namespace_files (l1 ++ l2) ns
  = (files1 ← namespace_files l1 ns;
     files2 ← namespace_files l2 (namespace_in_force l1 ns);
     Some (files1 ++ files2)).
Proof.
  revert ns. induction l1 as [|[key it] l1 IH]; intros ns.
  - cbn [app namespace_files mbind option_bind].
    rewrite namespace_in_force_nil.
    by destruct (namespace_files l2 ns).
  - cbn [app namespace_files]. rewrite namespace_in_force_cons.
    destruct (decide (type it = "namespace")) as [?|?]; [apply IH|].
    destruct (decide (type it = "method")) as [?|?]; [|apply IH].
    destruct (name it) as [fn|]; [|done]. cbn [mbind option_bind].
    destruct (decide (fn = "&")) as [?|?]; [apply IH|].
    destruct ns as [ns0|]; [|done]. cbn [mbind option_bind]. rewrite IH.
    destruct (namespace_files l1 (Some ns0)); [|done].
    cbn [mbind option_bind].
    by destruct (namespace_files l2 _).
Qed.

Lemma namespace_files_published l ns files :
  namespace_files l ns = Some files →
  snd <$> files = (λ it, [it]) <$> filter published l.*2.
Proof.
  revert ns files. induction l as [|[key it] l IH]; intros ns files Hf.
  { by injection Hf as <-. }
  cbn [namespace_files] in Hf. rewrite fmap_cons. cbn [snd].
  destruct (decide (type it = "namespace")) as [Hty|Hty].
  { assert (published it = false) as Hp.
    { unfold published. rewrite bool_decide_eq_false_2; [done|].
      by rewrite Hty. }
    rewrite filter_cons_False by (rewrite Hp; exact id). by eapply IH. }
  destruct (decide (type it = "method")) as [Hm|Hm].
  2:{ assert (published it = false) as Hp.
      { unfold published. by rewrite bool_decide_eq_false_2. }
      rewrite filter_cons_False by (rewrite Hp; exact id). by eapply IH. }
  apply bind_Some in Hf as (fn & Hfn & Hf).
  destruct (decide (fn = "&")) as [->|Hamp].
  { assert (published it = false) as Hp.
    { unfold published. rewrite Hfn.
      rewrite (bool_decide_eq_false_2 (Some "&" ≠ Some "&")); [|by intros ?].
      by rewrite andb_false_r. }
    rewrite filter_cons_False by (rewrite Hp; exact id). by eapply IH. }
  apply bind_Some in Hf as (ns0 & -> & Hf).
  apply bind_Some in Hf as (files' & Hf' & [= <-]).
  assert (published it = true) as Hp.
  { unfold published. rewrite Hfn.
    rewrite !bool_decide_eq_true_2; [done|congruence|done]. }
  rewrite filter_cons_True by (rewrite Hp; exact I).
  rewrite !fmap_cons. cbn [snd]. f_equal. by eapply IH.
Qed.

(** X14.  The loop of the namespace matcher, at an item [it] behind the
    items [l1] and before the items [l2].  A method other than [&] is
    written, alone, to the file named after it and after the namespace in
    force, which is that of the last namespace item before it; with no
    namespace in force the loop aborts there.  A method without a name
    aborts the loop.  Any other item, and the method [&], gives no write,
    a namespace item changing the namespace in force.  So the writes are
    those of the methods other than [&], in the order of the item
    mapping, and two methods of one name in one namespace go to the same
    file. *)
Theorem namespace_files_methods (l1 l2 : list (string * Item))
    (key : string) (it : Item) (namespace_name : option string) :
  (∀ fn, type it = "method" → name it = Some fn → fn ≠ "&" →
     namespace_files (l1 ++ (key, it) :: l2) namespace_name
     = (files1 ← namespace_files l1 namespace_name;
        ns ← namespace_in_force l1 namespace_name;
        files2 ← namespace_files l2 (Some ns);
        Some (files1 ++ (method_file ns fn, [it]) :: files2)))
  ∧ (type it = "method" → name it = None →
     namespace_files (l1 ++ (key, it) :: l2) namespace_name = None)
  ∧ (type it ≠ "method" ∨ name it = Some "&" →
     namespace_files (l1 ++ (key, it) :: l2) namespace_name
     = (files1 ← namespace_files l1 namespace_name;
        files2 ← namespace_files l2
                   (namespace_in_force (l1 ++ [(key, it)]) namespace_name);
        Some (files1 ++ files2)))
  ∧ (∀ files, namespace_files l1 namespace_name = Some files →
       snd <$> files = (λ it, [it]) <$> filter published l1.*2).
Proof.
  split; [|split; [|split]].
  - intros fn Hm Hfn Hamp. rewrite namespace_files_app.
    destruct (namespace_files l1 namespace_name) as [files1|]; [|done].
    cbn [mbind option_bind namespace_files].
    rewrite decide_False by (rewrite Hm; done).
    rewrite decide_True by done. rewrite Hfn. cbn [mbind option_bind].
    rewrite decide_False by done.
    destruct (namespace_in_force l1 namespace_name) as [ns|]; [|done].
    cbn [mbind option_bind].
    by destruct (namespace_files l2 (Some ns)).
  - intros Hm Hfn. rewrite namespace_files_app.
    destruct (namespace_files l1 namespace_name) as [files1|]; [|done].
    cbn [mbind option_bind namespace_files].
    rewrite decide_False by (rewrite Hm; done).
    rewrite decide_True by done. by rewrite Hfn.
  - intros Hskip. rewrite namespace_files_app.
    destruct (namespace_files l1 namespace_name) as [files1|]; [|done].
    cbn [mbind option_bind namespace_files].
    rewrite namespace_in_force_app, namespace_in_force_cons,
      namespace_in_force_nil.
    destruct (decide (type it = "namespace")); [done|].
    destruct (decide (type it = "method")) as [Hm|Hm]; [|done].
    destruct Hskip as [?|Hamp]; [done|]. rewrite Hamp.
    cbn [mbind option_bind]. by rewrite decide_True by done.
  - apply namespace_files_published.
Qed.

Lemma namespace_files_methods_witness :
  namespace_files
    ([("namespacestd", std_namespace)]
     ++ ("m1", method_item) :: [("m2", method_item)]) None
  = (files1 ← namespace_files [("namespacestd", std_namespace)] None;
     ns ← namespace_in_force [("namespacestd", std_namespace)] None;
     files2 ← namespace_files [("m2", method_item)] (Some ns);
     Some (files1 ++ (method_file ns "f", [method_item]) :: files2)).
Proof.
  apply (proj1 (namespace_files_methods [("namespacestd", std_namespace)]
                  [("m2", method_item)] "m1" method_item None) "f");
    [reflexivity..|].
  intros Heq. discriminate Heq.
Defined.

(** ** Paths of Stage B *)

Section ReInversion.
Context {R : Type}.
Implicit Types (k : @cont R) (p : ascii → bool) (s u : string).

Lemma star_k_is_Some p k pos s caps :
  is_Some (k pos s caps) → is_Some (star_k p k pos s caps).
Proof.
  intros Hk. destruct s as [|c s]; [done|]. simpl.
  destruct (p c); [|done]. by destruct (star_k p k (S pos) s caps).
Qed.

Lemma star_k_skip_is_Some p k u s pos caps :
  all_in p u →
  is_Some (k (pos + String.length u) s caps) →
  is_Some (star_k p k pos (u +:+ s) caps).
Proof.
  intros Hu Hk.
  destruct (star_k_is_Some p k _ _ _ Hk) as [r Hr].
  exists r. by apply star_k_skip.
Qed.

Lemma star_k_Some_inv p k pos s caps r :
  star_k p k pos s caps = Some r →
  ∃ u s', s = u +:+ s' ∧ all_in p u
          ∧ k (pos + String.length u) s' caps = Some r.
Proof.
  revert pos. induction s as [|c s IH]; intros pos Hr.
  - exists "", "". simpl in *. by rewrite Nat.add_0_r.
  - simpl in Hr. destruct (p c) eqn:Hc.
    + destruct (star_k p k (S pos) s caps) as [r'|] eqn:Hs.
      * injection Hr as ->. destruct (IH _ Hs) as (u & s' & -> & Hu & Hk).
        exists (String c u), s'. rewrite append_cons. simpl.
        by rewrite Nat.add_succ_r.
      * exists "", (String c s). simpl. by rewrite Nat.add_0_r.
    + exists "", (String c s). simpl. by rewrite Nat.add_0_r.
Qed.

Lemma lit_k_nil k pos s caps : lit_k "" k pos s caps = k pos s caps.
Proof. done. Qed.

Lemma lit_k_Some_inv l k pos s caps r :
  lit_k l k pos s caps = Some r →
  ∃ s', s = l +:+ s' ∧ k (pos + String.length l) s' caps = Some r.
Proof.
  revert pos s. induction l as [|a l IH]; intros pos s Hr.
  - exists s. simpl in *. by rewrite Nat.add_0_r.
  - destruct s as [|c s]; [done|]. simpl in Hr.
    destruct (Ascii.eqb_spec a c) as [<-|]; [|done].
    destruct (IH _ _ Hr) as (s' & -> & Hk). exists s'.
    rewrite append_cons. simpl. by rewrite Nat.add_succ_r.
Qed.
End ReInversion.

(** X15.  The paths that Stage B skips as tables of contents are
    [toc.yml] itself and the paths that end with [/toc.yml] after a
    stretch without a newline, each also with one newline behind it. *)
Theorem is_toc_paths (path : string) :
  is_toc path = true
  ↔ ∃ d e, path = d +:+ "toc.yml" +:+ e
           ∧ (e = "" ∨ e = Str.nl)
           ∧ (d = "" ∨ ∃ d', all_in dot d' ∧ d = d' +:+ "/").
Proof.
  unfold is_toc, Re.rmatch, match_at, re_toc, cat.
  cbn [foldr match_k Nat.eqb]. split.
  - match goal with
    | |- context [lit_k "toc.yml" ?K 0 path _] => set (k := K)
    end.
    assert (∀ pos s caps r, lit_k "toc.yml" k pos s caps = Some r →
              ∃ e, s = "toc.yml" +:+ e ∧ (e = "" ∨ e = Str.nl)) as Hk.
    { intros pos s caps r (e & -> & He)%lit_k_Some_inv. exists e.
      split; [done|]. unfold k in He.
      destruct e as [|c [|??]]; [by left| |done].
      destruct (Ascii.eqb c "010") eqn:Hc; [|done].
      apply Ascii.eqb_eq in Hc as ->. by right. }
    match goal with
    | |- (if (match ?x with Some _ => _ | None => ?y end) is Some _
          then _ else _) = _ → _ =>
        destruct x eqn:Hbol; [|destruct y eqn:Hstar; [|done]]
    end; intros _.
    { destruct (Hk _ _ _ _ Hbol) as (e & -> & He). exists "", e. auto. }
    apply star_k_Some_inv in Hstar as (d' & s' & -> & Hd' & Hs').
    apply lit_k_Some_inv in Hs' as (s'' & -> & Hs'').
    cbn [lit_k] in Hs''. apply Hk in Hs'' as (e & -> & He).
    exists (d' +:+ "/"), e. rewrite append_assoc.
    split; [done|]. split; [done|]. right. by exists d'.
  - intros (d & e & -> & He & Hd).
    match goal with
    | |- (if ?x is Some _ then _ else _) = _ =>
        assert (is_Some x) as [? ->]; [|done]
    end.
    destruct Hd as [->|(d' & Hd' & ->)].
    { destruct He as [-> | ->]; by eexists. }
    match goal with
    | |- is_Some (match ?x with Some _ => _ | None => ?y end) =>
        assert (is_Some y) as Hy; [|by destruct x]
    end.
    rewrite append_assoc. apply star_k_skip_is_Some; [done|].
    rewrite lit_k_append, lit_k_nil. cbn beta.
    rewrite lit_k_append. destruct He as [-> | ->]; by eexists.
Qed.

Lemma startswith_yml_ext stem :
  Str.startswith "yml" stem = false →
  Str.startswith "yml" (stem +:+ ".yml") = false.
Proof.
  destruct stem as [|a [|b [|c s]]]; intros Hs.
  - done.
  - change (Str.startswith "yml" (String a ".yml") = false). simpl.
    by destruct (Ascii.eqb "y" a).
  - change (Str.startswith "yml" (String a (String b ".yml")) = false). simpl.
    destruct (Ascii.eqb "y" a); [|done]. by destruct (Ascii.eqb "m" b).
  - rewrite !append_cons. simpl in *.
    destruct (Ascii.eqb "y" a); [|done].
    destruct (Ascii.eqb "m" b); [|done].
    by destruct (Ascii.eqb "l" c).
Qed.

Lemma sub_yml_stem stem pos :
  Str.contains "yml" stem = false →
  sub_loop re_yml (λ _ _, ".html") None 0 pos (stem +:+ ".yml")
  = stem +:+ ".html".
Proof.
  revert pos. induction stem as [|c stem IH]; intros pos Hs.
  - rewrite !append_nil_l. cbn [sub_loop].
    assert (match_at re_yml pos ".yml" = Some (4, ∅)) as ->.
    { unfold match_at, re_yml, cat. cbn. do 2 f_equal. lia. }
    cbn [sub_loop]. unfold match_at, re_yml, cat. by cbn.
  - rewrite !append_cons. cbn [sub_loop].
    assert (match_at re_yml pos (String c (stem +:+ ".yml")) = None) as ->.
    { unfold match_at, re_yml, cat. cbn [foldr match_k].
      destruct (dot c); [|done]. apply lit_k_None.
      apply startswith_yml_ext, contains_startswith.
      by eapply contains_tail. }
    rewrite IH; [done|]. by eapply contains_tail.
Qed.

(** X16.  For a record [stem.yml] whose stem does not hold the letters
    [yml], every reference to an item of the record has the target
    [/stem.html]; a reference is made if and only if the item has a name
    and a full name, which it takes over together with the uid. *)
Theorem make_ref_href (stem : string) (item : Item) :
  Str.contains "yml" stem = false →
  make_ref (stem +:+ ".yml") item
  = (n ← name item; fn ← fullName item;
     Some (mkRef (uid item) n ("/" +:+ stem +:+ ".html") fn)).
Proof.
  intros Hs. unfold make_ref, Re.sub. by rewrite sub_yml_stem.
Qed.

Lemma make_ref_href_witness :
  make_ref ("api/a" +:+ ".yml") class_item
  = (n ← name class_item; fn ← fullName class_item;
     Some (mkRef (uid class_item) n ("/" +:+ "api/a" +:+ ".html") fn)).
Proof.
  apply (make_ref_href "api/a" class_item). reflexivity.
Defined.

(** ** The first loop of Stage B *)

Lemma listed_nil fs : listed fs [] = [].
Proof. done. Qed.

Lemma listed_cons fs path paths :
  listed fs (path :: paths)
  = (if is_toc path then []
     else (λ item, (path, item))
            <$> default [] (content_items <$> fs !! path))
    ++ listed fs paths.
Proof.
  unfold listed. destruct (is_toc path) eqn:Htoc.
  - by rewrite filter_cons_False by (by rewrite Htoc).
  - by rewrite filter_cons_True by done.
Qed.

Lemma make_ref_uid path item r : make_ref path item = Some r → ref_uid r = uid item.
Proof.
  unfold make_ref. intros (n & _ & (fn & _ & [= <-])%bind_Some)%bind_Some.
  done.
Qed.

Lemma collect_items_spec path l l0 m0 :
  collect_items path l l0 m0
  = (refs ← mapM (make_ref path) l;
     Some (l0 ++ refs, foldl (λ m r, <[ref_uid r := r]> m) m0 refs)).
Proof.
  revert l0 m0. induction l as [|item l IH]; intros l0 m0.
  - simpl. by rewrite app_nil_r.
  - cbn [collect_items mapM].
    destruct (make_ref path item) as [r|] eqn:Hr; [|done].
    cbn [mbind option_bind]. rewrite IH.
    destruct (mapM (make_ref path) l) as [refs|]; [|done].
    cbn [mbind option_bind mret option_ret foldl].
    rewrite <-(assoc_L (++)). cbn [app].
    by rewrite (make_ref_uid _ _ _ Hr).
Qed.

Lemma collect_spec fs paths l0 m0 l m :
  collect fs paths l0 m0 = Some (l, m) →
  ∃ refs,
    Forall2 (λ pi r, make_ref pi.1 pi.2 = Some r) (listed fs paths) refs
    ∧ l = l0 ++ refs
    ∧ m = foldl (λ m r, <[ref_uid r := r]> m) m0 refs.
Proof.
  revert l0 m0. induction paths as [|path paths IH]; intros l0 m0 Hc.
  - injection Hc as <- <-. exists []. by rewrite app_nil_r.
  - rewrite listed_cons. cbn [collect] in Hc.
    destruct (is_toc path); [by apply IH|].
    apply bind_Some in Hc as (c & Hfs & Hc).
    rewrite collect_items_spec in Hc.
    destruct (mapM (make_ref path) (content_items c)) as [refs1|] eqn:Hrefs1;
      [|done].
    cbn [mbind option_bind] in Hc.
    destruct (IH _ _ Hc) as (refs2 & Hall & -> & ->).
    exists (refs1 ++ refs2). split; [|split].
    + apply Forall2_app; [|done]. rewrite Hfs. cbn [fmap option_fmap option_map default].
      apply mapM_Some in Hrefs1. by apply Forall2_fmap_l.
    + by rewrite (assoc_L (++)).
    + by rewrite foldl_app.
Qed.

Lemma collect_is_Some fs paths l0 m0 :
  is_Some (collect fs paths l0 m0)
  ↔ readable fs paths
    ∧ Forall (λ pi, is_Some (name pi.2) ∧ is_Some (fullName pi.2))
        (listed fs paths).
Proof.
  revert l0 m0. induction paths as [|path paths IH]; intros l0 m0.
  - split; [|by eexists]. intros _. split; [|constructor].
    by intros p ?%elem_of_nil.
  - rewrite listed_cons. cbn [collect]. unfold readable.
    destruct (is_toc path) eqn:Htoc.
    { rewrite IH. unfold readable. split; intros [Hr Hl]; (split; [|done]).
      - intros p [->|?]%elem_of_cons; [congruence|eauto].
      - intros p ??. apply Hr; [by apply list_elem_of_further|done]. }
    rewrite Forall_app.
    destruct (fs !! path) as [c|] eqn:Hfs; cbn [mbind option_bind].
    2:{ split; [by intros [? ?]|]. intros [Hr _].
        destruct (Hr path) as [? ?]; [apply list_elem_of_here|done|congruence]. }
    rewrite collect_items_spec.
    cbn [fmap option_fmap option_map default].
    destruct (mapM (make_ref path) (content_items c)) as [refs1|] eqn:Hrefs1;
      cbn [mbind option_bind].
    + rewrite IH. unfold readable.
      assert (Forall (λ pi : string * Item,
                is_Some (name pi.2) ∧ is_Some (fullName pi.2))
                ((λ item, (path, item)) <$> content_items c)) as Hnames.
      { apply Forall_fmap, Forall_forall. intros item Hitem. cbn.
        apply mapM_Some in Hrefs1.
        apply list_elem_of_lookup in Hitem as [i Hi].
        destruct (Forall2_lookup_l _ _ _ _ _ Hrefs1 Hi) as (r & _ & Hr).
        unfold make_ref in Hr.
        apply bind_Some in Hr as (n & -> & Hr).
        apply bind_Some in Hr as (fn & -> & _). split; by eexists. }
      split.
      * intros [Hr Hl]. split; [|done].
        intros p [->|?]%elem_of_cons ?; [by eexists|eauto].
      * intros [Hr [_ Hl]]. split; [|done].
        intros p ??. apply Hr; [by apply list_elem_of_further|done].
    + split; [by intros [? ?]|]. intros [_ [Hnames _]]. exfalso.
      apply eq_None_not_Some in Hrefs1. apply Hrefs1.
      apply mapM_is_Some, Forall_forall. intros item Hitem.
      rewrite Forall_fmap, Forall_forall in Hnames.
      destruct (Hnames item Hitem) as [[n Hn] [fn Hfn]]. cbn in Hn, Hfn.
      unfold make_ref, compose. rewrite Hn, Hfn. by eexists.
Qed.

Lemma foldl_insert_lookup (refs : list GlobalReference) u :
  foldl (λ m r, <[ref_uid r := r]> m) (∅ : gmap string GlobalReference) refs
    !! u
  = xref_of refs u.
Proof.
  unfold xref_of. induction refs as [|r refs IH] using rev_ind; [done|].
  rewrite foldl_app, filter_app. cbn [foldl].
  destruct (decide (ref_uid r = u)) as [Hu|Hu].
  - rewrite Hu, lookup_insert_eq.
    rewrite filter_cons_True by done. rewrite filter_nil. by rewrite list.last_snoc.
  - rewrite lookup_insert_ne by done.
    rewrite filter_cons_False by done. rewrite filter_nil, app_nil_r. done.
Qed.

(** ** The second loop of Stage B *)

Lemma pruned_marks m a b u : pruned m a b → marks m b u ↔ marks m a u.
Proof.
  intros (Hp & Hc & Hi & _). unfold marks. rewrite Hp, Hc, Hi.
  split; intros [Hu Hl]; (split; [done|]).
  - destruct Hl as [Hl|[Hl|Hl]].
    + left. destruct (parent a) as [p|]; [|done]. simpl in Hl.
      by case_bool_decide.
    + right; left. destruct (children a) as [ch|]; [|done]. simpl in *.
      by apply list_elem_of_filter in Hl as [_ ?].
    + right; right. destruct (inheritedMembers a) as [ch|]; [|done].
      simpl in *. by apply list_elem_of_filter in Hl as [_ ?].
  - destruct Hl as [Hl|[Hl|Hl]].
    + left. rewrite Hl. simpl. by rewrite bool_decide_eq_true_2.
    + right; left. destruct (children a) as [ch|]; [|done]. simpl in *.
      by apply list_elem_of_filter.
    + right; right. destruct (inheritedMembers a) as [ch|]; [|done].
      simpl in *. by apply list_elem_of_filter.
Qed.

Lemma pruned_linked m a b u : pruned m a b → linked b u → marks m a u.
Proof.
  intros Hab Hl. apply (pruned_marks m a b u Hab). split; [|done].
  destruct Hab as (Hp & Hc & Hi & _). unfold linked in Hl.
  rewrite Hp, Hc, Hi in Hl. destruct Hl as [Hl|[Hl|Hl]].
  - destruct (parent a) as [p|]; [|done]. simpl in Hl.
    case_bool_decide; [|done]. by injection Hl as ->.
  - destruct (children a) as [ch|]; [|by apply elem_of_nil in Hl].
    simpl in Hl. by apply list_elem_of_filter in Hl as [? _].
  - destruct (inheritedMembers a) as [ch|]; [|by apply elem_of_nil in Hl].
    simpl in Hl. by apply list_elem_of_filter in Hl as [? _].
Qed.

Lemma filter_filter_same {A} (P : A → Prop) `{∀ x, Decision (P x)} (l : list A) :
  filter P (filter P l) = filter P l.
Proof.
  induction l as [|x l IH]; [done|].
  destruct (decide (P x)).
  - rewrite !filter_cons_True by done. by rewrite IH.
  - by rewrite !filter_cons_False by done.
Qed.

Lemma pruned_idemp m a b c : pruned m a b → pruned m b c → c = b.
Proof.
  intros (Hp & Hc & Hi & _) (Hp' & Hc' & Hi' & ->).
  assert (parent c = parent b) as ->.
  { rewrite Hp', Hp. destruct (parent a) as [p|]; [|done]. simpl.
    case_bool_decide; [|done]. simpl. by rewrite bool_decide_eq_true_2. }
  assert (children c = children b) as ->.
  { rewrite Hc', Hc. destruct (children a) as [ch|]; [|done]. simpl.
    by rewrite filter_filter_same. }
  assert (inheritedMembers c = inheritedMembers b) as ->.
  { rewrite Hi', Hi. destruct (inheritedMembers a) as [ch|]; [|done]. simpl.
    by rewrite filter_filter_same. }
  by destruct b.
Qed.

Lemma pruned_trans m a b c : pruned m a b → pruned m b c → pruned m a c.
Proof. intros Hab Hbc. by rewrite (pruned_idemp m a b c). Qed.

Lemma pruned_make_ref m path a b :
  pruned m a b → make_ref path b = make_ref path a.
Proof. intros (_ & _ & _ & ->). done. Qed.

Lemma Forall2_pruned_trans m l1 l2 l3 :
  Forall2 (pruned m) l1 l2 → Forall2 (pruned m) l2 l3 →
  Forall2 (pruned m) l1 l3.
Proof.
  intros H12. revert l3. induction H12 as [|a b l1 l2 Hab _ IH]; intros l3 H23;
    inversion H23 as [|? c ? l3' Hbc Hrest]; subst; constructor.
  - by eapply pruned_trans.
  - by apply IH.
Qed.

Lemma Forall2_pruned_idemp m l1 l2 l3 :
  Forall2 (pruned m) l1 l2 → Forall2 (pruned m) l2 l3 → l3 = l2.
Proof.
  intros H12. revert l3. induction H12 as [|a b l1 l2 Hab _ IH]; intros l3 H23;
    inversion H23 as [|? c ? l3' Hbc Hrest]; subst; [done|].
  f_equal; [by eapply pruned_idemp|by apply IH].
Qed.

Lemma Forall2_pruned_marks m l1 l2 u :
  Forall2 (pruned m) l1 l2 →
  (∃ item, item ∈ l2 ∧ marks m item u) ↔ (∃ item, item ∈ l1 ∧ marks m item u).
Proof.
  intros H12. split.
  - intros (b & Hb & Hm). apply list_elem_of_lookup in Hb as [i Hi].
    destruct (Forall2_lookup_r _ _ _ _ _ H12 Hi) as (a & Ha & Hab).
    exists a. split; [by eapply list_elem_of_lookup_2|].
    by apply (pruned_marks m a b u Hab).
  - intros (a & Ha & Hm). apply list_elem_of_lookup in Ha as [i Hi].
    destruct (Forall2_lookup_l _ _ _ _ _ H12 Hi) as (b & Hb & Hab).
    exists b. split; [by eapply list_elem_of_lookup_2|].
    by apply (pruned_marks m a b u Hab).
Qed.

Lemma lookup_own_uids (m : gmap string GlobalReference) us gs :
  (∀ u g, m !! u = Some g → ref_uid g = u) →
  Forall2 (λ u g, m !! u = Some g) us gs → ref_uid <$> gs = us.
Proof.
  intros Hown. induction 1 as [|u g us gs Hug _ IH]; [done|].
  rewrite fmap_cons. f_equal; [by apply Hown|done].
Qed.

Section StageBMore.
Context `{PySet}.
Implicit Types (m : gmap string GlobalReference).

Lemma rewrite_content_spec m c :
  ∃ l refs,
    rewrite_content m c = Some (mkContent l (Some refs))
    ∧ Forall2 (pruned m) (content_items c) l
    ∧ (∀ g, g ∈ refs
            ↔ ∃ u, (∃ item, item ∈ content_items c ∧ marks m item u)
                   ∧ m !! u = Some g)
    ∧ ((∀ u g, m !! u = Some g → ref_uid g = u) → NoDup refs).
Proof.
  destruct (rewrite_items_spec m (content_items c) [])
    as (l & added & Hl & Hpruned & Hadded).
  simpl in Hl.
  assert (∀ u, u ∈ set_iter added
               ↔ ∃ item, item ∈ content_items c ∧ marks m item u)
    as Huids by (intros u; by rewrite set_iter_elem_of).
  destruct (mapM (λ reference, m !! reference) (set_iter added))
    as [refs|] eqn:Hrefs.
  2:{ exfalso. apply eq_None_not_Some in Hrefs. apply Hrefs.
      apply mapM_is_Some, Forall_forall. intros u Hu.
      apply Huids in Hu as (item & _ & Hin & _). done. }
  exists l, refs. pose proof Hrefs as Hrefs'. apply mapM_Some in Hrefs.
  split; [|split; [done|split]].
  - unfold rewrite_content. rewrite Hl, Hrefs'. done.
  - intros g. split.
    + intros Hg. apply list_elem_of_lookup in Hg as [i Hi].
      destruct (Forall2_lookup_r _ _ _ _ _ Hrefs Hi) as (u & Hu & Hug).
      apply list_elem_of_lookup_2 in Hu. apply Huids in Hu. eauto.
    + intros (u & Hm & Hg).
      assert (u ∈ set_iter added) as Hu by (by apply Huids).
      apply list_elem_of_lookup in Hu as [i Hi].
      destruct (Forall2_lookup_l _ _ _ _ _ Hrefs Hi) as (g' & Hg' & Hug).
      apply list_elem_of_lookup_2 in Hg'. congruence.
  - intros Hown. apply (NoDup_fmap_1 ref_uid).
    assert (ref_uid <$> refs = set_iter added) as ->; [|apply set_iter_NoDup].
    by eapply lookup_own_uids.
Qed.

Lemma readable_insert fs paths path c c' :
  fs !! path = Some c →
  readable (<[path := c']> fs) paths ↔ readable fs paths.
Proof.
  intros Hc. unfold readable. split; intros Hr p Hp Htoc.
  - specialize (Hr p Hp Htoc). destruct (decide (path = p)) as [<-|Hne].
    + by eexists.
    + by rewrite lookup_insert_ne in Hr.
  - destruct (decide (path = p)) as [<-|Hne].
    + rewrite lookup_insert_eq. by eexists.
    + rewrite lookup_insert_ne by done. by apply Hr.
Qed.

Lemma rewrite_is_Some m paths fs :
  is_Some (rewrite m fs paths) ↔ readable fs paths.
Proof.
  revert fs. induction paths as [|path paths IH]; intros fs.
  - split; [|by eexists]. by intros _ p ?%elem_of_nil.
  - cbn [rewrite]. destruct (is_toc path) eqn:Htoc.
    { rewrite IH. unfold readable. split; intros Hr p.
      - intros [->|?]%elem_of_cons; [congruence|eauto].
      - intros ??. apply Hr; [by apply list_elem_of_further|done]. }
    destruct (fs !! path) as [c|] eqn:Hfs; cbn [mbind option_bind].
    2:{ split; [by intros [? ?]|]. intros Hr.
        destruct (Hr path) as [? ?]; [apply list_elem_of_here|done|congruence]. }
    destruct (rewrite_content_spec m c) as (l & refs & -> & _).
    cbn [mbind option_bind]. rewrite IH, readable_insert by done.
    unfold readable. split; intros Hr p.
    + intros [->|?]%elem_of_cons ?; [by eexists|eauto].
    + intros ??. apply Hr; [by apply list_elem_of_further|done].
Qed.

Lemma rewrite_spec m paths fs fs' :
  rewrite m fs paths = Some fs' →
  ∀ p,
    (p ∈ paths → is_toc p = false →
     ∃ c c' refs,
       fs !! p = Some c ∧ fs' !! p = Some c'
       ∧ Forall2 (pruned m) (content_items c) (content_items c')
       ∧ references c' = Some refs
       ∧ (∀ g, g ∈ refs
               ↔ ∃ u, (∃ item, item ∈ content_items c ∧ marks m item u)
                      ∧ m !! u = Some g)
       ∧ ((∀ u g, m !! u = Some g → ref_uid g = u) → NoDup refs))
    ∧ (p ∉ paths ∨ is_toc p = true → fs' !! p = fs !! p).
Proof.
  revert fs. induction paths as [|path paths IH]; intros fs Hrw p.
  - injection Hrw as <-. split; [by intros ?%elem_of_nil|done].
  - cbn [rewrite] in Hrw. destruct (is_toc path) eqn:Htoc.
    { destruct (IH _ Hrw p) as [IH1 IH2]. split.
      - intros [->|?]%elem_of_cons ?; [congruence|eauto].
      - intros [Hp|Hp]; apply IH2; [|by right].
        left. intros ?. apply Hp. by apply list_elem_of_further. }
    apply bind_Some in Hrw as (c & Hc & Hrw).
    destruct (rewrite_content_spec m c)
      as (l1 & refs1 & Hc1 & Hpr1 & Hrefs1 & Hnd1).
    rewrite Hc1 in Hrw. cbn [mbind option_bind] in Hrw.
    destruct (IH _ Hrw p) as [IH1 IH2]. split.
    + intros Hp Hptoc. destruct (decide (p ∈ paths)) as [Hin|Hnin].
      * destruct (IH1 Hin Hptoc)
          as (c0 & c' & refs & Hc0 & Hc' & Hpr & Href & Hrefs & Hnd).
        destruct (decide (path = p)) as [->|Hne].
        -- rewrite lookup_insert_eq in Hc0. injection Hc0 as <-.
           exists c, c', refs. cbn [content_items] in *.
           split; [done|]. split; [done|].
           split; [by eapply Forall2_pruned_trans|].
           split; [done|]. split; [|done].
           intros g. rewrite Hrefs.
           split; intros (u & Hm & Hg); exists u; (split; [|done]);
             by apply (Forall2_pruned_marks m _ _ u Hpr1).
        -- rewrite lookup_insert_ne in Hc0 by done.
           exists c0, c', refs. done.
      * apply elem_of_cons in Hp as [->|?]; [|done].
        exists c, (mkContent l1 (Some refs1)), refs1.
        split; [done|]. split; [|done].
        rewrite IH2 by (by left). by rewrite lookup_insert_eq.
    + intros Hp. rewrite IH2.
      * apply lookup_insert_ne. intros ->. destruct Hp as [Hp|Hp]; [|congruence].
        apply Hp, list_elem_of_here.
      * destruct Hp as [Hp|Hp]; [left|by right].
        intros ?. apply Hp. by apply list_elem_of_further.
Qed.
End StageBMore.

Lemma xref_of_Some l u g : xref_of l u = Some g → g ∈ l ∧ ref_uid g = u.
Proof.
  unfold xref_of. intros Hg%last_Some_elem_of.
  by apply list_elem_of_filter in Hg as [? ?].
Qed.

Lemma mapM_make_ref_pruned m path l l' :
  Forall2 (pruned m) l l' →
  mapM (make_ref path) l' = mapM (make_ref path) l.
Proof.
  induction 1 as [|a b l l' Hab _ IH]; [done|].
  cbn [mapM]. by rewrite (pruned_make_ref m path a b), IH.
Qed.

Lemma collect_ext m fs fs' paths l0 m0 :
  (∀ p, p ∈ paths → is_toc p = false →
     ∃ c c', fs !! p = Some c ∧ fs' !! p = Some c'
             ∧ Forall2 (pruned m) (content_items c) (content_items c')) →
  collect fs' paths l0 m0 = collect fs paths l0 m0.
Proof.
  revert l0 m0. induction paths as [|path paths IH]; intros l0 m0 Hp; [done|].
  cbn [collect].
  assert (∀ l1 m1, collect fs' paths l1 m1 = collect fs paths l1 m1) as IH'.
  { intros l1 m1. apply IH. intros p ??. apply Hp; [|done].
    by apply list_elem_of_further. }
  destruct (is_toc path) eqn:Htoc; [done|].
  destruct (Hp path) as (c & c' & -> & -> & Hpr);
    [apply list_elem_of_here|done|].
  cbn [mbind option_bind]. rewrite !collect_items_spec.
  rewrite (mapM_make_ref_pruned m path _ _ Hpr).
  destruct (mapM (make_ref path) (content_items c)); [|done].
  cbn [mbind option_bind]. apply IH'.
Qed.

Lemma is_toc_xrefmap_yml : is_toc xrefmap_yml = false.
Proof. reflexivity. Qed.

Section StageBRuns.
Context `{PySet}.

(** What a run of Stage B that comes to its end has done. *)
Lemma generate_xrefmap_Some fs paths fs' l :
  generate_xrefmap fs paths = Some (fs', l) →
  ∃ m, collect fs paths [] ∅ = Some (l, m)
       ∧ (∀ u, m !! u = xref_of l u)
       ∧ Forall2 (λ pi r, make_ref pi.1 pi.2 = Some r) (listed fs paths) l
       ∧ (xrefmap_yml ∉ paths)
       ∧ fs' !! xrefmap_yml = None
       ∧ ∀ p,
           (p ∈ paths → is_toc p = false →
            ∃ c c' refs,
              fs !! p = Some c ∧ fs' !! p = Some c'
              ∧ Forall2 (pruned m) (content_items c) (content_items c')
              ∧ references c' = Some refs
              ∧ (∀ g, g ∈ refs
                      ↔ ∃ u, (∃ item, item ∈ content_items c
                                      ∧ marks m item u)
                             ∧ m !! u = Some g)
              ∧ NoDup refs)
           ∧ (p ≠ xrefmap_yml → p ∉ paths ∨ is_toc p = true →
              fs' !! p = fs !! p).
Proof.
  unfold generate_xrefmap. intros Hg.
  apply bind_Some in Hg as ([l0 m] & Hc & Hg).
  apply bind_Some in Hg as (fs1 & Hrw & [= <- <-]).
  exists m. split; [done|].
  destruct (collect_spec _ _ _ _ _ _ Hc) as (refs & Hall & -> & ->).
  assert (∀ u, foldl (λ m r, <[ref_uid r := r]> m) ∅ refs !! u
               = xref_of ([] ++ refs) u) as Hm
    by (intros u; apply foldl_insert_lookup).
  split; [done|]. split; [done|].
  set (m := foldl (λ m r, <[ref_uid r := r]> m) ∅ refs) in *.
  assert (∀ u g, m !! u = Some g → ref_uid g = u) as Hown.
  { intros u g Hg. rewrite Hm in Hg. by apply xref_of_Some in Hg as [_ ?]. }
  assert (xrefmap_yml ∉ paths) as Hnin.
  { intros Hin.
    assert (is_Some (rewrite m (delete xrefmap_yml fs) paths)) as Hsome
      by (by eexists).
    apply rewrite_is_Some in Hsome.
    destruct (Hsome _ Hin is_toc_xrefmap_yml) as [c Hc'].
    by rewrite lookup_delete_eq in Hc'. }
  pose proof (rewrite_spec m paths _ _ Hrw) as Hspec.
  split; [done|]. split.
  { rewrite (proj2 (Hspec xrefmap_yml)) by (by left).
    apply lookup_delete_eq. }
  intros p. destruct (Hspec p) as [H1 H2]. split.
  - intros Hin Htoc.
    destruct (H1 Hin Htoc)
      as (c & c' & rs & Hfs & Hfs' & Hpr & Href & Hrefs & Hnd).
    apply lookup_delete_Some in Hfs as [_ Hfs].
    exists c, c', rs. auto 10.
  - intros Hne Hp. rewrite H2 by done. by apply lookup_delete_ne.
Qed.

(** C2.  The rewrite pass of Stage B, for every record that it
    handles, which is every path of the list that is not a table of
    contents: the record is stored again with every item pruned against
    the reference map of the first loop (a parent that is not in the map
    is deleted, the children and the inherited members are filtered to
    the uids of the map, and nothing else changes), and with a list of
    references that holds, each once, the entries of the map for the
    uids marked as referenced in the record and no others: an entry is
    attached if and only if it is the entry of a parent in the map, of a
    retained child or of a retained inherited member of an item of the
    record. *)
Theorem rewrite_pass_references (fs fs' : Files) (paths : list string)
    (xreflist : list GlobalReference) :
  generate_xrefmap fs paths = Some (fs', xreflist) →
  ∃ xrefmap,
    collect fs paths [] ∅ = Some (xreflist, xrefmap)
    ∧ ∀ path, path ∈ paths → is_toc path = false →
        ∃ content content' refs,
          fs !! path = Some content ∧ fs' !! path = Some content'
          ∧ Forall2 (pruned xrefmap)
              (content_items content) (content_items content')
          ∧ references content' = Some refs
          ∧ NoDup refs
          ∧ ∀ g, g ∈ refs
                 ↔ ∃ item u, item ∈ content_items content
                             ∧ marks xrefmap item u ∧ xrefmap !! u = Some g.
Proof.
  intros (m & Hc & _ & _ & _ & _ & Hspec)%generate_xrefmap_Some.
  exists m. split; [done|]. intros path Hin Htoc.
  destruct (proj1 (Hspec path) Hin Htoc)
    as (c & c' & refs & Hfs & Hfs' & Hpr & Href & Hrefs & Hnd).
  exists c, c', refs. do 5 (split; [done|]).
  intros g. rewrite Hrefs. split.
  - intros (u & (item & ? & ?) & ?). eauto.
  - intros (item & u & ? & ? & ?). eauto.
Qed.

(** X17.  The list written to [xrefmap.yml] has one entry for each item
    of each record that is not a table of contents, in the order of the
    paths and of the items, an item that is listed twice being entered
    twice: the entry has the uid, the name and the full name of the item
    and, as its target, the path of the record after a slash, with
    [.yml] replaced. *)
Theorem generate_xrefmap_list (fs fs' : Files) (paths : list string)
    (xreflist : list GlobalReference) :
  generate_xrefmap fs paths = Some (fs', xreflist) →
  Forall2 (λ pi r,
             ref_uid r = uid pi.2
             ∧ name pi.2 = Some (ref_name r)
             ∧ fullName pi.2 = Some (ref_fullName r)
             ∧ ref_href r
               = "/" +:+ Re.sub re_yml (λ _ _, ".html") pi.1)
    (listed fs paths) xreflist.
Proof.
  intros (m & _ & _ & Hall & _)%generate_xrefmap_Some.
  eapply Forall2_impl; [exact Hall|]. cbn beta.
  intros [path item] r Hr. cbn [fst snd] in *. unfold make_ref in Hr.
  apply bind_Some in Hr as (n & Hn & Hr).
  apply bind_Some in Hr as (fn & Hfn & [= <-]). done.
Qed.

(** X18.  Stage B runs to its end if and only if [xrefmap.yml] is not
    among the paths, every path that is not a table of contents names a
    record, and every item of these records has a name and a full name.
    A table of contents need not be there; and [xrefmap.yml] among the
    paths aborts the second loop, which finds the reference map where it
    looks for the items. *)
Theorem generate_xrefmap_succeeds (fs : Files) (paths : list string) :
  is_Some (generate_xrefmap fs paths)
  ↔ (xrefmap_yml ∉ paths)
    ∧ readable fs paths
    ∧ Forall (λ pi, is_Some (name pi.2) ∧ is_Some (fullName pi.2))
        (listed fs paths).
Proof.
  split.
  - intros [[fs' l] Hg].
    pose proof Hg as (m & Hc & _ & _ & Hnin & _)%generate_xrefmap_Some.
    split; [done|]. apply (collect_is_Some fs paths [] ∅). by eexists.
  - intros (Hnin & Hr & Hnames).
    destruct (proj2 (collect_is_Some fs paths [] ∅) (conj Hr Hnames))
      as [[l m] Hc].
    unfold generate_xrefmap. rewrite Hc. cbn [mbind option_bind].
    assert (is_Some (rewrite m (delete xrefmap_yml fs) paths)) as [fs' ->];
      [|by eexists].
    apply rewrite_is_Some. intros p Hp Htoc.
    rewrite lookup_delete_ne by (by intros <-). by apply Hr.
Qed.

(** X19.  Stage B creates no record, and it deletes none but a record at
    [xrefmap.yml], whose place the reference map takes; every other
    record that is a table of contents or that is not among the paths is
    left as it is. *)
Theorem generate_xrefmap_frame (fs fs' : Files) (paths : list string)
    (xreflist : list GlobalReference) :
  generate_xrefmap fs paths = Some (fs', xreflist) →
  fs' !! xrefmap_yml = None
  ∧ (∀ path, path ≠ xrefmap_yml →
       (is_Some (fs' !! path) ↔ is_Some (fs !! path)))
  ∧ (∀ path, path ≠ xrefmap_yml →
       path ∉ paths ∨ is_toc path = true → fs' !! path = fs !! path).
Proof.
  intros (m & _ & _ & _ & _ & Hxm & Hspec)%generate_xrefmap_Some.
  split; [done|]. split.
  - intros path Hne. destruct (Hspec path) as [H1 H2].
    destruct (decide (path ∈ paths)) as [Hin|Hnin];
      [|by rewrite H2 by auto].
    destruct (is_toc path) eqn:Htoc; [by rewrite H2 by auto|].
    destruct (H1 Hin eq_refl) as (c & c' & refs & -> & -> & _).
    split; by eexists.
  - intros path. by apply Hspec.
Qed.

(** X20.  After Stage B no link of a rewritten record dangles: the
    parent, every child and every inherited member that an item of the
    record still names is the uid of an entry of the list written to
    [xrefmap.yml], and the last entry with this uid is among the
    references of the record. *)
Theorem generate_xrefmap_no_dangling (fs fs' : Files) (paths : list string)
    (xreflist : list GlobalReference) (path : string) (content' : Content)
    (item' : Item) (u : string) :
  generate_xrefmap fs paths = Some (fs', xreflist) →
  path ∈ paths → is_toc path = false →
  fs' !! path = Some content' → item' ∈ content_items content' →
  linked item' u →
  ∃ g refs,
    xref_of xreflist u = Some g ∧ g ∈ xreflist ∧ ref_uid g = u
    ∧ references content' = Some refs ∧ g ∈ refs.
Proof.
  intros (m & _ & Hm & _ & _ & _ & Hspec)%generate_xrefmap_Some
    Hin Htoc Hc' Hitem Hl.
  destruct (proj1 (Hspec path) Hin Htoc)
    as (c & c0 & refs & Hc & Hc0 & Hpr & Href & Hrefs & _).
  assert (c0 = content') as -> by congruence.
  apply list_elem_of_lookup in Hitem as [i Hi].
  destruct (Forall2_lookup_r _ _ _ _ _ Hpr Hi) as (a & Ha & Hab).
  apply list_elem_of_lookup_2 in Ha.
  pose proof (pruned_linked m a item' u Hab Hl) as Hmarks.
  destruct Hmarks as [[g Hg] Hlinks].
  exists g, refs. rewrite <-Hm.
  destruct (xref_of_Some xreflist u g) as [? ?]; [by rewrite <-Hm|].
  do 4 (split; [done|]). apply Hrefs. exists u. split; [|done].
  exists a. split; [done|]. split; [by eexists|done].
Qed.

(** X21.  Running Stage B again on its own result succeeds, writes the
    same list to [xrefmap.yml] and leaves the items of every record as
    they are; the references of a record are the same up to their
    order. *)
Theorem generate_xrefmap_again (fs fs' : Files) (paths : list string)
    (xreflist : list GlobalReference) :
  generate_xrefmap fs paths = Some (fs', xreflist) →
  ∃ fs'',
    generate_xrefmap fs' paths = Some (fs'', xreflist)
    ∧ ∀ path content', fs' !! path = Some content' →
        ∃ content'',
          fs'' !! path = Some content''
          ∧ content_items content'' = content_items content'
          ∧ (references content'' = references content'
             ∨ ∃ refs'' refs',
                 references content'' = Some refs''
                 ∧ references content' = Some refs'
                 ∧ refs'' ≡ₚ refs').
Proof.
  intros (m & Hc & Hm & _ & Hnin & Hxm & Hspec)%generate_xrefmap_Some.
  assert (collect fs' paths [] ∅ = Some (xreflist, m)) as Hc'.
  { rewrite <-Hc. apply (collect_ext m). intros p Hp Htoc.
    destruct (proj1 (Hspec p) Hp Htoc) as (c & c' & refs & ? & ? & ? & _).
    eauto. }
  assert (is_Some (generate_xrefmap fs' paths)) as [[fs'' l''] Hg'].
  { unfold generate_xrefmap. rewrite Hc'. cbn [mbind option_bind].
    assert (is_Some (rewrite m (delete xrefmap_yml fs') paths)) as [fs'' ->];
      [|by eexists].
    apply rewrite_is_Some. intros p Hp Htoc.
    rewrite lookup_delete_ne by (by intros <-).
    destruct (proj1 (Hspec p) Hp Htoc) as (c & c' & refs & _ & -> & _).
    by eexists. }
  pose proof Hg' as (m' & Hc'' & _ & _ & _ & Hxm' & Hspec')%generate_xrefmap_Some.
  assert (l'' = xreflist ∧ m' = m) as [-> ->] by (split; congruence).
  exists fs''. split; [done|].
  intros path content' Hcontent'.
  assert (path ≠ xrefmap_yml) as Hne by (intros ->; congruence).
  destruct (Hspec path) as [H1 H2]. destruct (Hspec' path) as [H1' H2'].
  destruct (decide (path ∈ paths)) as [Hin|Hnotin].
  2:{ exists content'. rewrite H2' by auto. auto. }
  destruct (is_toc path) eqn:Htoc.
  { exists content'. rewrite H2' by auto. auto. }
  destruct (H1 Hin eq_refl)
    as (c & c0 & refs' & Hfs & Hfs' & Hpr & Href & Hrefs & Hnd).
  assert (c0 = content') as -> by congruence.
  destruct (H1' Hin eq_refl)
    as (c1 & content'' & refs'' & Hfs1 & Hfs'' & Hpr' & Href' & Hrefs' & Hnd').
  assert (c1 = content') as -> by congruence.
  exists content''. split; [done|].
  split; [by eapply Forall2_pruned_idemp|].
  right. exists refs'', refs'. split; [done|]. split; [done|].
  apply NoDup_Permutation; [done|done|].
  intros g. rewrite Hrefs, Hrefs'.
  split; intros (u & Hmk & Hg); exists u; (split; [|done]);
    by apply (Forall2_pruned_marks m _ _ u Hpr).
Qed.
End StageBRuns.

Lemma rewrite_pass_references_witness :
  ∃ xrefmap,
    collect corpus corpus_paths [] ∅ = Some (corpus_refs, xrefmap)
    ∧ ∀ path, path ∈ corpus_paths → is_toc path = false →
        ∃ content content' refs,
          corpus !! path = Some content
          ∧ corpus_after !! path = Some content'
          ∧ Forall2 (pruned xrefmap)
              (content_items content) (content_items content')
          ∧ references content' = Some refs
          ∧ NoDup refs
          ∧ ∀ g, g ∈ refs
                 ↔ ∃ item u, item ∈ content_items content
                             ∧ marks xrefmap item u ∧ xrefmap !! u = Some g.
Proof.
  apply (@rewrite_pass_references insertion_order corpus corpus_after
           corpus_paths corpus_refs).
  vm_compute. reflexivity.
Defined.

Lemma generate_xrefmap_list_witness :
  Forall2 (λ pi r,
             ref_uid r = uid pi.2
             ∧ name pi.2 = Some (ref_name r)
             ∧ fullName pi.2 = Some (ref_fullName r)
             ∧ ref_href r
               = "/" +:+ Re.sub re_yml (λ _ _, ".html") pi.1)
    (listed corpus corpus_paths) corpus_refs.
Proof.
  apply (@generate_xrefmap_list insertion_order corpus corpus_after).
  vm_compute. reflexivity.
Defined.

Lemma generate_xrefmap_frame_witness :
  corpus_after !! xrefmap_yml = None
  ∧ (∀ path, path ≠ xrefmap_yml →
       (is_Some (corpus_after !! path) ↔ is_Some (corpus !! path)))
  ∧ (∀ path, path ≠ xrefmap_yml →
       path ∉ corpus_paths ∨ is_toc path = true →
       corpus_after !! path = corpus !! path).
Proof.
  apply (@generate_xrefmap_frame insertion_order corpus corpus_after
           corpus_paths corpus_refs).
  vm_compute. reflexivity.
Defined.

Lemma generate_xrefmap_no_dangling_witness :
  ∃ g refs,
    xref_of corpus_refs "m1" = Some g ∧ g ∈ corpus_refs ∧ ref_uid g = "m1"
    ∧ references class_after = Some refs ∧ g ∈ refs.
Proof.
  apply (@generate_xrefmap_no_dangling insertion_order corpus corpus_after
           corpus_paths corpus_refs "a.yml" class_after class_item_after).
  - vm_compute. reflexivity.
  - apply list_elem_of_here.
  - vm_compute. reflexivity.
  - vm_compute. reflexivity.
  - apply list_elem_of_here.
  - right. left. apply list_elem_of_here.
Defined.

Lemma generate_xrefmap_again_witness :
  ∃ fs'',
    @generate_xrefmap insertion_order corpus_after corpus_paths
    = Some (fs'', corpus_refs)
    ∧ ∀ path content', corpus_after !! path = Some content' →
        ∃ content'',
          fs'' !! path = Some content''
          ∧ content_items content'' = content_items content'
          ∧ (references content'' = references content'
             ∨ ∃ refs'' refs',
                 references content'' = Some refs''
                 ∧ references content' = Some refs'
                 ∧ refs'' ≡ₚ refs').
Proof.
  apply (@generate_xrefmap_again insertion_order corpus).
  vm_compute. reflexivity.
Defined.

(** ** The quality gate *)

Section CppcheckFacts.
Import Cppcheck.

Lemma count_loop_is_Some errors error_types :
  is_Some (count_loop errors error_types)
  ↔ Forall (λ e, is_Some (attrib_of e !! "severity")) errors.
Proof.
  revert error_types. induction errors as [|e errors IH]; intros error_types.
  - simpl. split; [constructor|eauto].
  - simpl. rewrite Forall_cons. unfold classify_error.
    destruct (attrib_of e !! "severity") as [sev|]; simpl.
    + repeat case_decide; simpl; rewrite IH; split; eauto; by intros [_ ?].
    + split; [by intros [? ?]|by intros [[? ?] _]].
Qed.

Lemma count_loop_counts errors error_types counts ty :
  count_loop errors error_types = Some counts →
  counts ty
  = error_types ty
    + length (filter (λ e, classify_error e = Some ty) errors).
Proof.
  revert error_types. induction errors as [|e errors IH];
    intros error_types Hc; simpl in Hc.
  - injection Hc as <-. simpl. lia.
  - destruct (classify_error e) as [c|] eqn:He; [|done]. simpl in Hc.
    rewrite (IH _ Hc). rewrite filter_cons. rewrite He.
    destruct (decide (c = ty)) as [->|Hne].
    + rewrite fn_lookup_insert. rewrite decide_True by done. simpl. lia.
    + rewrite fn_lookup_insert_ne by done.
      rewrite decide_False by congruence. done.
Qed.

Lemma classified_partition errors :
  Forall (λ e, is_Some (attrib_of e !! "severity")) errors →
  foldr (λ ty n, length (filter (λ e, classify_error e = Some ty) errors) + n)
    0 [ERROR; WARNING; STYLE; PERFORMANCE; PORTABILITY; INFORMATION; UNKNOWN]
  = length errors.
Proof.
  induction 1 as [|e errors [sev Hsev] _ IH]; [done|].
  simpl in *. rewrite !filter_cons.
  assert (∃ ty, classify_error e = Some ty) as [ty Hty].
  { unfold classify_error. rewrite Hsev. simpl. repeat case_decide; eauto. }
  rewrite Hty.
  destruct ty; repeat (case_decide; [simplify_eq|]); simpl; try lia;
    repeat case_decide; simplify_eq; simpl; lia.
Qed.

(** X22.  [count_error_types] fails exactly when an error of the report has
    no severity; otherwise the count of each type is the number of errors
    of the report that [classify_error] puts in that type, and the seven
    counts add up to the number of errors. *)
Theorem count_error_types_counts (root : Element) :
  (is_Some (count_error_types root)
   ↔ Forall (λ e, is_Some (attrib_of e !! "severity")) (findall_errors root))
  ∧ ∀ counts, count_error_types root = Some counts →
      (∀ ty, counts ty
             = length (filter (λ e, classify_error e = Some ty)
                         (findall_errors root)))
      ∧ counts ERROR + counts WARNING + counts STYLE + counts PERFORMANCE
        + counts PORTABILITY + counts INFORMATION + counts UNKNOWN
        = length (findall_errors root).
Proof.
  split; [apply count_loop_is_Some|].
  intros counts Hc.
  assert (∀ ty, counts ty
                = length (filter (λ e, classify_error e = Some ty)
                            (findall_errors root))) as Hty.
  { intros ty. by rewrite (count_loop_counts _ _ _ ty Hc). }
  split; [done|].
  rewrite <-(classified_partition (findall_errors root)).
  - simpl. rewrite !Hty. lia.
  - apply count_loop_is_Some with (error_types := λ _, 0). by eexists.
Qed.

(** X23.  On a report that it can count, [main] returns 0 when the errors
    and the warnings are within their thresholds and 1 when either count
    is above its threshold, whatever the other severities; it prints the
    line of the passed gate exactly when it returns 0.  Without a report
    file it returns nothing, which is the exit status 0. *)
Theorem main_quality_gate (args : Args) (root : Element) (counts : Counts) :
  count_error_types root = Some counts →
  (∃ out code,
     main args (Parsed root) = Some (out, Some code)
     ∧ code
       = (if bool_decide
               ((Z.of_nat (counts ERROR) ≤ error_threshold args)%Z
                ∧ (Z.of_nat (counts WARNING) ≤ warning_threshold args)%Z)
          then 0%Z else 1%Z)
     ∧ ("Quality gate passed" ∈ out ↔ code = 0%Z))
  ∧ (∃ out, main args Missing = Some (out, None))
  ∧ exit_status None = 0%Z.
Proof.
  intros Hc. split; [|split; [by eexists|done]].
  unfold main. rewrite Hc. cbn [mbind option_bind].
  do 2 case_bool_decide; cbn [app];
    (eexists _, _; split; [reflexivity|]);
    (split; [rewrite ?bool_decide_eq_true_2 by lia;
             rewrite ?bool_decide_eq_false_2 by lia; done|]).
  all: destruct (decide (_ = 0%Z)) as [Heq|Hne]; try done.
  all: split; [intros Hin|intros Hcode]; try done.
  all: try (clear; rewrite ?elem_of_app, ?elem_of_cons; by auto 20).
  all: exfalso; revert Hin;
    rewrite ?elem_of_app, ?elem_of_cons, ?elem_of_nil; intuition discriminate.
Qed.
End CppcheckFacts.

Lemma count_error_types_counts_witness :
  (∀ ty, sample_counts ty
         = length (filter (λ e, Cppcheck.classify_error e = Some ty)
                     (Cppcheck.findall_errors sample_report)))
  ∧ sample_counts Cppcheck.ERROR + sample_counts Cppcheck.WARNING
    + sample_counts Cppcheck.STYLE + sample_counts Cppcheck.PERFORMANCE
    + sample_counts Cppcheck.PORTABILITY + sample_counts Cppcheck.INFORMATION
    + sample_counts Cppcheck.UNKNOWN
    = length (Cppcheck.findall_errors sample_report).
Proof.
  apply (proj2 (count_error_types_counts sample_report) sample_counts).
  vm_compute. reflexivity.
Defined.

Lemma main_quality_gate_witness :
  ∃ out code,
    Cppcheck.main sample_args (Cppcheck.Parsed sample_report)
    = Some (out, Some code)
    ∧ code
      = (if bool_decide
              ((Z.of_nat (sample_counts Cppcheck.ERROR)
                ≤ Cppcheck.error_threshold sample_args)%Z
               ∧ (Z.of_nat (sample_counts Cppcheck.WARNING)
                  ≤ Cppcheck.warning_threshold sample_args)%Z)
         then 0%Z else 1%Z)
    ∧ ("Quality gate passed" ∈ out ↔ code = 0%Z).
Proof.
  apply (main_quality_gate sample_args sample_report sample_counts).
  vm_compute. reflexivity.
Defined.

(** ** Formulas on one line *)

Section FormulaFacts.
Context `{PySet}.

Lemma Formula_end (self p : Node) (rest : list Node) (its : Items)
    (t e : string) :
  tag self = "formula" → text self = Some t →
  step (mkDocFx (self :: p :: rest) its) (EndElement e)
  = Some (mkDocFx
            (add_content (p :: rest) (math_block (formula_rewrite t))) its).
Proof.
  intros Htag Ht. cbn [step]. unfold endElement.
  cbn [stack items ancestor mbind option_bind]. rewrite Htag.
  change (handler_of "formula") with Formula. cbn [leave Formula].
  unfold Formula_leave, math_block. cbn [get_content]. by rewrite Ht.
Qed.

(** X24.  At the end of a formula whose text is, between white space, a
    display wrapper or an inline wrapper around a content on one line,
    the math block appended at the parent holds exactly the content; at
    the end of a formula that neither pattern matches it holds the text
    as it is.  The node of the formula leaves the stack, and the items
    stay as they are. *)
Theorem Formula_one_line_wrappers (self p : Node) (rest : list Node)
    (its : Items) (e : string) :
  tag self = "formula" →
  (∀ ws1 inner ws2,
     all_in Str.is_space ws1 → all_in dot inner → all_in Str.is_space ws2 →
     text self = Some (ws1 +:+ "\[" +:+ inner +:+ "\]" +:+ ws2)
     ∨ text self = Some (ws1 +:+ "$" +:+ inner +:+ "$" +:+ ws2) →
     step (mkDocFx (self :: p :: rest) its) (EndElement e)
     = Some (mkDocFx (add_content (p :: rest) (math_block inner)) its))
  ∧ (∀ t,
       text self = Some t →
       Re.rmatch re_display_math t = None →
       Re.rmatch re_inline_math t = None →
       step (mkDocFx (self :: p :: rest) its) (EndElement e)
       = Some (mkDocFx (add_content (p :: rest) (math_block t)) its)).
Proof.
  intros Htag. split.
  - intros ws1 inner ws2 H1 H2 H3 [Ht|Ht];
      rewrite (Formula_end _ _ _ _ _ _ Htag Ht).
    + by rewrite formula_rewrite_display.
    + by rewrite formula_rewrite_inline.
  - intros t Ht Hd Hi. rewrite (Formula_end _ _ _ _ _ _ Htag Ht).
    unfold formula_rewrite. by rewrite Hd, Hi.
Qed.
End FormulaFacts.

Lemma Formula_one_line_wrappers_witness :
  @step insertion_order
    (mkDocFx (buffer_node "formula" ("" +:+ "$" +:+ "x^2" +:+ "$" +:+ "")
              :: buffer_node "detaileddescription" "a" :: []) ∅)
    (EndElement "formula")
  = Some (mkDocFx
            (add_content (buffer_node "detaileddescription" "a" :: [])
               (math_block "x^2")) ∅).
Proof.
  apply (proj1 (@Formula_one_line_wrappers insertion_order
                  (buffer_node "formula"
                     ("" +:+ "$" +:+ "x^2" +:+ "$" +:+ ""))
                  (buffer_node "detaileddescription" "a") [] ∅ "formula"
                  eq_refl) "" "x^2" "").
  - exact I.
  - repeat split.
  - exact I.
  - right. reflexivity.
Defined.
